(** * Blockly core: block graph, workspace registry and undo log

    A shallow embedding of [core/block.js], [core/workspace.js] and
    [core/events_abstract.js].  JavaScript objects live in an explicit
    store: a [Block] or a [Connection] is referred to by its index in the
    store, so that two references to one object alias, as in the source.
    Methods are state transformers that either return, throw (keeping the
    state reached at the throw, which [try ... finally] needs) or run out
    of fuel (recursion through the store). *)

From Stdlib Require Import Lia.
From stdpp Require Import gmap strings list fin_maps.

Set Default Proof Using "Type".

(** ** References and constants *)

(** A reference to a Block or Connection object: its index in the store. *)
Abbreviation BlockRef := nat (only parsing).
Abbreviation ConnRef := nat (only parsing).
(** A change listener is a host function; only its identity matters here:
    a function registered by the host, or [f.bind(this)] as [setOnChange]
    builds it. *)
Inductive Listener :=
  | HostFn (f : nat)
  | Bound (f : nat) (this : BlockRef).

#[global] Instance Listener_eq_dec : EqDecision Listener.
Proof. solve_decision. Defined.

(** [Blockly.INPUT_VALUE], [Blockly.OUTPUT_VALUE], [Blockly.NEXT_STATEMENT],
    [Blockly.PREVIOUS_STATEMENT], [Blockly.DUMMY_INPUT]. *)
Inductive ConnectionType :=
  | INPUT_VALUE | OUTPUT_VALUE | NEXT_STATEMENT | PREVIOUS_STATEMENT
  | DUMMY_INPUT.

#[global] Instance ConnectionType_eq_dec : EqDecision ConnectionType.
Proof. solve_decision. Defined.

(** JavaScript truthiness of a string: only [''] is falsy. *)
Definition truthy (s : string) : bool := negb (String.eqb s "").

(** Truthiness of an object reference: anything but [null]. *)
Definition non_null {A} (o : option A) : bool :=
  match o with
  | Some _ => true
  | None => false
  end.

(** ** Data model *)

Module Field.
(** Modelled from the spec: [core/field.js] is absent; a field is opaque
    but for the [name] that [getField] compares and the value that
    [getValue] returns. *)
Record t := mk { name : option string; value : string }.
End Field.

Module Input.
(** Modelled from the spec: [core/input.js] is absent; an input has a
    type, a name, a connection unless it is a dummy input, and a row of
    fields, under the names [block.js] reads them by. *)
Record t := mk {
  type : ConnectionType;
  name : string;
  connection : option ConnRef;
  fieldRow : list Field.t
}.
End Input.

Module Connection.
(** Modelled from the spec: [core/connection.js] is absent; the record
    follows the Connection entry of the data model (owner, kind, checks,
    target), with the names [block.js] uses where it reads them, and the
    tombstone the resource model asks for. *)
Record t := mk {
  owner : BlockRef;
  kind : ConnectionType;
  checks : option (list string);
  targetConnection : option ConnRef;
  disposed : bool
}.

Definition set_targetConnection (v : option ConnRef) (c : t) : t :=
  mk (owner c) (kind c) (checks c) v (disposed c).
Definition set_checks (v : option (list string)) (c : t) : t :=
  mk (owner c) (kind c) v (targetConnection c) (disposed c).
Definition set_disposed (v : bool) (c : t) : t :=
  mk (owner c) (kind c) (checks c) (targetConnection c) v.
End Connection.

Module Block.
(** The fields of a Block that the graph engine reads or writes.
    Presentation flags (colour, tooltip, collapsed, ...) are left out.
    [workspace] is [true] while [this.workspace] refers to the workspace
    and [false] once [dispose] has set it to [null]. *)
Record t := mk {
  id : string;
  type : option string;
  outputConnection : option ConnRef;
  nextConnection : option ConnRef;
  previousConnection : option ConnRef;
  inputList : list Input.t;
  parentBlock_ : option BlockRef;
  childBlocks_ : list BlockRef;
  isShadow_ : bool;
  workspace : bool;
  onchangeWrapper_ : option Listener
}.

Definition set_type (v : option string) (b : t) : t :=
  mk (id b) v (outputConnection b) (nextConnection b) (previousConnection b)
     (inputList b) (parentBlock_ b) (childBlocks_ b) (isShadow_ b)
     (workspace b) (onchangeWrapper_ b).
Definition set_outputConnection (v : option ConnRef) (b : t) : t :=
  mk (id b) (type b) v (nextConnection b) (previousConnection b)
     (inputList b) (parentBlock_ b) (childBlocks_ b) (isShadow_ b)
     (workspace b) (onchangeWrapper_ b).
Definition set_nextConnection (v : option ConnRef) (b : t) : t :=
  mk (id b) (type b) (outputConnection b) v (previousConnection b)
     (inputList b) (parentBlock_ b) (childBlocks_ b) (isShadow_ b)
     (workspace b) (onchangeWrapper_ b).
Definition set_previousConnection (v : option ConnRef) (b : t) : t :=
  mk (id b) (type b) (outputConnection b) (nextConnection b) v
     (inputList b) (parentBlock_ b) (childBlocks_ b) (isShadow_ b)
     (workspace b) (onchangeWrapper_ b).
Definition set_inputList (v : list Input.t) (b : t) : t :=
  mk (id b) (type b) (outputConnection b) (nextConnection b)
     (previousConnection b) v (parentBlock_ b) (childBlocks_ b)
     (isShadow_ b) (workspace b) (onchangeWrapper_ b).
Definition set_parentBlock_ (v : option BlockRef) (b : t) : t :=
  mk (id b) (type b) (outputConnection b) (nextConnection b)
     (previousConnection b) (inputList b) v (childBlocks_ b)
     (isShadow_ b) (workspace b) (onchangeWrapper_ b).
Definition set_childBlocks_ (v : list BlockRef) (b : t) : t :=
  mk (id b) (type b) (outputConnection b) (nextConnection b)
     (previousConnection b) (inputList b) (parentBlock_ b) v
     (isShadow_ b) (workspace b) (onchangeWrapper_ b).
(** An update of [childBlocks_] in place, as [push] and
  [goog.array.remove] do. *)
Definition map_childBlocks_ (f : list BlockRef → list BlockRef) (b : t) : t :=
  set_childBlocks_ (f (childBlocks_ b)) b.
Definition set_workspace (v : bool) (b : t) : t :=
  mk (id b) (type b) (outputConnection b) (nextConnection b)
     (previousConnection b) (inputList b) (parentBlock_ b)
     (childBlocks_ b) (isShadow_ b) v (onchangeWrapper_ b).
Definition set_onchangeWrapper_ (v : option Listener) (b : t) : t :=
  mk (id b) (type b) (outputConnection b) (nextConnection b)
     (previousConnection b) (inputList b) (parentBlock_ b)
     (childBlocks_ b) (isShadow_ b) (workspace b) v.
End Block.

Module Event.
(** Modelled from the spec: the event subclasses are absent; the
    payloads follow the envelope the spec lists (Create and Delete hold a
    block, Move a block, Change an element name with its old and new
    value). *)
Inductive payload :=
  | Create | Delete | Move
  | Change (element : string) (oldValue newValue : string).

(** [Blockly.Events.Abstract]: [group] and [recordUndo] are captured
    from the globals when the event is constructed. *)
Record t := mk {
  type : payload;
  blockId : string;
  group : string;
  recordUndo : bool
}.

(** Modelled from the spec: the subclasses' [isNull] overrides are
    absent; an event is null when applying it would change nothing, as a
    Change whose old and new values are equal.  The abstract [isNull]
    returns [false]. *)
Definition isNull (e : t) : bool :=
  match type e with
  | Change _ o n => String.eqb o n
  | _ => false
  end.
End Event.

Module Workspace.
(** Arrays are lists in index order: [push] appends at the end and
    [pop] takes the last element. *)
Record t := mk {
  topBlocks_ : list BlockRef;
  listeners_ : list Listener;
  undoStack_ : list Event.t;
  redoStack_ : list Event.t;
  blockDB_ : gmap string BlockRef;
  MAX_UNDO : nat
}.

Definition set_topBlocks_ (v : list BlockRef) (w : t) : t :=
  mk v (listeners_ w) (undoStack_ w) (redoStack_ w) (blockDB_ w)
     (MAX_UNDO w).
Definition set_listeners_ (v : list Listener) (w : t) : t :=
  mk (topBlocks_ w) v (undoStack_ w) (redoStack_ w) (blockDB_ w)
     (MAX_UNDO w).
Definition set_undoStack_ (v : list Event.t) (w : t) : t :=
  mk (topBlocks_ w) (listeners_ w) v (redoStack_ w) (blockDB_ w)
     (MAX_UNDO w).
Definition set_redoStack_ (v : list Event.t) (w : t) : t :=
  mk (topBlocks_ w) (listeners_ w) (undoStack_ w) v (blockDB_ w)
     (MAX_UNDO w).
Definition set_blockDB_ (v : gmap string BlockRef) (w : t) : t :=
  mk (topBlocks_ w) (listeners_ w) (undoStack_ w) (redoStack_ w) v
     (MAX_UNDO w).

(** A new workspace with the prototype's default [MAX_UNDO]. *)
Definition empty : t := mk [] [] [] [] ∅ 1024.
End Workspace.

Module Events.
(** The globals of [Blockly.Events]: [recordUndo] and [group_] are read
    by the Abstract constructor and written by [undo].  Modelled from the
    spec: [disabled_] counts the [disable] calls that no [enable] has
    matched yet. *)
Record t := mk {
  recordUndo : bool;
  group_ : string;
  disabled_ : nat
}.

Definition set_recordUndo (v : bool) (g : t) : t :=
  mk v (group_ g) (disabled_ g).
Definition set_group_ (v : string) (g : t) : t :=
  mk (recordUndo g) v (disabled_ g).
Definition set_disabled_ (v : nat) (g : t) : t :=
  mk (recordUndo g) (group_ g) v.

Definition initial : t := mk true "" 0.
End Events.

(** The calls that leave the modelled code, in program order: an event
    handed to [Blockly.Events.fire] while events are enabled, a listener
    invoked on an event, an event's [run], and the disposal steps of
    [Block.dispose]. *)
Inductive Obs :=
  | ObsFire (e : Event.t)
  | ObsListener (f : Listener) (e : Event.t)
  | ObsRun (e : Event.t) (forward : bool) (recording : bool)
  | ObsDeregister (b : BlockRef)
  | ObsDisposeInput (b : BlockRef) (name : string)
  | ObsDisposeConnection (c : ConnRef).

(** ** Program state *)

Record State := mkState {
  blocks : list Block.t;
  conns : list Connection.t;
  ws : Workspace.t;
  ev : Events.t;
  uids : nat;
  trace : list Obs
}.

Definition set_blocks (f : list Block.t → list Block.t) (s : State) : State :=
  mkState (f (blocks s)) (conns s) (ws s) (ev s) (uids s) (trace s).
Definition set_conns (f : list Connection.t → list Connection.t)
    (s : State) : State :=
  mkState (blocks s) (f (conns s)) (ws s) (ev s) (uids s) (trace s).
Definition set_ws (f : Workspace.t → Workspace.t) (s : State) : State :=
  mkState (blocks s) (conns s) (f (ws s)) (ev s) (uids s) (trace s).
Definition set_ev (f : Events.t → Events.t) (s : State) : State :=
  mkState (blocks s) (conns s) (ws s) (f (ev s)) (uids s) (trace s).
Definition set_uids (f : nat → nat) (s : State) : State :=
  mkState (blocks s) (conns s) (ws s) (ev s) (f (uids s)) (trace s).
Definition set_trace (f : list Obs → list Obs) (s : State) : State :=
  mkState (blocks s) (conns s) (ws s) (ev s) (uids s) (f (trace s)).

(** An empty workspace: no objects, nothing recorded. *)
Definition initial_state : State :=
  mkState [] [] Workspace.empty Events.initial 0 [].

(** ** The monad of methods *)

(** What a method throws.  [Unrepresentable] is no exception of the
    source: it ends a run in which the source goes on with a value that
    the store has no place for ([undefined] among the inputs of a block);
    the state is the one before that value is stored. *)
Inductive Exn :=
  | Thrown (msg : string)
  | AssertionError (msg : string)
  | TypeError
  | Unrepresentable (msg : string).

Inductive Result (A : Type) :=
  | Ret (a : A) (s : State)
  | Raise (e : Exn) (s : State)
  | OutOfFuel.
Arguments Ret {A} a s.
Arguments Raise {A} e s.
Arguments OutOfFuel {A}.

Definition M (A : Type) : Type := State → Result A.

Definition ret {A} (a : A) : M A := λ s, Ret a s.
Definition bind {A B} (m : M A) (k : A → M B) : M B :=
  λ s, match m s with
       | Ret a s' => k a s'
       | Raise e s' => Raise e s'
       | OutOfFuel => OutOfFuel
       end.
Definition throw {A} (e : Exn) : M A := λ s, Raise e s.
Definition gets {A} (f : State → A) : M A := λ s, Ret (f s) s.
Definition modify (f : State → State) : M unit := λ s, Ret tt (f s).

(** [try { m } finally { fin }]: [fin] runs on either exit of [m]. *)
Definition try_finally {A} (m : M A) (fin : M unit) : M A :=
  λ s, match m s with
       | Ret a s' =>
           match fin s' with
           | Ret _ s'' => Ret a s''
           | Raise e s'' => Raise e s''
           | OutOfFuel => OutOfFuel
           end
       | Raise e s' =>
           match fin s' with
           | Ret _ s'' => Raise e s''
           | Raise e' s'' => Raise e' s''
           | OutOfFuel => OutOfFuel
           end
       | OutOfFuel => OutOfFuel
       end.

Notation "x <- m ;; k" := (bind m (λ x, k))
  (at level 100, m at next level, right associativity,
   format "'[v' x  <-  m  ;;  '/' k ']'").
Notation "m ;;; k" := (bind m (λ _, k))
  (at level 100, right associativity,
   format "'[v' m  ;;;  '/' k ']'").

Definition when (c : bool) (m : M unit) : M unit :=
  if c then m else ret tt.

Definition log (o : Obs) : M unit := modify (set_trace (λ t, t ++ [o])).

(** Reading an object through a reference.  A reference that points
    nowhere cannot arise in JavaScript; it is a [TypeError] here. *)
Definition getBlock (r : BlockRef) : M Block.t :=
  λ s, match blocks s !! r with
       | Some b => Ret b s
       | None => Raise TypeError s
       end.
Definition getConn (c : ConnRef) : M Connection.t :=
  λ s, match conns s !! c with
       | Some x => Ret x s
       | None => Raise TypeError s
       end.
Definition updBlock (r : BlockRef) (f : Block.t → Block.t) : M unit :=
  modify (set_blocks (alter f r)).
Definition updConn (c : ConnRef) (f : Connection.t → Connection.t) : M unit :=
  modify (set_conns (alter f c)).
Definition updWs (f : Workspace.t → Workspace.t) : M unit :=
  modify (set_ws f).
Definition updEv (f : Events.t → Events.t) : M unit :=
  modify (set_ev f).

(** ** Closure library arrays *)

(** [goog.array.remove(arr, obj)]: removes the first occurrence of [obj];
    [None] when there is none (the call returns [false] and the array is
    unchanged). *)
Fixpoint goog_array_remove {A} `{EqDecision A} (x : A) (l : list A)
    : option (list A) :=
  match l with
  | [] => None
  | y :: l' =>
      if decide (y = x) then Some l'
      else match goog_array_remove x l' with
           | Some r => Some (y :: r)
           | None => None
           end
  end.

(** The array after [goog.array.remove], whether or not it found [x]. *)
Definition array_without {A} `{EqDecision A} (x : A) (l : list A) : list A :=
  default l (goog_array_remove x l).

(** [Array.prototype.pop]: the last element and the shortened array. *)
Fixpoint array_pop {A} (l : list A) : option (A * list A) :=
  match l with
  | [] => None
  | [x] => Some (x, [])
  | x :: l' =>
      match array_pop l' with
      | Some (y, r) => Some (y, x :: r)
      | None => None
      end
  end.

(** [Array.prototype.unshift(items...)]: inserts [items] at the front. *)
Definition array_unshift {A} (items : list A) (l : list A) : list A :=
  items ++ l.

(** ** What the sources leave to the host *)

(** A block definition of the [Blockly.Blocks] table, as [goog.mixin]
    copies it onto a new block: the type's [init] function and its
    [onchange] handler, when it has them. *)
Record BlockDef := mkBlockDef {
  init : option (BlockRef → M unit);
  onchange : option nat
}.

(** The parts of the repository that are not in the sources and that the
    modelled methods call: [Blockly.utils.genUid] (the [n]-th identifier
    it hands out), the [Blockly.Blocks] table, [Blockly.Events.filter]
    and the [run] method of the event subclasses. *)
Record Env := mkEnv {
  genUid : nat → string;
  Blocks : string → option BlockDef;
  Events_filter : list Event.t → bool → list Event.t;
  Event_run : Event.t → bool → M unit
}.

Section Model.
Context (env : Env).

(** [Blockly.utils.genUid()]: the next identifier of the source. *)
Definition utils_genUid : M string :=
  n <- gets uids;;
  modify (set_uids S);;;
  ret (genUid env n).

(** ** Workspace *)

(** [Blockly.Workspace.prototype.addTopBlock] *)
Definition Workspace_addTopBlock (block : BlockRef) : M unit :=
  updWs (λ w, Workspace.set_topBlocks_ (Workspace.topBlocks_ w ++ [block]) w).

(** [Blockly.Workspace.prototype.removeTopBlock] *)
Definition Workspace_removeTopBlock (block : BlockRef) : M unit :=
  top <- gets (λ s, Workspace.topBlocks_ (ws s));;
  match goog_array_remove block top with
  | Some top' => updWs (Workspace.set_topBlocks_ top')
  | None =>
      throw (Thrown "Block not present in workspace's list of top-most blocks.")
  end.

(** [Blockly.Workspace.prototype.addChangeListener] *)
Definition Workspace_addChangeListener (func : Listener) : M unit :=
  updWs (λ w, Workspace.set_listeners_ (Workspace.listeners_ w ++ [func]) w).

(** [Blockly.Workspace.prototype.removeChangeListener] *)
Definition Workspace_removeChangeListener (func : Listener) : M unit :=
  updWs (λ w,
    Workspace.set_listeners_ (array_without func (Workspace.listeners_ w)) w).

(** [Blockly.Workspace.prototype.getBlockById]: [this.blockDB_[id] || null],
    with [None] for [null]. *)
Definition Workspace_getBlockById (w : Workspace.t) (id : string)
    : option BlockRef :=
  Workspace.blockDB_ w !! id.

(** The listener loop of [fireChangeListener] for listeners that only
    look at the event: [func(event)] is an entry of the trace and leaves
    the state as it is, so that the array of listeners is the same at
    every turn.  [call_listeners_from] is the loop over listeners that
    act on the workspace. *)
Fixpoint call_listeners (fs : list Listener) (e : Event.t) : M unit :=
  match fs with
  | [] => ret tt
  | f :: fs' => log (ObsListener f e);;; call_listeners fs' e
  end.

(** [Blockly.Workspace.prototype.fireChangeListener] *)
Definition Workspace_fireChangeListener (e : Event.t) : M unit :=
  when (Event.recordUndo e) (
    updWs (λ w, Workspace.set_undoStack_ (Workspace.undoStack_ w ++ [e]) w);;;
    updWs (Workspace.set_redoStack_ []);;;
    w <- gets ws;;
    when (bool_decide
            (Workspace.MAX_UNDO w < length (Workspace.undoStack_ w)))
      (updWs (λ w, Workspace.set_undoStack_
                     (array_unshift [] (Workspace.undoStack_ w)) w)));;;
  fs <- gets (λ s, Workspace.listeners_ (ws s));;
  call_listeners fs e.

Definition inputStack (redo : bool) (w : Workspace.t) : list Event.t :=
  if redo then Workspace.redoStack_ w else Workspace.undoStack_ w.
Definition outputStack (redo : bool) (w : Workspace.t) : list Event.t :=
  if redo then Workspace.undoStack_ w else Workspace.redoStack_ w.
Definition set_inputStack (redo : bool) (v : list Event.t) (w : Workspace.t)
    : Workspace.t :=
  if redo then Workspace.set_redoStack_ v w else Workspace.set_undoStack_ v w.
Definition set_outputStack (redo : bool) (v : list Event.t) (w : Workspace.t)
    : Workspace.t :=
  if redo then Workspace.set_undoStack_ v w else Workspace.set_redoStack_ v w.

(** The [while] loop of [undo]: as long as the stack is not empty, the
    group of [inputEvent] is truthy and the event on top has the same
    group, pop it onto [events].  The loop runs at most once per element
    of the stack, which [n] counts. *)
Fixpoint undo_collect (n : nat) (inputEvent : Event.t)
    (stack events : list Event.t) : list Event.t * list Event.t :=
  match n with
  | 0 => (stack, events)
  | S n' =>
      match array_pop stack with
      | Some (top, rest) =>
          if truthy (Event.group inputEvent)
             && String.eqb (Event.group inputEvent) (Event.group top)
          then undo_collect n' inputEvent rest (events ++ [top])
          else (stack, events)
      | None => (stack, events)
      end
  end.

(** The replay loop of [undo]: [event.run(redo)] for each event in turn. *)
Fixpoint undo_replay (events : list Event.t) (redo : bool) : M unit :=
  match events with
  | [] => ret tt
  | e :: events' =>
      recording <- gets (λ s, Events.recordUndo (ev s));;
      log (ObsRun e redo recording);;;
      Event_run env e redo;;;
      undo_replay events' redo
  end.

(** [Blockly.Workspace.prototype.undo] *)
Definition Workspace_undo (redo : bool) : M unit :=
  w <- gets ws;;
  match array_pop (inputStack redo w) with
  | None => ret tt
  | Some (inputEvent, rest) =>
      let '(rest', events) :=
        undo_collect (length rest) inputEvent rest [inputEvent] in
      updWs (set_inputStack redo rest');;;
      updWs (λ w, set_outputStack redo (outputStack redo w ++ events) w);;;
      let events' := Events_filter env events redo in
      updEv (Events.set_recordUndo false);;;
      try_finally (undo_replay events' redo)
                  (updEv (Events.set_recordUndo true))
  end.

(** ** Events *)

(** Modelled from the spec: [core/events.js] is absent.  Events are
    enabled unless [disable] calls outnumber [enable] calls. *)
Definition Events_isEnabled : M bool :=
  gets (λ s, bool_decide (Events.disabled_ (ev s) = 0)).
(** Modelled from the spec: [disable] and [enable] nest. *)
Definition Events_disable : M unit :=
  updEv (λ g, Events.set_disabled_ (S (Events.disabled_ g)) g).
(** Modelled from the spec: [enable] undoes one [disable]. *)
Definition Events_enable : M unit :=
  updEv (λ g, Events.set_disabled_ (pred (Events.disabled_ g)) g).
(** Modelled from the spec: the id of the open group, [''] when none
    is open. *)
Definition Events_getGroup : M string :=
  gets (λ s, Events.group_ (ev s)).

(** Modelled from the spec: [setGroup(true)] opens a group under a new
    id, [setGroup(false)] closes the open group. *)
Definition Events_setGroup (state : bool) : M unit :=
  if state then (u <- utils_genUid;; updEv (Events.set_group_ u))
  else updEv (Events.set_group_ "").

(** Modelled from the spec: [Blockly.Events.fire] is absent.  Firing is
    synchronous: an event fired while events are enabled is handed to the
    workspace, which records it and notifies the listeners. *)
Definition Events_fire (e : Event.t) : M unit :=
  enabled <- Events_isEnabled;;
  when enabled (log (ObsFire e);;; Workspace_fireChangeListener e).

(** [Blockly.Events.Abstract]: the constructor reads the group and the
    [recordUndo] flag from the globals. *)
Definition Events_Abstract_new (p : Event.payload) (blockId : string)
    : M Event.t :=
  g <- gets ev;;
  ret (Event.mk p blockId (Events.group_ g) (Events.recordUndo g)).

(** Modelled from the spec: the constructors of the event subclasses are
    absent; a Create or Delete event names the block it is about. *)
Definition Events_BlockCreate_new (block : Block.t) : M Event.t :=
  Events_Abstract_new Event.Create (Block.id block).
(** Modelled from the spec: as for Create. *)
Definition Events_BlockDelete_new (block : Block.t) : M Event.t :=
  Events_Abstract_new Event.Delete (Block.id block).

(** ** Block: parents and children *)

(** [this.workspace], a [TypeError] to dereference once it is [null]. *)
Definition Block_workspace (this : BlockRef) : M unit :=
  b <- getBlock this;;
  if Block.workspace b then ret tt else throw TypeError.

(** Modelled from the spec: [Connection.isConnected], whether the
    connection has a target. *)
Definition Connection_isConnected (c : ConnRef) : M bool :=
  x <- getConn c;;
  ret (non_null (Connection.targetConnection x)).

(** [conn && conn.isConnected()] for a connection slot of a block. *)
Definition slot_isConnected (slot : option ConnRef) : M bool :=
  match slot with
  | Some c => Connection_isConnected c
  | None => ret false
  end.

(** [Blockly.Block.prototype.setParent] *)
Definition Block_setParent (this : BlockRef) (newParent : option BlockRef)
    : M unit :=
  b <- getBlock this;;
  if decide (newParent = Block.parentBlock_ b) then ret tt
  else
    match Block.parentBlock_ b with
    | Some p =>
        updBlock p (Block.map_childBlocks_ (array_without this));;;
        prev <- slot_isConnected (Block.previousConnection b);;
        (if prev then throw (Thrown "Still connected to previous block.")
         else ret tt);;;
        out <- slot_isConnected (Block.outputConnection b);;
        (if out then throw (Thrown "Still connected to parent block.")
         else ret tt);;;
        updBlock this (Block.set_parentBlock_ None)
    | None =>
        Block_workspace this;;;
        Workspace_removeTopBlock this
    end;;;
    updBlock this (Block.set_parentBlock_ newParent);;;
    match newParent with
    | Some q =>
        _ <- getBlock q;;
        updBlock q (Block.map_childBlocks_ (λ l, l ++ [this]))
    | None =>
        Block_workspace this;;;
        Workspace_addTopBlock this
    end.

(** ** Connection *)

(** Modelled from the spec: an input-value or next-statement connection
    is the superior side of a join; the block that owns the other side
    becomes the child. *)
Definition isSuperior (k : ConnectionType) : bool :=
  match k with
  | INPUT_VALUE | NEXT_STATEMENT => true
  | _ => false
  end.

(** Modelled from the spec: value joins value, statement-previous joins
    statement-next. *)
Definition kinds_compatible (k1 k2 : ConnectionType) : bool :=
  match k1, k2 with
  | INPUT_VALUE, OUTPUT_VALUE | OUTPUT_VALUE, INPUT_VALUE
  | NEXT_STATEMENT, PREVIOUS_STATEMENT
  | PREVIOUS_STATEMENT, NEXT_STATEMENT => true
  | _, _ => false
  end.

(** Modelled from the spec: two check lists are compatible when they
    intersect or when either side is unconstrained ([null]). *)
Definition checks_compatible (a b : option (list string)) : bool :=
  match a, b with
  | Some ca, Some cb => existsb (λ x, bool_decide (x ∈ cb)) ca
  | _, _ => true
  end.

(** Modelled from the spec: [Connection.checkType_]. *)
Definition Connection_checkType_ (c other : ConnRef) : M bool :=
  x <- getConn c;;
  y <- getConn other;;
  ret (checks_compatible (Connection.checks x) (Connection.checks y)).

(** Modelled from the spec: [Connection.targetBlock], the owner of the
    target, or [null]. *)
Definition Connection_targetBlock (c : ConnRef) : M (option BlockRef) :=
  x <- getConn c;;
  match Connection.targetConnection x with
  | Some t => y <- getConn t;; ret (Some (Connection.owner y))
  | None => ret None
  end.

(** Modelled from the spec: [Connection.connect] validates the kinds and
    the checks and fails with a ConnectionError otherwise; on success it
    sets the target on both sides and reparents the child block through
    [setParent]. *)
Definition Connection_connect (c other : ConnRef) : M unit :=
  x <- getConn c;;
  y <- getConn other;;
  if kinds_compatible (Connection.kind x) (Connection.kind y)
     && checks_compatible (Connection.checks x) (Connection.checks y)
  then
    updConn c (Connection.set_targetConnection (Some other));;;
    updConn other (Connection.set_targetConnection (Some c));;;
    if isSuperior (Connection.kind x)
    then Block_setParent (Connection.owner y) (Some (Connection.owner x))
    else Block_setParent (Connection.owner x) (Some (Connection.owner y))
  else throw (Thrown "ConnectionError").

(** Modelled from the spec: [Connection.disconnect] does nothing when
    not connected; otherwise it clears the target on both sides and
    reparents the former child block to [null]. *)
Definition Connection_disconnect (c : ConnRef) : M unit :=
  x <- getConn c;;
  match Connection.targetConnection x with
  | None => ret tt
  | Some t =>
      y <- getConn t;;
      updConn c (Connection.set_targetConnection None);;;
      updConn t (Connection.set_targetConnection None);;;
      if isSuperior (Connection.kind x)
      then Block_setParent (Connection.owner y) None
      else Block_setParent (Connection.owner x) None
  end.

(** Modelled from the spec: [Connection.setCheck] replaces the filter
    and severs a connection that the new filter makes incompatible. *)
Definition Connection_setCheck (c : ConnRef) (check : option (list string))
    : M unit :=
  updConn c (Connection.set_checks check);;;
  x <- getConn c;;
  match Connection.targetConnection x with
  | Some t =>
      ok <- Connection_checkType_ c t;;
      if ok then ret tt else Connection_disconnect c
  | None => ret tt
  end.

(** Modelled from the spec: [Connection.dispose] leaves a tombstone. *)
Definition Connection_dispose (c : ConnRef) : M unit :=
  log (ObsDisposeConnection c);;;
  updConn c (Connection.set_disposed true).

(** Modelled from the spec: [core/input.js] is absent; an input owns its
    connection, so disposing the input disposes that connection. *)
Definition Input_dispose (sourceBlock : BlockRef) (input : Input.t) : M unit :=
  log (ObsDisposeInput sourceBlock (Input.name input));;;
  match Input.connection input with
  | Some c => Connection_dispose c
  | None => ret tt
  end.

(** [new Blockly.Connection(this, type)], through
    [Blockly.Block.prototype.makeConnection_]. *)
Definition Block_makeConnection_ (this : BlockRef) (type : ConnectionType)
    : M ConnRef :=
  c <- gets (λ s, length (conns s));;
  modify (set_conns (λ l, l ++ [Connection.mk this type None None false]));;;
  ret c.

(** ** Block: structure *)

(** [Blockly.Block.prototype.getNextBlock] *)
Definition Block_getNextBlock (this : BlockRef) : M (option BlockRef) :=
  b <- getBlock this;;
  match Block.nextConnection b with
  | Some nc => Connection_targetBlock nc
  | None => ret None
  end.

(** [Blockly.Block.prototype.unplug] *)
Definition Block_unplug (this : BlockRef) (opt_healStack : bool) : M unit :=
  b <- getBlock this;;
  match Block.outputConnection b with
  | Some oc =>
      connected <- Connection_isConnected oc;;
      when connected (Connection_disconnect oc)
  | None =>
      match Block.previousConnection b with
      | Some pc =>
          x <- getConn pc;;
          let previousTarget := Connection.targetConnection x in
          when (non_null previousTarget)
               (Connection_disconnect pc);;;
          nextBlock <- Block_getNextBlock this;;
          if opt_healStack && non_null nextBlock then
            b' <- getBlock this;;
            match Block.nextConnection b' with
            | Some nc =>
                y <- getConn nc;;
                match Connection.targetConnection y with
                | Some nextTarget =>
                    Connection_disconnect nextTarget;;;
                    match previousTarget with
                    | Some pt =>
                        ok <- Connection_checkType_ pt nextTarget;;
                        when ok (Connection_connect pt nextTarget)
                    | None => ret tt
                    end
                | None => throw TypeError
                end
            | None => throw TypeError
            end
          else ret tt
      | None => ret tt
      end
  end.

(** [Blockly.Block.prototype.getConnections_] *)
Definition Block_getConnections_ (b : Block.t) : list ConnRef :=
  option_list (Block.outputConnection b)
  ++ option_list (Block.previousConnection b)
  ++ option_list (Block.nextConnection b)
  ++ omap Input.connection (Block.inputList b).

(** [for ... input.dispose()] *)
Fixpoint dispose_inputs (this : BlockRef) (inputs : list Input.t) : M unit :=
  match inputs with
  | [] => ret tt
  | input :: inputs' => Input_dispose this input;;; dispose_inputs this inputs'
  end.

(** The last loop of [dispose]: disconnect a connection that is still
    connected, then dispose of it. *)
Fixpoint dispose_connections (connections : list ConnRef) : M unit :=
  match connections with
  | [] => ret tt
  | connection :: connections' =>
      connected <- Connection_isConnected connection;;
      when connected (Connection_disconnect connection);;;
      Connection_dispose connection;;;
      dispose_connections connections'
  end.

(** The part of [dispose] that takes the block out of the workspace. *)
Definition Block_deregister (this : BlockRef) : M unit :=
  b <- getBlock this;;
  when (Block.workspace b) (
    Workspace_removeTopBlock this;;;
    log (ObsDeregister this);;;
    updWs (λ w,
      Workspace.set_blockDB_ (delete (Block.id b) (Workspace.blockDB_ w)) w);;;
    updBlock this (Block.set_workspace false)).

(** [Blockly.Block.prototype.dispose].  The loop over the children runs
    [i] from [childBlocks_.length - 1] down to [0] and reads
    [this.childBlocks_[i]] from the array as it is then: disposing of a
    child unplugs it, which takes it out of this array. *)
Fixpoint Block_dispose (fuel : nat) (this : BlockRef) (healStack : bool)
    : M unit :=
  match fuel with
  | 0 => λ _, OutOfFuel
  | S fuel' =>
      b <- getBlock this;;
      if negb (Block.workspace b) then ret tt
      else
        match Block.onchangeWrapper_ b with
        | Some f => Workspace_removeChangeListener f
        | None => ret tt
        end;;;
        Block_unplug this healStack;;;
        enabled <- Events_isEnabled;;
        when enabled (
          b0 <- getBlock this;;
          e <- Events_BlockDelete_new b0;;
          Events_fire e);;;
        Events_disable;;;
        try_finally (
          Block_deregister this;;;
          b1 <- getBlock this;;
          (fix children (n : nat) : M unit :=
             match n with
             | 0 => ret tt
             | S i =>
                 bi <- getBlock this;;
                 match Block.childBlocks_ bi !! i with
                 | Some child =>
                     Block_dispose fuel' child false;;;
                     children i
                 | None => throw TypeError
                 end
             end) (length (Block.childBlocks_ b1));;;
          b2 <- getBlock this;;
          dispose_inputs this (Block.inputList b2);;;
          updBlock this (Block.set_inputList []);;;
          b3 <- getBlock this;;
          dispose_connections (Block_getConnections_ b3))
          Events_enable
  end.

(** [Blockly.Block.prototype.getDescendants] *)
Fixpoint Block_getDescendants (fuel : nat) (this : BlockRef)
    : M (list BlockRef) :=
  match fuel with
  | 0 => λ _, OutOfFuel
  | S fuel' =>
      b <- getBlock this;;
      (fix each (children : list BlockRef) (blocks : list BlockRef)
         : M (list BlockRef) :=
         match children with
         | [] => ret blocks
         | child :: children' =>
             d <- Block_getDescendants fuel' child;;
             each children' (blocks ++ d)
         end) (Block.childBlocks_ b) [this]
  end.

(** ** Block: shape *)

(** The common body of [setPreviousStatement], [setNextStatement] and
    [setOutput] is written out three times in the source; so it is here. *)

(** [Blockly.Block.prototype.setPreviousStatement].  [opt_check] is
    [None] for [undefined] and [null]. *)
Definition Block_setPreviousStatement (this : BlockRef) (newBoolean : bool)
    (opt_check : option (list string)) : M unit :=
  b <- getBlock this;;
  if newBoolean then
    match Block.previousConnection b with
    | None =>
        (if non_null (Block.outputConnection b)
         then throw (AssertionError
           "Remove output connection prior to adding previous connection.")
         else ret tt);;;
        c <- Block_makeConnection_ this PREVIOUS_STATEMENT;;
        updBlock this (Block.set_previousConnection (Some c))
    | Some _ => ret tt
    end;;;
    b' <- getBlock this;;
    match Block.previousConnection b' with
    | Some c => Connection_setCheck c opt_check
    | None => throw TypeError
    end
  else
    match Block.previousConnection b with
    | Some c =>
        connected <- Connection_isConnected c;;
        (if connected
         then throw (AssertionError
           "Must disconnect previous statement before removing connection.")
         else ret tt);;;
        Connection_dispose c;;;
        updBlock this (Block.set_previousConnection None)
    | None => ret tt
    end.

(** [Blockly.Block.prototype.setNextStatement] *)
Definition Block_setNextStatement (this : BlockRef) (newBoolean : bool)
    (opt_check : option (list string)) : M unit :=
  b <- getBlock this;;
  if newBoolean then
    match Block.nextConnection b with
    | None =>
        c <- Block_makeConnection_ this NEXT_STATEMENT;;
        updBlock this (Block.set_nextConnection (Some c))
    | Some _ => ret tt
    end;;;
    b' <- getBlock this;;
    match Block.nextConnection b' with
    | Some c => Connection_setCheck c opt_check
    | None => throw TypeError
    end
  else
    match Block.nextConnection b with
    | Some c =>
        connected <- Connection_isConnected c;;
        (if connected
         then throw (AssertionError
           "Must disconnect next statement before removing connection.")
         else ret tt);;;
        Connection_dispose c;;;
        updBlock this (Block.set_nextConnection None)
    | None => ret tt
    end.

(** [Blockly.Block.prototype.setOutput] *)
Definition Block_setOutput (this : BlockRef) (newBoolean : bool)
    (opt_check : option (list string)) : M unit :=
  b <- getBlock this;;
  if newBoolean then
    match Block.outputConnection b with
    | None =>
        (if non_null (Block.previousConnection b)
         then throw (AssertionError
           "Remove previous connection prior to adding output connection.")
         else ret tt);;;
        c <- Block_makeConnection_ this OUTPUT_VALUE;;
        updBlock this (Block.set_outputConnection (Some c))
    | Some _ => ret tt
    end;;;
    b' <- getBlock this;;
    match Block.outputConnection b' with
    | Some c => Connection_setCheck c opt_check
    | None => throw TypeError
    end
  else
    match Block.outputConnection b with
    | Some c =>
        connected <- Connection_isConnected c;;
        (if connected
         then throw (AssertionError
           "Must disconnect output value before removing connection.")
         else ret tt);;;
        Connection_dispose c;;;
        updBlock this (Block.set_outputConnection None)
    | None => ret tt
    end.

(** [Blockly.Block.prototype.appendInput_] *)
Definition Block_appendInput_ (this : BlockRef) (type : ConnectionType)
    (name : string) : M Input.t :=
  connection <-
    (if bool_decide (type = INPUT_VALUE ∨ type = NEXT_STATEMENT)
     then (c <- Block_makeConnection_ this type;; ret (Some c))
     else ret None);;
  let input := Input.mk type name connection [] in
  updBlock this (λ b, Block.set_inputList (Block.inputList b ++ [input]) b);;;
  ret input.

(** [Blockly.Block.prototype.setOnChange], for a function [onchangeFn]. *)
Definition Block_setOnChange (this : BlockRef) (onchangeFn : nat) : M unit :=
  b <- getBlock this;;
  match Block.onchangeWrapper_ b with
  | Some f => Block_workspace this;;; Workspace_removeChangeListener f
  | None => ret tt
  end;;;
  updBlock this (Block.set_onchangeWrapper_ (Some (Bound onchangeFn this)));;;
  Block_workspace this;;;
  Workspace_addChangeListener (Bound onchangeFn this).

(** ** Block: lookups *)

(** The inner loop of [getField]: the first field of the row whose name
    is strictly equal to [name]. *)
Fixpoint getField_row (row : list Field.t) (name : string) : option Field.t :=
  match row with
  | [] => None
  | field :: row' =>
      if decide (Field.name field = Some name) then Some field
      else getField_row row' name
  end.

(** The outer loop of [getField]. *)
Fixpoint getField_inputs (inputs : list Input.t) (name : string)
    : option Field.t :=
  match inputs with
  | [] => None
  | input :: inputs' =>
      match getField_row (Input.fieldRow input) name with
      | Some field => Some field
      | None => getField_inputs inputs' name
      end
  end.

(** [Blockly.Block.prototype.getField], with [None] for [null]. *)
Definition Block_getField (b : Block.t) (name : string) : option Field.t :=
  getField_inputs (Block.inputList b) name.

(** [Blockly.Block.prototype.getFieldValue] *)
Definition Block_getFieldValue (b : Block.t) (name : string) : option string :=
  match Block_getField b name with
  | Some field => Some (Field.value field)
  | None => None
  end.

(** The loop of [getInput]. *)
Fixpoint getInput_loop (inputs : list Input.t) (name : string)
    : option Input.t :=
  match inputs with
  | [] => None
  | input :: inputs' =>
      if decide (Input.name input = name) then Some input
      else getInput_loop inputs' name
  end.

(** [Blockly.Block.prototype.getInput], with [None] for [null]. *)
Definition Block_getInput (b : Block.t) (name : string) : option Input.t :=
  getInput_loop (Block.inputList b) name.

(** [Blockly.Block.prototype.getInputTargetBlock]:
    [input && input.connection && input.connection.targetBlock()]. *)
Definition Block_getInputTargetBlock (this : BlockRef) (name : string)
    : M (option BlockRef) :=
  b <- getBlock this;;
  match Block_getInput b name with
  | Some input =>
      match Input.connection input with
      | Some c => Connection_targetBlock c
      | None => ret None
      end
  | None => ret None
  end.

(** ** Block: construction *)

(** The fields of a block as the constructor initialises them. *)
Definition new_block (id : string) (type : option string) : Block.t :=
  Block.mk id type None None None [] None [] false true None.

(** The [if (prototypeName)] block of the constructor: it sets the type,
    asserts that [Blockly.Blocks] has a definition of that name and mixes
    the definition into the block.  The definition found is returned. *)
Definition Block_mixin (this : BlockRef) (prototypeName : option string)
    : M (option BlockDef) :=
  match prototypeName with
  | Some name =>
      if truthy name then
        updBlock this (Block.set_type (Some name));;;
        match Blocks env name with
        | Some d => ret (Some d)
        | None => throw (AssertionError "Error: Unknown block type.")
        end
      else ret None
  | None => ret None
  end.

(** [new Blockly.Block(workspace, prototypeName, opt_id)] *)
Definition Block_new (prototypeName : option string) (opt_id : option string)
    : M BlockRef :=
  w <- gets ws;;
  id <- match opt_id with
        | Some i =>
            if truthy i && negb (non_null (Workspace_getBlockById w i))
            then ret i else utils_genUid
        | None => utils_genUid
        end;;
  this <- gets (λ s, length (blocks s));;
  modify (set_blocks (λ l, l ++ [new_block id None]));;;
  updWs (λ w, Workspace.set_blockDB_ (<[id := this]> (Workspace.blockDB_ w)) w);;;
  def <- Block_mixin this prototypeName;;
  Workspace_addTopBlock this;;;
  match def with
  | Some (mkBlockDef (Some f) _) => f this
  | _ => ret tt
  end;;;
  enabled <- Events_isEnabled;;
  when enabled (
    existingGroup <- Events_getGroup;;
    when (negb (truthy existingGroup)) (Events_setGroup true);;;
    try_finally
      (b <- getBlock this;;
       e <- Events_BlockCreate_new b;;
       Events_fire e)
      (when (negb (truthy existingGroup)) (Events_setGroup false)));;;
  match def with
  | Some (mkBlockDef _ (Some f)) => Block_setOnChange this f
  | _ => ret tt
  end;;;
  ret this.

(** [Blockly.Workspace.prototype.newBlock] *)
Definition Workspace_newBlock (prototypeName : option string)
    (opt_id : option string) : M BlockRef :=
  Block_new prototypeName opt_id.

End Model.

(** ** Instances used by the examples *)

(** [Blockly.Events.Abstract.prototype.run]: defined by subclasses, empty
    in the abstract class. *)
Definition Abstract_run (e : Event.t) (_forward : bool) : M unit := ret tt.

(** An identifier source: ["x"], ["xx"], ["xxx"], ... *)
Fixpoint xs (n : nat) : string :=
  match n with
  | 0 => "x"
  | S n' => String.append "x" (xs n')
  end.

(** Modelled from the spec: [Blockly.Events.filter] is absent; the spec
    has events that represent no change dropped, and this filter drops
    them from the list it is given. *)
Definition drop_null_events (events : list Event.t) (_forward : bool)
    : list Event.t :=
  List.filter (λ e, negb (Event.isNull e)) events.

(** A statement block type, with a previous and a next connection. *)
Definition statement_def : BlockDef :=
  mkBlockDef
    (Some (λ this,
       Block_setPreviousStatement this true None;;;
       Block_setNextStatement this true None))
    None.

(** A value block type, with an output connection and a change handler. *)
Definition value_def : BlockDef :=
  mkBlockDef (Some (λ this, Block_setOutput this true None)) (Some 7).

Definition example_Blocks (name : string) : option BlockDef :=
  if String.eqb name "print" then Some statement_def
  else if String.eqb name "number" then Some value_def
  else None.

Definition example_env : Env :=
  mkEnv xs example_Blocks drop_null_events Abstract_run.

(** A [run] that acts on the workspace, in the manner of the Create and
    Delete events: undoing a Delete and redoing a Create make a block
    under the id of the event, which fires a Create event in turn.  The
    other direction and the other events do nothing here. *)
Definition recreate_run (e : Event.t) (forward : bool) : M unit :=
  match Event.type e, forward with
  | Event.Delete, false | Event.Create, true =>
      Workspace_newBlock example_env None (Some (Event.blockId e));;; ret tt
  | _, _ => ret tt
  end.

Definition replay_env : Env :=
  mkEnv xs example_Blocks drop_null_events recreate_run.



Definition ev_create (id group : string) : Event.t :=
  Event.mk Event.Create id group true.

(** A workspace whose undo stack is full: [MAX_UNDO] events. *)
Definition full_undo_state : State :=
  set_ws (Workspace.set_undoStack_
            (ev_create "oldest" "" :: replicate 1023 (ev_create "b" "")))
         initial_state.

(** A block with one dummy input that holds a field named ["NUM"]. *)
Definition number_block : Block.t :=
  Block.mk "n1" (Some "number") None None None
    [Input.mk DUMMY_INPUT "ROW" None [Field.mk (Some "NUM") "42"]]
    None [] false true None.

Definition number_state : State :=
  set_ws (λ w, Workspace.set_blockDB_ {[ "n1" := 0 ]}
                 (Workspace.set_topBlocks_ [0] w))
    (set_blocks (λ _, [number_block]) initial_state).

(** *** The children relation as a tree *)

(** The spec's reading of [getDescendants]: the children relation below a
    block, unfolded into a tree, and its depth-first pre-order. *)
#[local] Unset Elimination Schemes.
Inductive tree := Node (r : BlockRef) (kids : list tree).
#[local] Set Elimination Schemes.

Definition root (t : tree) : BlockRef := let 'Node r _ := t in r.

Fixpoint preorder (t : tree) : list BlockRef :=
  let 'Node r kids := t in r :: concat (map preorder kids).

Fixpoint height (t : tree) : nat :=
  let 'Node _ kids := t in S (foldr Nat.max 0 (map height kids)).

(** [t] is the children relation of the store below its root: each node
    is a block whose [childBlocks_] are the roots of the node's subtrees,
    in order. *)
Fixpoint unfolds_to (st : State) (t : tree) : Prop :=
  let 'Node r kids := t in
  ∃ b, blocks st !! r = Some b ∧
       Block.childBlocks_ b = map root kids ∧
       foldr (λ k P, unfolds_to st k ∧ P) True kids.

Definition bare_block (id : string) (children : list BlockRef) : Block.t :=
  Block.mk id None None None None [] None children false true None.

(** A malformed store: block 3 is a child of both block 1 and block 2. *)
Definition shared_child_state : State :=
  set_blocks (λ _, [bare_block "a" [1; 2]; bare_block "b" [3];
                    bare_block "c" [3]; bare_block "d" []])
             initial_state.

(** A malformed store: blocks 0 and 1 are each other's child. *)
Definition cyclic_state : State :=
  set_blocks (λ _, [bare_block "a" [1]; bare_block "b" [0]]) initial_state.

(** A well-formed store: block 0 with children 1 and 2, block 1 with
    child 3. *)
Definition family_state : State :=
  set_blocks (λ _, [bare_block "a" [1; 2]; bare_block "b" [3];
                    bare_block "c" []; bare_block "d" []])
             initial_state.

Definition family_tree : tree :=
  Node 0 [Node 1 [Node 3 []]; Node 2 []].

(** *** Predicates on states *)

(** A Hoare triple for a method: from a state in [P], a return ends in
    [Q] and a throw in [E].  Running out of fuel promises nothing. *)
Definition hoare {A} (P : State → Prop) (m : M A) (Q : A → State → Prop)
    (E : State → Prop) : Prop :=
  ∀ s, P s → match m s with
             | Ret a s' => Q a s'
             | Raise _ s' => E s'
             | OutOfFuel => True
             end.

(** [m] keeps [P], however it ends. *)
Definition preserves {A} (P : State → Prop) (m : M A) : Prop :=
  hoare P m (λ _, P) P.

(** The connection in a slot of a block is attached to a target. *)
Definition connected (st : State) (slot : option ConnRef) : Prop :=
  ∃ c x, slot = Some c ∧ conns st !! c = Some x ∧
         is_Some (Connection.targetConnection x).

(** The slot is empty, or its connection has no target. *)
Definition unattached (st : State) (slot : option ConnRef) : Prop :=
  ∀ c, slot = Some c →
       ∃ x, conns st !! c = Some x ∧ Connection.targetConnection x = None.

(** The slot is empty, or refers to a connection of the store. *)
Definition valid_slot (st : State) (slot : option ConnRef) : Prop :=
  ∀ c, slot = Some c → is_Some (conns st !! c).

Definition children_of (st : State) (r : BlockRef) : option (list BlockRef) :=
  Block.childBlocks_ <$> blocks st !! r.
Definition parent_of (st : State) (r : BlockRef) : option (option BlockRef) :=
  Block.parentBlock_ <$> blocks st !! r.
Definition top_blocks (st : State) : list BlockRef :=
  Workspace.topBlocks_ (ws st).

(** *** Stores with two statement blocks *)

Definition stmt_block (id : string) (prev next : option ConnRef)
    (parent : option BlockRef) (children : list BlockRef) : Block.t :=
  Block.mk id (Some "print") None next prev [] parent children false true None.

Definition conn (owner : BlockRef) (kind : ConnectionType)
    (target : option ConnRef) : Connection.t :=
  Connection.mk owner kind None target false.

(** Block 1 is still a top block while its previous connection is
    already joined to the next connection of block 0: the state in which
    [connect] calls [setParent]. *)
Definition joined_top_state : State :=
  set_ws (Workspace.set_topBlocks_ [0; 1])
    (set_conns (λ _, [conn 0 NEXT_STATEMENT (Some 1);
                      conn 1 PREVIOUS_STATEMENT (Some 0)])
       (set_blocks (λ _, [stmt_block "p" None (Some 0) None [];
                          stmt_block "q" (Some 1) None None []])
          initial_state)).

(** Block 1 is still a child of block 0 while the connections between
    them are already cleared: the state in which [disconnect] calls
    [setParent]. *)
Definition cleared_child_state : State :=
  set_ws (Workspace.set_topBlocks_ [0])
    (set_conns (λ _, [conn 0 NEXT_STATEMENT None;
                      conn 1 PREVIOUS_STATEMENT None])
       (set_blocks (λ _, [stmt_block "p" None (Some 0) None [1];
                          stmt_block "q" (Some 1) None (Some 0) []])
          initial_state)).

(** *** Output XOR previous *)

(** At most one of [outputConnection] and [previousConnection] is set. *)
Definition not_both (b : Block.t) : Prop :=
  Block.outputConnection b = None ∨ Block.previousConnection b = None.


Definition never_both (st : State) : Prop := Forall not_both (blocks st).




(** *** Registration of a block *)

(** [m] returns from every state in [P], in a state in [P]. *)
Definition safe {A} (P : State → Prop) (m : M A) : Prop :=
  ∀ s, P s → ∃ a s', m s = Ret a s' ∧ P s'.

(** Block [this] is a live block with identifier [id], the registry maps
    [id] to it, and the top blocks are [top]. *)
Definition registered (this : BlockRef) (id : string) (top : list BlockRef)
    (st : State) : Prop :=
  (∃ b, blocks st !! this = Some b ∧ Block.id b = id ∧
        Block.workspace b = true) ∧
  Workspace.blockDB_ (ws st) !! id = Some this ∧
  top_blocks st = top.

(** *** Replays *)

Definition is_run (o : Obs) : bool :=
  match o with
  | ObsRun _ _ _ => true
  | _ => false
  end.

(** The calls of [run] in a trace, in order. *)
Definition runs (t : list Obs) : list Obs := List.filter is_run t.

(** What [undo] relies on in the events' [run]: run while [recordUndo]
    is off, as [undo] runs it, it returns or throws, calls no [run]
    itself, leaves [recordUndo] off and leaves the two stacks alone (the
    events it fires are built while the flag is off, so that the
    workspace does not record them). *)
Definition run_frame (env : Env) : Prop :=
  ∀ e forward s,
    Events.recordUndo (ev s) = false →
    match Event_run env e forward s with
    | Ret _ s' | Raise _ s' =>
        Workspace.undoStack_ (ws s') = Workspace.undoStack_ (ws s) ∧
        Workspace.redoStack_ (ws s') = Workspace.redoStack_ (ws s) ∧
        Events.recordUndo (ev s') = false ∧
        ∃ t, trace s' = trace s ++ t ∧ runs t = []
    | OutOfFuel => False
    end.

(** Every [run(forward)] returns while [recordUndo] is off. *)
Definition runs_return (env : Env) (forward : bool) : Prop :=
  ∀ e s, Events.recordUndo (ev s) = false →
    ∃ s', Event_run env e forward s = Ret tt s'.

Definition ev_delete (id group : string) : Event.t :=
  Event.mk Event.Delete id group true.

(** The deletions of blocks ["b"] and ["c"], in group ["g1"], recorded
    after an event of group ["g0"]. *)
Definition deleted_undo_state : State :=
  set_ws (Workspace.set_undoStack_
            [ev_create "a" "g0"; ev_delete "b" "g1"; ev_delete "c" "g1"])
         initial_state.

(** *** Disposed blocks *)

(** Block [r] has been disposed of: its [workspace] is [null]. *)
Definition dead (r : BlockRef) (st : State) : Prop :=
  Block.workspace <$> blocks st !! r = Some false.

(** *** A stack of three statement blocks *)

(** Blocks 0, 1 and 2 (P, Q and R) joined through their previous and
    next connections; [checkP] is the check of P's next connection and
    [checkR] the check of R's previous connection. *)
Definition stack3_state (checkP checkR : option (list string)) : State :=
  set_ws (λ w, Workspace.set_blockDB_ {[ "p" := 0; "q" := 1; "r" := 2 ]}
                 (Workspace.set_topBlocks_ [0] w))
    (set_conns (λ _, [conn 0 PREVIOUS_STATEMENT None;
                      Connection.mk 0 NEXT_STATEMENT checkP (Some 2) false;
                      conn 1 PREVIOUS_STATEMENT (Some 1);
                      conn 1 NEXT_STATEMENT (Some 4);
                      Connection.mk 2 PREVIOUS_STATEMENT checkR (Some 3) false;
                      conn 2 NEXT_STATEMENT None])
       (set_blocks (λ _, [stmt_block "p" (Some 0) (Some 1) None [1];
                          stmt_block "q" (Some 2) (Some 3) (Some 0) [2];
                          stmt_block "r" (Some 4) (Some 5) (Some 1) []])
          initial_state)).

(** *** The steps of a disposal *)

#[global] Instance payload_eq_dec : EqDecision Event.payload.
Proof. solve_decision. Defined.
#[global] Instance Event_eq_dec : EqDecision Event.t.
Proof. solve_decision. Defined.
#[global] Instance Obs_eq_dec : EqDecision Obs.
Proof. solve_decision. Defined.

(** The index of the first occurrence of a step in a trace. *)
Definition position (o : Obs) (t : list Obs) : option nat :=
  fst <$> list_find (λ x, x = o) t.

(** A step that delivers no event. *)
Definition is_quiet (o : Obs) : bool :=
  match o with
  | ObsFire _ | ObsListener _ _ => false
  | _ => true
  end.

Definition quiet (t : list Obs) : Prop := Forall (λ o, is_quiet o = true) t.

(** What disposing of the inputs of a block leaves in the trace. *)
Definition inputs_trace (this : BlockRef) (inputs : list Input.t) : list Obs :=
  flat_map (λ input,
    ObsDisposeInput this (Input.name input)
    :: match Input.connection input with
       | Some c => [ObsDisposeConnection c]
       | None => []
       end) inputs.

(** The output, previous and next connections of a block. *)
Definition own_slots (b : Block.t) : list ConnRef :=
  option_list (Block.outputConnection b)
  ++ option_list (Block.previousConnection b)
  ++ option_list (Block.nextConnection b).

(** The fields of a block that reparenting and joining leave alone. *)
Definition shape (b : Block.t) :=
  (Block.id b, Block.inputList b, Block.outputConnection b,
   Block.previousConnection b, Block.nextConnection b, Block.workspace b,
   Block.onchangeWrapper_ b).

(** The Delete event of a block, as built under the given globals. *)
Definition delete_event (b : Block.t) (g : Events.t) : Event.t :=
  Event.mk Event.Delete (Block.id b) (Events.group_ g) (Events.recordUndo g).

(** The listeners that remain when [dispose] has removed the block's
    change handler. *)
Definition listeners_after_dispose (b : Block.t) (w : Workspace.t)
    : list Listener :=
  match Block.onchangeWrapper_ b with
  | Some f => array_without f (Workspace.listeners_ w)
  | None => Workspace.listeners_ w
  end.

(** A value block plugged into the input ["ARG"] of a statement block
    that is listened to. *)
Definition nested_state : State :=
  set_ws (λ w, Workspace.set_blockDB_ {[ "s" := 0; "v" := 1 ]}
                 (Workspace.set_listeners_ [HostFn 3]
                    (Workspace.set_topBlocks_ [0] w)))
    (set_conns (λ _, [conn 0 PREVIOUS_STATEMENT None;
                      conn 0 NEXT_STATEMENT None;
                      conn 0 INPUT_VALUE (Some 3);
                      conn 1 OUTPUT_VALUE (Some 2)])
       (set_blocks (λ _, [Block.mk "s" (Some "print") None (Some 1) (Some 0)
                            [Input.mk INPUT_VALUE "ARG" (Some 2) []]
                            None [1] false true None;
                          Block.mk "v" (Some "number") (Some 3) None None
                            [Input.mk DUMMY_INPUT "ROW" None []]
                            (Some 0) [] false true None])
          initial_state)).

(** *** Stacks *)

Definition target_of (st : State) (c : ConnRef) : option (option ConnRef) :=
  Connection.targetConnection <$> conns st !! c.

(** Connection [c] belongs to block [owner], is of kind [kind] and is
    joined to [target]. *)
Definition joined (st : State) (c : ConnRef) (owner : BlockRef)
    (kind : ConnectionType) (target : ConnRef) : Prop :=
  ∃ x, conns st !! c = Some x ∧ Connection.owner x = owner ∧
       Connection.kind x = kind ∧ Connection.targetConnection x = Some target.

(** Blocks [P], [Q] and [R] are a stack: a next-statement connection
    [pn] of [P] is joined to the previous connection [qp] of [Q], and the
    next connection [qn] of [Q] to the previous connection [rp] of [R];
    [Q] is a child of [P] and [R] a child of [Q]. *)
Definition statement_stack (st : State) (P Q R : BlockRef)
    (pn qp qn rp : ConnRef) : Prop :=
  P ≠ Q ∧ Q ≠ R ∧ P ≠ R ∧
  is_Some (blocks st !! P) ∧
  (∃ bQ, blocks st !! Q = Some bQ ∧
         Block.outputConnection bQ = None ∧
         Block.previousConnection bQ = Some qp ∧
         Block.nextConnection bQ = Some qn ∧
         Block.parentBlock_ bQ = Some P ∧ Block.workspace bQ = true) ∧
  (∃ bR, blocks st !! R = Some bR ∧
         Block.outputConnection bR = None ∧
         Block.previousConnection bR = Some rp ∧
         Block.parentBlock_ bR = Some Q ∧ Block.workspace bR = true) ∧
  joined st pn P NEXT_STATEMENT qp ∧
  joined st qp Q PREVIOUS_STATEMENT pn ∧
  joined st qn Q NEXT_STATEMENT rp ∧
  joined st rp R PREVIOUS_STATEMENT qn.

(** The result of the type check between two connections of the store. *)
Definition check_of (st : State) (c other : ConnRef) : option bool :=
  x ← conns st !! c; y ← conns st !! other;
  Some (checks_compatible (Connection.checks x) (Connection.checks y)).

(** *** Frames of a disposal *)

(** While block [this] is unplugged: it keeps its shape, and the event
    globals, the trace and the listeners stay as they are. *)
Definition calm (this : BlockRef) (sh : _) (g : Events.t) (t : list Obs)
    (fs : list Listener) (s : State) : Prop :=
  shape <$> blocks s !! this = Some sh ∧ ev s = g ∧ trace s = t ∧
  Workspace.listeners_ (ws s) = fs.

(** While the children of block [this] are disposed of: the block is dead
    and keeps its shape, events are disabled [d] deep, and the trace has
    grown from [t0] by quiet steps only. *)
Definition disposing (this : BlockRef) (sh : _) (d : nat) (t0 : list Obs)
    (s : State) : Prop :=
  dead this s ∧ shape <$> blocks s !! this = Some sh ∧
  Events.disabled_ (ev s) = d ∧
  ∃ t, trace s = t0 ++ t ∧ quiet t.

(** The children of block [this] are among [l], in its order. *)
Definition children_within (this : BlockRef) (l : list BlockRef) (s : State)
    : Prop :=
  ∃ k, children_of s this = Some k ∧ k `sublist_of` l.

(** The loop of [dispose] over the children of [this], by the calls it
    makes from state [s] to state [s']: [visited] are the blocks it
    disposes of, in this order, each of them the block that the children
    of [this] hold at its position, counted down from the last, when the
    loop gets there. *)
Fixpoint children_run (fuel : nat) (this : BlockRef) (visited : list BlockRef)
    (s s' : State) : Prop :=
  match visited with
  | [] => s' = s
  | child :: rest =>
      (∃ l, children_of s this = Some l ∧ l !! length rest = Some child) ∧
      ∃ s1, Block_dispose fuel child false s = Ret tt s1 ∧
            children_run fuel this rest s1 s'
  end.

(** ** The rest of the workspace and block API *)

(** *** Undo history *)

(** The state a run ends in, whether it returns or throws. *)
Definition final {A} (r : Result A) : option State :=
  match r with
  | Ret _ s | Raise _ s => Some s
  | OutOfFuel => None
  end.

(** The history of a workspace in the order the events were recorded:
    the events still to undo, then the undone ones, which the redo stack
    holds latest first. *)
Definition timeline (w : Workspace.t) : list Event.t :=
  Workspace.undoStack_ w ++ reverse (Workspace.redoStack_ w).

(** *** Lists of the workspace *)

(** The store of [family_state] with top blocks [1; 0; 2; 0]. *)
Definition listed_twice_state : State :=
  set_ws (Workspace.set_topBlocks_ [1; 0; 2; 0]) family_state.

(** A workspace with the listeners [f2; f1; f3; f1]. *)
Definition registered_twice_state : State :=
  set_ws (Workspace.set_listeners_ [HostFn 2; HostFn 1; HostFn 3; HostFn 1])
         initial_state.

(** *** Inputs *)

(** Truthiness of an optional string argument ([undefined], [null] or a
    string). *)
Definition truthy_opt (o : option string) : bool :=
  match o with
  | Some s => truthy s
  | None => false
  end.

(** [goog.asserts.assert(condition, message)] *)
Definition goog_asserts_assert (condition : bool) (message : string) : M unit :=
  if condition then ret tt else throw (AssertionError message).

(** [arr.splice(i, 1)]: takes out the element at index [i], if any. *)
Definition array_splice_remove {A} (i : nat) (l : list A) : list A :=
  delete i l.

(** [arr.splice(i, 0, x)]: puts [x] in front of the element at index [i],
    or at the end when [i] is not below the length. *)
Definition array_splice_insert {A} (i : nat) (x : A) (l : list A) : list A :=
  take i l ++ x :: drop i l.

(** [arr[i]] for an integer [i]: [None], for [undefined], outside the
    array. *)
Definition array_get {A} (l : list A) (i : Z) : option A :=
  if bool_decide (0 ≤ i)%Z then l !! Z.to_nat i else None.

(** Where [arr.splice(start, ...)] starts: a negative [start] counts from
    the end of the array, and the position is kept within the array. *)
Definition splice_start {A} (l : list A) (start : Z) : nat :=
  if bool_decide (start < 0)%Z
  then Z.to_nat (Z.max (Z.of_nat (length l) + start) 0)
  else Z.to_nat (Z.min start (Z.of_nat (length l))).

(** The array after [arr.splice(start, deleteCount, items...)], for
    integers. *)
Definition array_splice {A} (start : Z) (deleteCount : nat) (items : list A)
    (l : list A) : list A :=
  let s := splice_start l start in
  take s l ++ items ++ drop (s + deleteCount) l.

(** [Blockly.Block.prototype.appendValueInput] *)
Definition Block_appendValueInput (this : BlockRef) (name : string)
    : M Input.t :=
  Block_appendInput_ this INPUT_VALUE name.

(** [Blockly.Block.prototype.appendStatementInput] *)
Definition Block_appendStatementInput (this : BlockRef) (name : string)
    : M Input.t :=
  Block_appendInput_ this NEXT_STATEMENT name.

(** [Blockly.Block.prototype.appendDummyInput]: the name is
    [opt_name || '']. *)
Definition Block_appendDummyInput (this : BlockRef) (opt_name : option string)
    : M Input.t :=
  Block_appendInput_ this DUMMY_INPUT (default ""%string opt_name).

(** The statements of [moveNumberedInputBefore] after its assertions, on
    the array alone; an entry [None] is [undefined]. *)
Definition moveNumberedInputBefore_array {A} (inputList : list (option A))
    (inputIndex refIndex : Z) : list (option A) :=
  let input := default None (array_get inputList inputIndex) in
  let inputList := array_splice inputIndex 1 [] inputList in
  let refIndex :=
    if bool_decide (inputIndex < refIndex)%Z then (refIndex - 1)%Z
    else refIndex in
  array_splice refIndex 0 [input] inputList.

(** [Blockly.Block.prototype.moveNumberedInputBefore], for integers.  An
    [inputIndex] below zero passes the three assertions: [input] is then
    [undefined], the first [splice] takes out an input counted from the
    end of the list, and the second stores [undefined] among the inputs.
    The store holds inputs only, so the run ends there with
    [Unrepresentable]; [moveNumberedInputBefore_array] gives the array
    that the source is left with.  The messages of the assertions leave
    the numbers out. *)
Definition Block_moveNumberedInputBefore (this : BlockRef)
    (inputIndex refIndex : Z) : M unit :=
  b <- getBlock this;;
  goog_asserts_assert (negb (bool_decide (inputIndex = refIndex)))
    "Can't move input to itself.";;;
  goog_asserts_assert
    (bool_decide (inputIndex < Z.of_nat (length (Block.inputList b)))%Z)
    "Input index out of bounds.";;;
  goog_asserts_assert
    (bool_decide (refIndex ≤ Z.of_nat (length (Block.inputList b)))%Z)
    "Reference input out of bounds.";;;
  let input := array_get (Block.inputList b) inputIndex in
  updBlock this (λ b,
    Block.set_inputList (array_splice inputIndex 1 [] (Block.inputList b)) b);;;
  let refIndex :=
    if bool_decide (inputIndex < refIndex)%Z then (refIndex - 1)%Z
    else refIndex in
  match input with
  | Some input =>
      updBlock this (λ b,
        Block.set_inputList
          (array_splice refIndex 0 [input] (Block.inputList b)) b)
  | None => throw (Unrepresentable "undefined in inputList")
  end.

(** The loop of [moveInputBefore], from index [i] on: [inputIndex] and
    [refIndex] are [None] while they are [-1].  The loop stops when it has
    both; until then a later input of the same name overwrites an earlier
    find. *)
Fixpoint moveInputBefore_loop (inputs : list Input.t) (i : nat)
    (name : string) (refName : option string)
    (inputIndex refIndex : option nat) : option nat * option nat :=
  match inputs with
  | [] => (inputIndex, refIndex)
  | input :: inputs' =>
      if decide (Input.name input = name) then
        if non_null refIndex then (Some i, refIndex)
        else moveInputBefore_loop inputs' (S i) name refName (Some i) refIndex
      else if truthy_opt refName
              && bool_decide (Some (Input.name input) = refName) then
        if non_null inputIndex then (inputIndex, Some i)
        else moveInputBefore_loop inputs' (S i) name refName inputIndex (Some i)
      else moveInputBefore_loop inputs' (S i) name refName inputIndex refIndex
  end.

(** [Blockly.Block.prototype.moveInputBefore]; [refName] is [None] for
    [null]. *)
Definition Block_moveInputBefore (this : BlockRef) (name : string)
    (refName : option string) : M unit :=
  if bool_decide (Some name = refName) then ret tt
  else
    b <- getBlock this;;
    let '(inputIndex, refIndex) :=
      moveInputBefore_loop (Block.inputList b) 0 name refName None
        (if truthy_opt refName then None
         else Some (length (Block.inputList b))) in
    match inputIndex with
    | None => throw (AssertionError "Named input not found.")
    | Some inputIndex =>
        match refIndex with
        | None => throw (AssertionError "Reference input not found.")
        | Some refIndex =>
            Block_moveNumberedInputBefore this (Z.of_nat inputIndex)
              (Z.of_nat refIndex)
        end
    end.

(** The search of [removeInput]: the first input called [name], with its
    index. *)
Fixpoint removeInput_find (inputs : list Input.t) (i : nat) (name : string)
    : option (nat * Input.t) :=
  match inputs with
  | [] => None
  | input :: inputs' =>
      if decide (Input.name input = name) then Some (i, input)
      else removeInput_find inputs' (S i) name
  end.

(** [Blockly.Block.prototype.removeInput].  The block attached to the
    input is disposed of when it is a shadow block and unplugged when it
    is not, both without healing ([dispose()] and [unplug()] are called
    without arguments).  [setShadowDom] only touches the serialised shadow
    of the connection, which the store does not hold. *)
Definition Block_removeInput (fuel : nat) (this : BlockRef) (name : string)
    (opt_quiet : bool) : M unit :=
  b <- getBlock this;;
  match removeInput_find (Block.inputList b) 0 name with
  | Some (i, input) =>
      match Input.connection input with
      | Some c =>
          connected <- Connection_isConnected c;;
          when connected (
            block <- Connection_targetBlock c;;
            match block with
            | Some block =>
                bb <- getBlock block;;
                if Block.isShadow_ bb then Block_dispose fuel block false
                else Block_unplug block false
            | None => throw TypeError
            end)
      | None => ret tt
      end;;;
      Input_dispose this input;;;
      updBlock this (λ b,
        Block.set_inputList (array_splice_remove i (Block.inputList b)) b)
  | None =>
      if opt_quiet then ret tt
      else throw (AssertionError "Input not found.")
  end.

(** The first input of the list called [name] is [input], at index [i]. *)
Definition first_named (inputs : list Input.t) (name : string) (i : nat)
    (input : Input.t) : Prop :=
  inputs !! i = Some input ∧ Input.name input = name ∧
  ∀ j x, j < i → inputs !! j = Some x → Input.name x ≠ name.

(** A block with three dummy inputs. *)
Definition inputs_block : Block.t :=
  Block.mk "b" None None None None
    [Input.mk DUMMY_INPUT "A" None []; Input.mk DUMMY_INPUT "B" None [];
     Input.mk DUMMY_INPUT "C" None []]
    None [] false true None.

Definition inputs_state : State :=
  set_blocks (λ _, [inputs_block]) initial_state.

(** Block [T] is plugged into a value input of block [P]: its output
    connection [oc] is joined to the connection [c] of the input, and [P]
    is its parent.  [T] is not a shadow block. *)
Definition plugged_into (st : State) (P T : BlockRef) (c oc : ConnRef)
    : Prop :=
  P ≠ T ∧ is_Some (blocks st !! P) ∧
  (∃ bT, blocks st !! T = Some bT ∧
         Block.outputConnection bT = Some oc ∧
         Block.previousConnection bT = None ∧
         Block.parentBlock_ bT = Some P ∧
         Block.workspace bT = true ∧ Block.isShadow_ bT = false) ∧
  joined st c P INPUT_VALUE oc ∧
  joined st oc T OUTPUT_VALUE c.

(** A block with a value input ["ARG"] into which a block is plugged. *)
Definition plugged_state : State :=
  set_ws (λ w, Workspace.set_blockDB_ {[ "outer" := 0; "inner" := 1 ]}
                 (Workspace.set_topBlocks_ [0] w))
    (set_conns (λ _, [conn 0 INPUT_VALUE (Some 1);
                      conn 1 OUTPUT_VALUE (Some 0)])
       (set_blocks (λ _, [Block.mk "outer" None None None None
                            [Input.mk DUMMY_INPUT "ROW" None [];
                             Input.mk INPUT_VALUE "ARG" (Some 0) []]
                            None [1] false true None;
                          Block.mk "inner" None (Some 1) None None []
                            (Some 0) [] false true None])
          initial_state)).

(** *** Walking the block graph *)

(** [Blockly.Block.prototype.getParent] *)
Definition Block_getParent (this : BlockRef) : M (option BlockRef) :=
  b <- getBlock this;;
  ret (Block.parentBlock_ b).

(** [Blockly.Block.prototype.getChildren] *)
Definition Block_getChildren (this : BlockRef) : M (list BlockRef) :=
  b <- getBlock this;;
  ret (Block.childBlocks_ b).

(** [Blockly.Block.prototype.getRootBlock]: the [do ... while (block)]
    loop climbs the parents. *)
Fixpoint Block_getRootBlock (fuel : nat) (this : BlockRef) : M BlockRef :=
  match fuel with
  | 0 => λ _, OutOfFuel
  | S fuel' =>
      rootBlock <- getBlock this;;
      match Block.parentBlock_ rootBlock with
      | Some block => Block_getRootBlock fuel' block
      | None => ret this
      end
  end.

(** [Blockly.Block.prototype.getSurroundParent]: the loop climbs as long
    as the block it comes from is the next block of its parent. *)
Fixpoint Block_getSurroundParent (fuel : nat) (this : BlockRef)
    : M (option BlockRef) :=
  match fuel with
  | 0 => λ _, OutOfFuel
  | S fuel' =>
      block <- Block_getParent this;;
      match block with
      | None => ret None
      | Some block =>
          next <- Block_getNextBlock block;;
          if decide (next = Some this) then Block_getSurroundParent fuel' block
          else ret (Some block)
      end
  end.

(** [Blockly.Block.prototype.lastConnectionInStack_]: the loop follows
    the next connections down the stack. *)
Fixpoint Block_lastConnectionInStack_ (fuel : nat) (this : BlockRef)
    : M (option ConnRef) :=
  match fuel with
  | 0 => λ _, OutOfFuel
  | S fuel' =>
      b <- getBlock this;;
      match Block.nextConnection b with
      | Some nextConnection =>
          nextBlock <- Connection_targetBlock nextConnection;;
          match nextBlock with
          | None => ret (Some nextConnection)
          | Some nextBlock => Block_lastConnectionInStack_ fuel' nextBlock
          end
      | None => ret None
      end
  end.

(** The loop of [getInputWithBlock]. *)
Fixpoint getInputWithBlock_loop (inputs : list Input.t) (block : BlockRef)
    : M (option Input.t) :=
  match inputs with
  | [] => ret None
  | input :: inputs' =>
      match Input.connection input with
      | Some c =>
          target <- Connection_targetBlock c;;
          if decide (target = Some block) then ret (Some input)
          else getInputWithBlock_loop inputs' block
      | None => getInputWithBlock_loop inputs' block
      end
  end.

(** [Blockly.Block.prototype.getInputWithBlock] *)
Definition Block_getInputWithBlock (this block : BlockRef)
    : M (option Input.t) :=
  b <- getBlock this;;
  getInputWithBlock_loop (Block.inputList b) block.

(** Block [this] is [n] parents below the parentless block [r]. *)
Inductive climbs (st : State) : BlockRef → BlockRef → nat → Prop :=
  | climbs_top r :
      parent_of st r = Some None → climbs st r r 0
  | climbs_step this p r n :
      parent_of st this = Some (Some p) → climbs st p r n →
      climbs st this r (S n).

(** A stack of statement blocks from [this] down: the blocks with the
    next connection of each, every one but the last joined to the
    previous connection of the block that follows. *)
Fixpoint stack_below (st : State) (this : BlockRef)
    (below : list (ConnRef * BlockRef)) (last : ConnRef) : Prop :=
  match below with
  | [] =>
      (Block.nextConnection <$> blocks st !! this) = Some (Some last) ∧
      target_of st last = Some None
  | (nc, nb) :: below' =>
      (Block.nextConnection <$> blocks st !! this) = Some (Some nc) ∧
      (∃ pc x, target_of st nc = Some (Some pc) ∧ conns st !! pc = Some x ∧
               Connection.owner x = nb) ∧
      stack_below st nb below' last
  end.

(** Block [this] is [n] blocks below block [head] in a stack: each block
    on the way is the next block of its parent. *)
Inductive stacked (st : State) : BlockRef → BlockRef → nat → Prop :=
  | stacked_head head : stacked st head head 0
  | stacked_next this p head n :
      parent_of st this = Some (Some p) →
      Block_getNextBlock p st = Ret (Some this) st →
      stacked st p head n →
      stacked st this head (S n).

(** *** What a disposal leaves alone *)

(** The event globals are [g], but for events being disabled [d] deep. *)
Definition events_at (g : Events.t) (d : nat) (s : State) : Prop :=
  ev s = Events.set_disabled_ d g.

(** The registry holds no more than [m], and the registered listeners
    are among [l], in its order. *)
Definition registry_within (m : gmap string BlockRef) (l : list Listener)
    (s : State) : Prop :=
  Workspace.blockDB_ (ws s) ⊆ m ∧ Workspace.listeners_ (ws s) `sublist_of` l.

(** Block [this] has the shape [sh], the registry holds no more than [m]
    and the listeners are among [l]. *)
Definition keeps (this : BlockRef) (sh : _) (m : gmap string BlockRef)
    (l : list Listener) (s : State) : Prop :=
  shape <$> blocks s !! this = Some sh ∧ registry_within m l s.

(** The listeners without the change handler of a block. *)
Definition without_handler (b : Block.t) (l : list Listener) : list Listener :=
  match Block.onchangeWrapper_ b with
  | Some f => array_without f l
  | None => l
  end.

(** *** Clearing a workspace *)

(** The loop of [clear]: [this.topBlocks_[0].dispose()] while there are
    top blocks. *)
Fixpoint clear_loop (fuel : nat) : M unit :=
  match fuel with
  | 0 => λ _, OutOfFuel
  | S fuel' =>
      top <- gets (λ s, Workspace.topBlocks_ (ws s));;
      match top with
      | [] => ret tt
      | block :: _ => Block_dispose fuel' block false;;; clear_loop fuel'
      end
  end.

(** [Blockly.Workspace.prototype.clear], but for the variable maps,
    which the store does not hold. *)
Definition Workspace_clear (env : Env) (fuel : nat) : M unit :=
  existingGroup <- Events_getGroup;;
  when (negb (truthy existingGroup)) (Events_setGroup env true);;;
  clear_loop fuel;;;
  when (negb (truthy existingGroup)) (Events_setGroup env false).

(** *** All blocks of a workspace *)

(** [Blockly.Workspace.prototype.getTopBlocks(false)]: a copy of the list
    of top blocks.  (With [ordered] set the copy is sorted by the
    positions of the blocks, which the store does not hold.) *)
Definition Workspace_getTopBlocks_unordered : M (list BlockRef) :=
  gets (λ s, Workspace.topBlocks_ (ws s)).

(** The loop of [getAllBlocks]: [blocks] grows by the children of
    [blocks[i]] while [i] runs up to its length. *)
Fixpoint getAllBlocks_loop (fuel : nat) (i : nat) (blocks : list BlockRef)
    : M (list BlockRef) :=
  match fuel with
  | 0 => λ _, OutOfFuel
  | S fuel' =>
      match blocks !! i with
      | Some block =>
          children <- Block_getChildren block;;
          getAllBlocks_loop fuel' (S i) (blocks ++ children)
      | None => ret blocks
      end
  end.

(** [Blockly.Workspace.prototype.getAllBlocks] *)
Definition Workspace_getAllBlocks (fuel : nat) : M (list BlockRef) :=
  blocks <- Workspace_getTopBlocks_unordered;;
  getAllBlocks_loop fuel 0 blocks.

(** The blocks of a forest, tree by tree in pre-order. *)
Definition forest_blocks (forest : list tree) : list BlockRef :=
  concat (map preorder forest).

(** The store of [family_state] with block 0 as the only top block. *)
Definition family_workspace : State :=
  set_ws (Workspace.set_topBlocks_ [0]) family_state.

(** *** Events as JSON *)

(** A JavaScript value as far as the JSON of an event goes. *)
Inductive JsValue :=
  | JsUndefined
  | JsString (s : string).

(** Truthiness of such a value. *)
Definition JsValue_truthy (v : JsValue) : bool :=
  match v with
  | JsUndefined => false
  | JsString s => truthy s
  end.

(** [Blockly.Events.Abstract.prototype.toJson], for an event whose [type]
    and [group] fields hold the given values. *)
Definition Abstract_toJson (type group : JsValue) : gmap string JsValue :=
  let json := {[ "type"%string := type ]} in
  if JsValue_truthy group then <[ "group"%string := group ]> json else json.

(** [Blockly.Events.Abstract.prototype.fromJson]: the value it assigns to
    [this.group], the property ['group'] of the JSON object. *)
Definition Abstract_fromJson (json : gmap string JsValue) : JsValue :=
  default JsUndefined (json !! "group"%string).

(** *** Filled inputs *)

(** The loop of [Block.allInputsFilled] over the inputs; [filled] is the
    recursive call on the block attached to an input. *)
Fixpoint allInputsFilled_inputs (filled : BlockRef → M bool)
    (inputs : list Input.t) : M bool :=
  match inputs with
  | [] => ret true
  | input :: inputs' =>
      match Input.connection input with
      | None => allInputsFilled_inputs filled inputs'
      | Some c =>
          target <- Connection_targetBlock c;;
          match target with
          | None => ret false
          | Some target =>
              f <- filled target;;
              if f then allInputsFilled_inputs filled inputs' else ret false
          end
      end
  end.

(** [Blockly.Block.prototype.allInputsFilled], once the argument has been
    given its default. *)
Fixpoint allInputsFilled_from (fuel : nat) (this : BlockRef)
    (shadowBlocksAreFilled : bool) : M bool :=
  match fuel with
  | 0 => λ _, OutOfFuel
  | S fuel' =>
      b <- getBlock this;;
      if negb shadowBlocksAreFilled && Block.isShadow_ b then ret false
      else
        f <- allInputsFilled_inputs
               (λ target, allInputsFilled_from fuel' target shadowBlocksAreFilled)
               (Block.inputList b);;
        if f then
          next <- Block_getNextBlock this;;
          match next with
          | Some next => allInputsFilled_from fuel' next shadowBlocksAreFilled
          | None => ret true
          end
        else ret false
  end.

(** [Blockly.Block.prototype.allInputsFilled]: an argument that is
    [undefined] stands for [true]. *)
Definition Block_allInputsFilled (fuel : nat) (this : BlockRef)
    (opt_shadowBlocksAreFilled : option bool) : M bool :=
  allInputsFilled_from fuel this (default true opt_shadowBlocksAreFilled).

(** The loop of [Workspace.allInputsFilled] over the top blocks. *)
Fixpoint allInputsFilled_blocks (fuel : nat) (blocks : list BlockRef)
    (opt_shadowBlocksAreFilled : option bool) : M bool :=
  match blocks with
  | [] => ret true
  | block :: blocks' =>
      f <- Block_allInputsFilled fuel block opt_shadowBlocksAreFilled;;
      if f then allInputsFilled_blocks fuel blocks' opt_shadowBlocksAreFilled
      else ret false
  end.

(** [Blockly.Workspace.prototype.allInputsFilled] *)
Definition Workspace_allInputsFilled (fuel : nat)
    (opt_shadowBlocksAreFilled : option bool) : M bool :=
  blocks <- Workspace_getTopBlocks_unordered;;
  allInputsFilled_blocks fuel blocks opt_shadowBlocksAreFilled.

(** *** Listeners as host code *)

Section HostListeners.
(** [func(event)] for a registered listener [func]: code of the host,
    which may change the workspace, the list of listeners included, and
    may throw. *)
Context (call : Listener → Event.t → M unit).

(** The listener loop of [fireChangeListener], from index [i] on:
    [this.listeners_[i]] is read from the array as it is at each turn,
    and the loop ends at the first index that holds nothing. *)
Fixpoint call_listeners_from (fuel i : nat) (e : Event.t) : M unit :=
  match fuel with
  | 0 => λ _, OutOfFuel
  | S fuel' =>
      fs <- gets (λ s, Workspace.listeners_ (ws s));;
      match fs !! i with
      | Some func =>
          log (ObsListener func e);;;
          call func e;;;
          call_listeners_from fuel' (S i) e
      | None => ret tt
      end
  end.

(** [Blockly.Workspace.prototype.fireChangeListener], with the listeners
    as host code. *)
Definition Workspace_fireChangeListener_host (fuel : nat) (e : Event.t)
    : M unit :=
  when (Event.recordUndo e) (
    updWs (λ w, Workspace.set_undoStack_ (Workspace.undoStack_ w ++ [e]) w);;;
    updWs (Workspace.set_redoStack_ []);;;
    w <- gets ws;;
    when (bool_decide
            (Workspace.MAX_UNDO w < length (Workspace.undoStack_ w)))
      (updWs (λ w, Workspace.set_undoStack_
                     (array_unshift [] (Workspace.undoStack_ w)) w)));;;
  call_listeners_from fuel 0 e.

(** The calls [func(event)] for the listeners of a list, one after the
    other. *)
Fixpoint call_each (fs : list Listener) (e : Event.t) : M unit :=
  match fs with
  | [] => ret tt
  | func :: fs' => log (ObsListener func e);;; call func e;;; call_each fs' e
  end.

End HostListeners.

(** The state in which the listeners are called: the event is on the
    undo stack by then when its [recordUndo] is set. *)
Definition recorded (e : Event.t) (st : State) : State :=
  if Event.recordUndo e
  then set_ws (λ w, Workspace.set_redoStack_ []
                      (Workspace.set_undoStack_ (Workspace.undoStack_ w ++ [e]) w))
              st
  else st.

(** A listener that unregisters itself, one that throws, and listeners
    that only look at the event. *)
Definition example_call (func : Listener) (e : Event.t) : M unit :=
  match func with
  | HostFn 0 => Workspace_removeChangeListener (HostFn 0)
  | HostFn 1 => throw (Thrown "listener failed")
  | _ => ret tt
  end.

Definition listening_state (fs : list Listener) : State :=
  set_ws (Workspace.set_listeners_ fs) initial_state.

(** *** The constructor and the event it fires *)

(** [new Blockly.Block(workspace, prototypeName, opt_id)] with
    [Blockly.Events.fire], which is not in the sources, as [fire]. *)
Definition Block_new_firing (env : Env) (fire : Event.t → M unit)
    (prototypeName : option string) (opt_id : option string) : M BlockRef :=
  w <- gets ws;;
  id <- match opt_id with
        | Some i =>
            if truthy i && negb (non_null (Workspace_getBlockById w i))
            then ret i else utils_genUid env
        | None => utils_genUid env
        end;;
  this <- gets (λ s, length (blocks s));;
  modify (set_blocks (λ l, l ++ [new_block id None]));;;
  updWs (λ w, Workspace.set_blockDB_ (<[id := this]> (Workspace.blockDB_ w)) w);;;
  def <- Block_mixin env this prototypeName;;
  Workspace_addTopBlock this;;;
  match def with
  | Some (mkBlockDef (Some f) _) => f this
  | _ => ret tt
  end;;;
  enabled <- Events_isEnabled;;
  when enabled (
    existingGroup <- Events_getGroup;;
    when (negb (truthy existingGroup)) (Events_setGroup env true);;;
    try_finally
      (b <- getBlock this;;
       e <- Events_BlockCreate_new b;;
       fire e)
      (when (negb (truthy existingGroup)) (Events_setGroup env false)));;;
  match def with
  | Some (mkBlockDef _ (Some f)) => Block_setOnChange this f
  | _ => ret tt
  end;;;
  ret this.

(** The state that the constructor's [finally] leaves: the group that
    the constructor opened is closed. *)
Definition group_closed (st s1 : State) : State :=
  if truthy (Events.group_ (ev st)) then s1
  else set_ev (Events.set_group_ "") s1.

(** Modelled from the spec: [Blockly.Events.fire] as in [Events_fire],
    with the listeners as host code. *)
Definition Events_fire_host (call : Listener → Event.t → M unit) (fuel : nat)
    (e : Event.t) : M unit :=
  enabled <- Events_isEnabled;;
  when enabled (log (ObsFire e);;; Workspace_fireChangeListener_host call fuel e).

(** [Blockly.Workspace.prototype.newBlock], with [Blockly.Events.fire] as
    [fire]. *)
Definition Workspace_newBlock_firing (env : Env) (fire : Event.t → M unit)
    (prototypeName : option string) (opt_id : option string) : M BlockRef :=
  Block_new_firing env fire prototypeName opt_id.

(** [m] leaves the event globals as they are, however it ends. *)
Definition keeps_events {A} (m : M A) : Prop :=
  ∀ s, match m s with
       | Ret _ s' | Raise _ s' => ev s' = ev s
       | OutOfFuel => True
       end.

Definition thrower_state : State := listening_state [HostFn 1].

(** * Properties *)

(** ** Arrays *)

Lemma array_pop_app {A} (l : list A) (x : A) :
  array_pop (l ++ [x]) = Some (x, l).
Proof.
  induction l as [|y l IH]; [done|].
  cbn [app array_pop]. rewrite IH.
  destruct l; reflexivity.
Qed.

Lemma array_pop_nil_inv {A} (l : list A) : array_pop l = None → l = [].
Proof.
  destruct l as [|x l] using rev_ind; [done|].
  by rewrite array_pop_app.
Qed.

Lemma array_pop_Some_inv {A} (l r : list A) (x : A) :
  array_pop l = Some (x, r) → l = r ++ [x].
Proof.
  destruct l as [|y l _] using rev_ind; [done|].
  rewrite array_pop_app. by intros [= -> ->].
Qed.

Lemma goog_array_remove_None {A} `{EqDecision A} (x : A) (l : list A) :
  goog_array_remove x l = None ↔ x ∉ l.
Proof.
  induction l as [|y l IH]; cbn.
  - split; [intros _; apply not_elem_of_nil | done].
  - destruct (decide (y = x)) as [->|Hne].
    + split; [done|]. intros H. exfalso. apply H. left.
    + destruct (goog_array_remove x l) eqn:E.
      * split; [done|]. intros H. exfalso.
        assert (x ∉ l) as Hl by (intros ?; apply H; by right).
        apply IH in Hl. done.
      * split; [|done]. intros _ Hin.
        apply elem_of_cons in Hin as [->|Hin]; [done|].
        by apply IH in Hin.
Qed.

Lemma goog_array_remove_middle {A} `{EqDecision A} (x : A) (l1 l2 : list A) :
  x ∉ l1 → goog_array_remove x (l1 ++ x :: l2) = Some (l1 ++ l2).
Proof.
  induction l1 as [|y l1 IH]; intros Hx; cbn.
  - by rewrite decide_True.
  - rewrite decide_False by (intros ->; apply Hx; left).
    rewrite IH; [done|]. intros ?. apply Hx. by right.
Qed.

Lemma goog_array_remove_sublist {A} `{EqDecision A} (x : A) (l r : list A) :
  goog_array_remove x l = Some r → r `sublist_of` l.
Proof.
  revert r. induction l as [|y l IH]; intros r; [done|]. cbn.
  destruct (decide (y = x)).
  - intros [= <-]. by apply sublist_cons.
  - destruct (goog_array_remove x l) as [r'|]; [|done].
    intros [= <-]. apply sublist_skip. by apply IH.
Qed.

Lemma array_without_sublist {A} `{EqDecision A} (x : A) (l : list A) :
  array_without x l `sublist_of` l.
Proof.
  unfold array_without. destruct (goog_array_remove x l) eqn:E; [|done].
  by eapply goog_array_remove_sublist.
Qed.

(** ** Lookups (C9) *)

Lemma getField_row_None (row : list Field.t) (name : string) :
  (∀ field, field ∈ row → Field.name field ≠ Some name) →
  getField_row row name = None.
Proof.
  induction row as [|f row IH]; intros H; cbn; [done|].
  rewrite decide_False by (apply H; left).
  apply IH. intros g Hg. apply H. by right.
Qed.

Lemma getField_inputs_None (inputs : list Input.t) (name : string) :
  (∀ input field, input ∈ inputs → field ∈ Input.fieldRow input →
     Field.name field ≠ Some name) →
  getField_inputs inputs name = None.
Proof.
  induction inputs as [|i inputs IH]; intros H; cbn; [done|].
  rewrite getField_row_None by (intros f Hf; apply (H i f); [left|done]).
  apply IH. intros j f Hj Hf. apply (H j f); [by right|done].
Qed.

Lemma getInput_loop_None (inputs : list Input.t) (name : string) :
  (∀ input, input ∈ inputs → Input.name input ≠ name) →
  getInput_loop inputs name = None.
Proof.
  induction inputs as [|i inputs IH]; intros H; cbn; [done|].
  rewrite decide_False by (apply H; left).
  apply IH. intros j Hj. apply H. by right.
Qed.

(** C9.  A lookup with an unknown key returns the null sentinel and does
    not throw: [getBlockById] for an id that is not in the registry,
    [getField] and [getFieldValue] for a name that no field of the block
    has, [getInput] and [getInputTargetBlock] for a name that no input of
    the block has. *)
Theorem lookup_miss_returns_null :
  (∀ (w : Workspace.t) (id : string),
     Workspace.blockDB_ w !! id = None →
     Workspace_getBlockById w id = None) ∧
  (∀ (b : Block.t) (name : string),
     (∀ input field, input ∈ Block.inputList b →
        field ∈ Input.fieldRow input → Field.name field ≠ Some name) →
     Block_getField b name = None ∧ Block_getFieldValue b name = None) ∧
  (∀ (st : State) (this : BlockRef) (b : Block.t) (name : string),
     blocks st !! this = Some b →
     (∀ input, input ∈ Block.inputList b → Input.name input ≠ name) →
     Block_getInput b name = None ∧
     Block_getInputTargetBlock this name st = Ret None st).
Proof.
  split; [|split].
  - intros w id H. exact H.
  - intros b name H. unfold Block_getFieldValue, Block_getField.
    by rewrite getField_inputs_None.
  - intros st this b name Hb H.
    assert (Block_getInput b name = None) as Hi
      by (by apply getInput_loop_None).
    split; [done|].
    unfold Block_getInputTargetBlock, bind, getBlock. by rewrite Hb, Hi.
Qed.

Lemma lookup_miss_witness :
  Workspace_getBlockById (ws number_state) "n2" = None ∧
  (Block_getField number_block "TEXT" = None ∧
   Block_getFieldValue number_block "TEXT" = None) ∧
  (Block_getInput number_block "VALUE" = None ∧
   Block_getInputTargetBlock 0 "VALUE" number_state = Ret None number_state).
Proof.
  destruct lookup_miss_returns_null as (H1 & H2 & H3).
  split; [|split].
  - apply H1. reflexivity.
  - apply H2. intros input field Hi Hf.
    apply list_elem_of_singleton in Hi as ->. cbn in Hf.
    apply list_elem_of_singleton in Hf as ->. discriminate.
  - apply (H3 number_state 0 number_block "VALUE"); [reflexivity|].
    intros input Hi. apply list_elem_of_singleton in Hi as ->. discriminate.
Defined.

(** ** The undo stack bound (C4) *)

Lemma call_listeners_ws (fs : list Listener) (e : Event.t) (s : State) :
  ∃ s', call_listeners fs e s = Ret tt s' ∧ ws s' = ws s ∧ ev s' = ev s ∧
        blocks s' = blocks s ∧ conns s' = conns s ∧ uids s' = uids s ∧
        trace s' = trace s ++ map (λ f, ObsListener f e) fs.
Proof.
  revert s. induction fs as [|f fs IH]; intros s; cbn.
  - exists s. by rewrite app_nil_r.
  - unfold bind, log, modify. cbn.
    destruct (IH (set_trace (λ t, t ++ [ObsListener f e]) s))
      as (s' & -> & ? & ? & ? & ? & ? & Ht).
    exists s'. repeat split; try done.
    rewrite Ht. cbn. by rewrite <- app_assoc.
Qed.

(** Recording an event always lengthens the undo stack by one:
    [unshift()] without arguments removes nothing. *)
Lemma fireChangeListener_recordUndo (e : Event.t) (s : State) :
  Event.recordUndo e = true →
  ∃ s', Workspace_fireChangeListener e s = Ret tt s' ∧
        Workspace.undoStack_ (ws s') = Workspace.undoStack_ (ws s) ++ [e] ∧
        Workspace.redoStack_ (ws s') = [] ∧
        Workspace.MAX_UNDO (ws s') = Workspace.MAX_UNDO (ws s).
Proof.
  intros Hrec. unfold Workspace_fireChangeListener, bind, when.
  rewrite Hrec. unfold updWs, modify, gets. cbn.
  match goal with |- context [bool_decide ?P] => destruct (bool_decide P) end;
    cbn;
    match goal with |- context [call_listeners ?fs e ?s0] =>
      destruct (call_listeners_ws fs e s0) as (s' & -> & Hw & _)
    end; exists s'; rewrite Hw; done.
Qed.

(** C4, at the failing input.  With [MAX_UNDO] events on the undo stack,
    recording one more leaves [MAX_UNDO + 1] events there, the oldest one
    still first: the bound is exceeded and nothing is discarded. *)
Theorem undoStack_exceeds_MAX_UNDO :
  ∃ s', Workspace_fireChangeListener (ev_create "new" "") full_undo_state
        = Ret tt s' ∧
        Workspace.MAX_UNDO (ws s') = 1024 ∧
        length (Workspace.undoStack_ (ws s')) = 1025 ∧
        head (Workspace.undoStack_ (ws s')) = Some (ev_create "oldest" "").
Proof.
  destruct (fireChangeListener_recordUndo (ev_create "new" "") full_undo_state)
    as (s' & Hrun & Hu & _ & Hm); [reflexivity|].
  exists s'. rewrite Hu, Hm. split; [exact Hrun|].
  repeat split.
Qed.

(** ** Descendants (C8) *)

Lemma tree_rect' (P : tree → Prop) :
  (∀ r kids, Forall P kids → P (Node r kids)) → ∀ t, P t.
Proof.
  intros H. fix IH 1. intros [r kids]. apply H.
  induction kids as [|k kids IHk]; constructor; [apply IH | apply IHk].
Qed.

Lemma unfolds_to_kids (st : State) (kids : list tree) :
  foldr (λ k P, unfolds_to st k ∧ P) True kids ↔ Forall (unfolds_to st) kids.
Proof.
  induction kids as [|k kids IH]; cbn; [by split; [constructor|]|].
  rewrite IH. split.
  - intros [??]. by constructor.
  - intros H. by apply Forall_cons in H.
Qed.

Lemma height_kid (k : tree) (kids : list tree) :
  k ∈ kids → height k ≤ foldr Nat.max 0 (map height kids).
Proof.
  induction kids as [|k' kids IH]; intros Hin; [by apply not_elem_of_nil in Hin|].
  apply elem_of_cons in Hin as [->|Hin]; cbn; [lia|].
  specialize (IH Hin). lia.
Qed.

(** On a tree, [getDescendants] with enough fuel is the pre-order. *)
Lemma getDescendants_preorder (st : State) (t : tree) :
  unfolds_to st t →
  ∀ fuel, height t ≤ fuel →
    Block_getDescendants fuel (root t) st = Ret (preorder t) st.
Proof.
  induction t as [r kids IH] using tree_rect'.
  intros (b & Hb & Hkids & Hall) fuel Hfuel.
  apply unfolds_to_kids in Hall.
  destruct fuel as [|fuel]; [cbn in Hfuel; lia|].
  cbn [Block_getDescendants root preorder]. unfold bind at 1, getBlock.
  rewrite Hb, Hkids.
  cbn [height] in Hfuel.
  assert (∀ k, k ∈ kids → height k ≤ fuel) as Hh.
  { intros k Hk. apply height_kid in Hk. lia. }
  clear Hfuel Hkids Hb.
  change (r :: concat (map preorder kids))
    with ([r] ++ concat (map preorder kids)).
  generalize [r] as acc.
  induction kids as [|k kids IHk]; intros acc; cbn.
  - unfold ret. by rewrite app_nil_r.
  - apply Forall_cons in IH as [IHhd IHtl].
    apply Forall_cons in Hall as [Hk Hall].
    unfold bind at 1. rewrite (IHhd Hk fuel) by (apply Hh; left).
    rewrite IHk, app_assoc; [done|done|done|].
    intros k' Hk'. apply Hh. by right.
Qed.

Lemma getDescendants_cycle (fuel : nat) :
  Block_getDescendants fuel 0 cyclic_state = OutOfFuel ∧
  Block_getDescendants fuel 1 cyclic_state = OutOfFuel.
Proof.
  induction fuel as [|fuel [IH0 IH1]]; [done|].
  split; cbn [Block_getDescendants]; unfold bind, getBlock; cbn.
  - fold (Block_getDescendants fuel 1 cyclic_state). by rewrite IH1.
  - fold (Block_getDescendants fuel 0 cyclic_state). by rewrite IH0.
Qed.

(** C8 as stated fails on malformed stores: a shared child is listed
    once per parent, and on a cycle no amount of fuel gives a result. *)
Lemma getDescendants_malformed :
  (∃ l, Block_getDescendants 4 0 shared_child_state = Ret l shared_child_state
        ∧ ¬ NoDup l) ∧
  (∀ fuel, Block_getDescendants fuel 0 cyclic_state = OutOfFuel).
Proof.
  split.
  - exists [0; 1; 3; 2; 3]. split; [reflexivity|].
    intros H. apply NoDup_cons in H as [_ H]. apply NoDup_cons in H as [_ H].
    apply NoDup_cons in H as [H _]. apply H. right. left.
  - intros fuel. apply getDescendants_cycle.
Qed.

(** C8, amended.  When the children relation below a block is a tree,
    [getDescendants] terminates (any fuel from the height of the tree on
    gives the same result), leaves the store as it is and returns the
    depth-first pre-order of that tree, the block itself first; it lists
    no block twice when no block occurs twice in the tree. *)
Theorem getDescendants_tree (st : State) (t : tree) :
  unfolds_to st t →
  ∃ l, (∀ fuel, height t ≤ fuel →
          Block_getDescendants fuel (root t) st = Ret l st) ∧
       l = preorder t ∧ head l = Some (root t) ∧
       (NoDup (preorder t) → NoDup l).
Proof.
  intros H. exists (preorder t). split; [|split; [done|split]].
  - intros fuel Hf. by apply getDescendants_preorder.
  - by destruct t.
  - done.
Qed.

Lemma getDescendants_tree_witness :
  ∃ l, (∀ fuel, height family_tree ≤ fuel →
          Block_getDescendants fuel 0 family_state = Ret l family_state) ∧
       l = [0; 1; 3; 2] ∧ head l = Some 0 ∧
       (NoDup (preorder family_tree) → NoDup l).
Proof.
  apply (getDescendants_tree family_state family_tree).
  cbn. repeat (eexists || split).
Defined.

(** ** Reasoning about methods *)

Lemma hoare_bind {A B} (P : State → Prop) (Q' : A → State → Prop)
    (m : M A) (k : A → M B) (Q : B → State → Prop) (E : State → Prop) :
  hoare P m Q' E → (∀ a, hoare (Q' a) (k a) Q E) → hoare P (bind m k) Q E.
Proof.
  intros Hm Hk s Hs. unfold bind. specialize (Hm s Hs).
  destruct (m s) as [a s'| |]; [|done..]. by apply Hk.
Qed.

Lemma preserves_bind {A B} (P : State → Prop) (m : M A) (k : A → M B) :
  preserves P m → (∀ a, preserves P (k a)) → preserves P (bind m k).
Proof. intros Hm Hk. by apply hoare_bind with (Q' := λ _, P). Qed.

Lemma preserves_ret {A} (P : State → Prop) (a : A) : preserves P (ret a).
Proof. by intros s Hs. Qed.

Lemma preserves_throw {A} (P : State → Prop) (e : Exn) :
  preserves P (throw (A:=A) e).
Proof. by intros s Hs. Qed.

Lemma preserves_gets {A} (P : State → Prop) (f : State → A) :
  preserves P (gets f).
Proof. by intros s Hs. Qed.

Lemma preserves_modify (P : State → Prop) (f : State → State) :
  (∀ s, P s → P (f s)) → preserves P (modify f).
Proof. intros H s Hs. by apply H. Qed.

Lemma preserves_getBlock (P : State → Prop) (r : BlockRef) :
  preserves P (getBlock r).
Proof. intros s Hs. unfold getBlock. by destruct (blocks s !! r). Qed.

Lemma preserves_getConn (P : State → Prop) (c : ConnRef) :
  preserves P (getConn c).
Proof. intros s Hs. unfold getConn. by destruct (conns s !! c). Qed.

Lemma preserves_when (P : State → Prop) (c : bool) (m : M unit) :
  preserves P m → preserves P (when c m).
Proof. intros H. destruct c; [done|apply preserves_ret]. Qed.

Lemma preserves_try_finally {A} (P : State → Prop) (m : M A) (fin : M unit) :
  preserves P m → preserves P fin → preserves P (try_finally m fin).
Proof.
  intros Hm Hf s Hs. unfold try_finally. specialize (Hm s Hs).
  destruct (m s) as [a s'|e s'|]; [| |done];
    specialize (Hf s' Hm); by destruct (fin s').
Qed.

(** *** Stepping through a method *)

Lemma bind_assoc {A B C} (m : M A) (k1 : A → M B) (k2 : B → M C) (s : State) :
  bind (bind m k1) k2 s = bind m (λ a, bind (k1 a) k2) s.
Proof. unfold bind. by destruct (m s). Qed.

Lemma bind_ret {A B} (a : A) (k : A → M B) (s : State) :
  bind (ret a) k s = k a s.
Proof. done. Qed.

Lemma bind_throw {A B} (e : Exn) (k : A → M B) (s : State) :
  bind (throw e) k s = Raise e s.
Proof. done. Qed.

Lemma bind_gets {A B} (f : State → A) (k : A → M B) (s : State) :
  bind (gets f) k s = k (f s) s.
Proof. done. Qed.

Lemma bind_modify {B} (f : State → State) (k : unit → M B) (s : State) :
  bind (modify f) k s = k tt (f s).
Proof. done. Qed.

Lemma bind_Ret {A B} (m : M A) (k : A → M B) (s s' : State) (a : A) :
  m s = Ret a s' → bind m k s = k a s'.
Proof. intros H. unfold bind. by rewrite H. Qed.

Lemma bind_Raise {A B} (m : M A) (k : A → M B) (s s' : State) (e : Exn) :
  m s = Raise e s' → bind m k s = Raise e s'.
Proof. intros H. unfold bind. by rewrite H. Qed.

Lemma bind_Ret_inv {A B} (m : M A) (k : A → M B) (s s' : State) (b : B) :
  bind m k s = Ret b s' → ∃ a s1, m s = Ret a s1 ∧ k a s1 = Ret b s'.
Proof. unfold bind. destruct (m s) as [a s1| |]; [eauto|done..]. Qed.

Lemma bind_getBlock {B} (r : BlockRef) (b : Block.t) (k : Block.t → M B)
    (s : State) :
  blocks s !! r = Some b → bind (getBlock r) k s = k b s.
Proof. intros H. unfold bind, getBlock. by rewrite H. Qed.

Lemma bind_getConn {B} (c : ConnRef) (x : Connection.t)
    (k : Connection.t → M B) (s : State) :
  conns s !! c = Some x → bind (getConn c) k s = k x s.
Proof. intros H. unfold bind, getConn. by rewrite H. Qed.

Lemma run_getBlock (r : BlockRef) (b : Block.t) (s : State) :
  blocks s !! r = Some b → getBlock r s = Ret b s.
Proof. intros H. unfold getBlock. by rewrite H. Qed.

Lemma run_getConn (c : ConnRef) (x : Connection.t) (s : State) :
  conns s !! c = Some x → getConn c s = Ret x s.
Proof. intros H. unfold getConn. by rewrite H. Qed.

(** Projections of an updated state, and lookups in an altered store. *)
Ltac proj :=
  cbn [blocks conns ws ev uids trace set_blocks set_conns set_ws set_ev
       set_uids set_trace].
Ltac look :=
  proj;
  repeat first [ rewrite list_lookup_alter_eq
               | rewrite list_lookup_alter_ne by congruence
               | rewrite list_lookup_middle by reflexivity ].
Ltac find_lookup :=
  look;
  repeat match goal with
         | H : _ !! _ = Some _ |- _ => rewrite H
         end;
  reflexivity.

(** One step of a method applied to a state. *)
Ltac mstep :=
  first
    [ rewrite bind_assoc
    | rewrite bind_ret
    | rewrite bind_throw
    | rewrite bind_gets
    | rewrite bind_modify
    | erewrite bind_getBlock by find_lookup
    | erewrite bind_getConn by find_lookup
    | erewrite run_getBlock by find_lookup
    | erewrite run_getConn by find_lookup
    | progress unfold updBlock, updConn, updWs, updEv, log, when ];
  proj.

(** A field that a setter leaves alone reads the same after [alter]. *)
Lemma lookup_alter_frame {A B} (g : A → B) (f : A → A) (i j : nat)
    (l : list A) :
  (∀ x, g (f x) = g x) → g <$> alter f i l !! j = g <$> l !! j.
Proof.
  intros H. destruct (decide (i = j)) as [->|Hne].
  - rewrite list_lookup_alter_eq.
    destruct (l !! j); simpl; [f_equal; apply H|done].
  - by rewrite list_lookup_alter_ne.
Qed.

(** ** Reparenting (C7) *)

Lemma slot_isConnected_true (st : State) (slot : option ConnRef) :
  connected st slot → slot_isConnected slot st = Ret true st.
Proof.
  intros (c & x & -> & Hc & Ht). cbn.
  unfold Connection_isConnected, bind, getConn.
  rewrite Hc. unfold ret. by destruct Ht as [t ->].
Qed.

Lemma slot_isConnected_false (st : State) (slot : option ConnRef) :
  unattached st slot → slot_isConnected slot st = Ret false st.
Proof.
  intros H. destruct slot as [c|]; [|done].
  destruct (H c eq_refl) as (x & Hc & Ht). cbn.
  unfold Connection_isConnected, bind, getConn. by rewrite Hc, Ht.
Qed.

Lemma valid_slot_cases (st : State) (slot : option ConnRef) :
  valid_slot st slot → connected st slot ∨ unattached st slot.
Proof.
  intros H. destruct slot as [c|]; [|right; by intros ? [=]].
  destruct (H c eq_refl) as [x Hx].
  destruct (Connection.targetConnection x) as [t|] eqn:Ht.
  - left. exists c, x. by rewrite Ht.
  - right. intros ? [= <-]. by exists x.
Qed.

Lemma setParent_same (st : State) (this : BlockRef) (b : Block.t) :
  blocks st !! this = Some b →
  Block_setParent this (Block.parentBlock_ b) st = Ret tt st.
Proof.
  intros Hb. unfold Block_setParent. mstep. by rewrite decide_True.
Qed.

(** With a parent, a block whose previous or output connection is still
    attached cannot be reparented; it has left the old parent's list of
    children when the exception is thrown. *)
Lemma setParent_throws (st : State) (this p : BlockRef) (b : Block.t)
    (newParent : option BlockRef) :
  blocks st !! this = Some b →
  Block.parentBlock_ b = Some p →
  newParent ≠ Some p →
  valid_slot st (Block.previousConnection b) →
  valid_slot st (Block.outputConnection b) →
  connected st (Block.previousConnection b) ∨
  connected st (Block.outputConnection b) →
  ∃ msg st', Block_setParent this newParent st = Raise (Thrown msg) st' ∧
    children_of st' p = array_without this <$> children_of st p.
Proof.
  intros Hb Hp Hne Hvp Hvo Hc.
  unfold Block_setParent. mstep. rewrite Hp.
  rewrite decide_False by done. repeat mstep.
  match goal with |- context [_ (set_blocks ?f st)] =>
    assert (children_of (set_blocks f st) p
            = array_without this <$> children_of st p) as Hch
  end.
  { unfold children_of. look. by destruct (blocks st !! p). }
  destruct (valid_slot_cases _ _ Hvp) as [Hprev|Hprev].
  - erewrite bind_Ret by (by apply slot_isConnected_true).
    repeat mstep. eauto.
  - destruct Hc as [Hc|Hc].
    { erewrite bind_Ret by (by apply slot_isConnected_true).
      repeat mstep. eauto. }
    erewrite bind_Ret by (by apply slot_isConnected_false).
    repeat mstep.
    erewrite bind_Ret by (by apply slot_isConnected_true).
    repeat mstep. eauto.
Qed.

Lemma children_of_set_parent (st : State) (r r' : BlockRef)
    (v : option BlockRef) :
  children_of (set_blocks (alter (Block.set_parentBlock_ v) r) st) r'
  = children_of st r'.
Proof. unfold children_of. proj. by apply lookup_alter_frame. Qed.

Lemma children_of_set_children (st : State) (r r' : BlockRef)
    (f : list BlockRef → list BlockRef) :
  children_of (set_blocks (alter (Block.map_childBlocks_ f) r) st) r'
  = if decide (r = r') then f <$> children_of st r' else children_of st r'.
Proof.
  unfold children_of. proj. case_decide as Hr.
  - subst. rewrite list_lookup_alter_eq. by destruct (blocks st !! r').
  - by rewrite list_lookup_alter_ne.
Qed.

Lemma parent_of_set_children (st : State) (r r' : BlockRef)
    (f : list BlockRef → list BlockRef) :
  parent_of (set_blocks (alter (Block.map_childBlocks_ f) r) st) r'
  = parent_of st r'.
Proof. unfold parent_of. proj. by apply lookup_alter_frame. Qed.

Lemma parent_of_set_parent (st : State) (r r' : BlockRef)
    (v : option BlockRef) :
  parent_of (set_blocks (alter (Block.set_parentBlock_ v) r) st) r'
  = if decide (r = r') then (λ _, v) <$> parent_of st r' else parent_of st r'.
Proof.
  unfold parent_of. proj. case_decide as Hr.
  - subst. rewrite list_lookup_alter_eq. by destruct (blocks st !! r').
  - by rewrite list_lookup_alter_ne.
Qed.

Lemma parent_of_set_ws (st : State) (f : Workspace.t → Workspace.t)
    (r : BlockRef) :
  parent_of (set_ws f st) r = parent_of st r.
Proof. done. Qed.

Lemma children_of_set_ws (st : State) (f : Workspace.t → Workspace.t)
    (r : BlockRef) :
  children_of (set_ws f st) r = children_of st r.
Proof. done. Qed.

(** Leaving a parent [p] for [newParent], nothing attached. *)
Lemma setParent_from_parent (st : State) (this p : BlockRef) (b : Block.t)
    (newParent : option BlockRef) :
  blocks st !! this = Some b →
  Block.parentBlock_ b = Some p →
  newParent ≠ Some p →
  unattached st (Block.previousConnection b) →
  unattached st (Block.outputConnection b) →
  match newParent with
  | Some q => is_Some (blocks st !! q)
  | None => Block.workspace b = true
  end →
  ∃ st', Block_setParent this newParent st = Ret tt st' ∧
    parent_of st' this = Some newParent ∧
    children_of st' p = array_without this <$> children_of st p ∧
    match newParent with
    | Some q =>
        children_of st' q = (λ l, l ++ [this]) <$> children_of st q ∧
        top_blocks st' = top_blocks st
    | None => top_blocks st' = top_blocks st ++ [this]
    end.
Proof.
  intros Hb Hp Hne Hprev Hout Hnew.
  assert (parent_of st this = Some (Some p)) as Hpar
    by (unfold parent_of; by rewrite Hb, <- Hp).
  unfold Block_setParent. mstep. rewrite Hp.
  rewrite decide_False by done. repeat mstep.
  erewrite bind_Ret by (by apply slot_isConnected_false).
  repeat mstep.
  erewrite bind_Ret by (by apply slot_isConnected_false).
  repeat mstep.
  destruct newParent as [q|].
  - destruct Hnew as [qb Hq].
    assert (q ≠ p) as Hqp by congruence.
    match goal with |- context [bind (getBlock q) _ ?s] =>
      assert (is_Some (blocks s !! q)) as [qb' Hq']
    end.
    { apply lookup_lt_is_Some. proj. rewrite !length_alter.
      by apply lookup_lt_is_Some. }
    rewrite (bind_getBlock _ _ _ _ Hq'). unfold modify.
    eexists. split; [reflexivity|].
    rewrite parent_of_set_children, !parent_of_set_parent,
      parent_of_set_children, !children_of_set_children,
      !children_of_set_parent, !children_of_set_children.
    repeat case_decide; try congruence; by rewrite ?Hpar.
  - cbn in Hnew. unfold Block_workspace, Workspace_addTopBlock.
    repeat mstep.
    match goal with |- context [bind (getBlock this) _ ?s] =>
      assert (Block.workspace <$> blocks s !! this = Some true) as Hx
    end.
    { proj. rewrite !(lookup_alter_frame Block.workspace) by done.
      by rewrite Hb, <- Hnew. }
    apply fmap_Some in Hx as (b' & Hb' & Hw'). symmetry in Hw'.
    rewrite (bind_getBlock _ _ _ _ Hb'), Hw'. repeat mstep. unfold modify.
    eexists. split; [reflexivity|].
    rewrite parent_of_set_ws, !parent_of_set_parent,
      parent_of_set_children, children_of_set_ws,
      !children_of_set_parent, !children_of_set_children.
    repeat case_decide; try congruence; by rewrite ?Hpar.
Qed.

(** A top block takes a parent [q]: no connection is looked at. *)
Lemma setParent_from_top (st : State) (this q : BlockRef) (b : Block.t) :
  blocks st !! this = Some b →
  Block.parentBlock_ b = None →
  Block.workspace b = true →
  is_Some (blocks st !! q) →
  (this ∉ top_blocks st →
   ∃ msg, Block_setParent this (Some q) st = Raise (Thrown msg) st) ∧
  (this ∈ top_blocks st →
   ∃ st', Block_setParent this (Some q) st = Ret tt st' ∧
     parent_of st' this = Some (Some q) ∧
     Some (top_blocks st') = goog_array_remove this (top_blocks st) ∧
     children_of st' q = (λ l, l ++ [this]) <$> children_of st q).
Proof.
  intros Hb Hp Hw [qb Hq].
  assert (parent_of st this = Some None) as Hpar
    by (unfold parent_of; by rewrite Hb, <- Hp).
  unfold Block_setParent. mstep. rewrite Hp.
  rewrite decide_False by done.
  unfold Block_workspace, Workspace_removeTopBlock. repeat mstep.
  rewrite Hw. repeat mstep. fold (top_blocks st).
  split; intros Htop.
  - apply goog_array_remove_None in Htop. rewrite Htop.
    repeat mstep. eauto.
  - destruct (goog_array_remove this (top_blocks st)) as [top'|] eqn:Hrem;
      [|by apply goog_array_remove_None in Hrem].
    repeat mstep.
    match goal with |- context [bind (getBlock q) _ ?s] =>
      assert (is_Some (blocks s !! q)) as [qb' Hq']
    end.
    { apply lookup_lt_is_Some. proj. rewrite !length_alter.
      by apply lookup_lt_is_Some. }
    rewrite (bind_getBlock _ _ _ _ Hq'). unfold modify.
    eexists. split; [reflexivity|].
    rewrite parent_of_set_children, !parent_of_set_parent, parent_of_set_ws,
      !children_of_set_children, !children_of_set_parent, children_of_set_ws.
    repeat case_decide; try congruence; by rewrite ?Hpar.
Qed.

(** C7 as stated fails for a block without a parent: [setParent] then
    never looks at the connections.  Block 1 is a top block whose
    previous connection is attached, and [setParent] to a new parent
    returns. *)
Lemma setParent_attached_top_block :
  ∃ b st', blocks joined_top_state !! 1 = Some b ∧
    Some 0 ≠ Block.parentBlock_ b ∧
    connected joined_top_state (Block.previousConnection b) ∧
    Block_setParent 1 (Some 0) joined_top_state = Ret tt st'.
Proof.
  eexists _, _. split; [reflexivity|]. split; [done|]. split.
  - exists 1, (conn 1 PREVIOUS_STATEMENT (Some 0)). by repeat split.
  - reflexivity.
Qed.

(** C7, amended.  [setParent(newParent)] returns without any change of
    state when [newParent] is the current parent.  Otherwise, a block
    that has a parent is first taken off that parent's list of children;
    the call then throws if the previous or the output connection is
    still attached, and else sets the parent and adds the block to the
    new parent's children, or to the workspace's top blocks when
    [newParent] is null.  A block that has no parent is taken off the top
    blocks (a throw if it is not there) and given to the new parent,
    whether or not its connections are attached. *)
Theorem setParent_reparents (st : State) (this : BlockRef) (b : Block.t)
    (newParent : option BlockRef) :
  blocks st !! this = Some b →
  (newParent = Block.parentBlock_ b →
   Block_setParent this newParent st = Ret tt st) ∧
  (∀ p, Block.parentBlock_ b = Some p → newParent ≠ Some p →
     valid_slot st (Block.previousConnection b) →
     valid_slot st (Block.outputConnection b) →
     (connected st (Block.previousConnection b) ∨
      connected st (Block.outputConnection b) →
      ∃ msg st', Block_setParent this newParent st = Raise (Thrown msg) st' ∧
        children_of st' p = array_without this <$> children_of st p) ∧
     (unattached st (Block.previousConnection b) →
      unattached st (Block.outputConnection b) →
      match newParent with
      | Some q => is_Some (blocks st !! q)
      | None => Block.workspace b = true
      end →
      ∃ st', Block_setParent this newParent st = Ret tt st' ∧
        parent_of st' this = Some newParent ∧
        children_of st' p = array_without this <$> children_of st p ∧
        match newParent with
        | Some q =>
            children_of st' q = (λ l, l ++ [this]) <$> children_of st q ∧
            top_blocks st' = top_blocks st
        | None => top_blocks st' = top_blocks st ++ [this]
        end)) ∧
  (∀ q, Block.parentBlock_ b = None → newParent = Some q →
     Block.workspace b = true → is_Some (blocks st !! q) →
     (this ∉ top_blocks st →
      ∃ msg, Block_setParent this newParent st = Raise (Thrown msg) st) ∧
     (this ∈ top_blocks st →
      ∃ st', Block_setParent this newParent st = Ret tt st' ∧
        parent_of st' this = Some newParent ∧
        Some (top_blocks st') = goog_array_remove this (top_blocks st) ∧
        children_of st' q = (λ l, l ++ [this]) <$> children_of st q)).
Proof.
  intros Hb. split; [|split].
  - intros ->. by apply setParent_same.
  - intros p Hp Hne Hvp Hvo. split.
    + intros Hc. by eapply setParent_throws.
    + intros Hup Huo Hnew. by eapply setParent_from_parent.
  - intros q Hp -> Hw Hq. by eapply setParent_from_top.
Qed.

Lemma setParent_reparents_witness :
  ∃ st', Block_setParent 1 None cleared_child_state = Ret tt st' ∧
    parent_of st' 1 = Some None ∧
    children_of st' 0 = Some [] ∧
    top_blocks st' = [0; 1].
Proof.
  destruct (setParent_reparents cleared_child_state 1
              (stmt_block "q" (Some 1) None (Some 0) []) None eq_refl)
    as (_ & H & _).
  destruct (H 0 eq_refl) as [_ H2]; [done| | |].
  - intros c [= <-]. by eexists.
  - by intros c [=].
  - destruct H2 as (st' & Hrun & Hpar & Hch & Htop).
    + intros c [= <-]. eexists. split; reflexivity.
    + by intros c [=].
    + reflexivity.
    + exists st'. by repeat split.
Defined.

(** ** Output XOR previous (C1) *)

(** The structure of a method, taken apart down to its state updates. *)
Ltac pres_struct :=
  first
    [ apply preserves_bind; [|intros ?]
    | apply preserves_ret
    | apply preserves_throw
    | apply preserves_gets
    | apply preserves_getBlock
    | apply preserves_getConn
    | apply preserves_when
    | apply preserves_try_finally
    | match goal with
      | |- preserves _ (match ?x with _ => _ end) => destruct x
      | |- preserves _ (let '(_, _) := ?x in _) => destruct x
      end ].

Ltac pres_unfold :=
  progress unfold
    updBlock, updConn, updWs, updEv, log,
    Workspace_addTopBlock, Workspace_removeTopBlock,
    Workspace_addChangeListener, Workspace_removeChangeListener,
    Events_isEnabled, Events_disable, Events_enable, Events_getGroup,
    Events_Abstract_new, Events_BlockCreate_new, Events_BlockDelete_new,
    Block_workspace, slot_isConnected, Connection_isConnected,
    Connection_checkType_, Connection_targetBlock, Connection_dispose,
    Input_dispose, Block_makeConnection_, Block_getNextBlock,
    Block_deregister, Block_setOnChange, Block_getInputTargetBlock.

Create HintDb pres discriminated.

Ltac pres_with leaf :=
  repeat first
    [ solve [eauto with pres]
    | pres_struct
    | apply preserves_modify; solve [leaf]
    | pres_unfold ].

(** Updates of a block that leave its output and previous slots alone. *)
Lemma never_both_alter (f : Block.t → Block.t) (r : BlockRef) (s : State) :
  (∀ b, Block.outputConnection (f b) = Block.outputConnection b) →
  (∀ b, Block.previousConnection (f b) = Block.previousConnection b) →
  never_both s → never_both (set_blocks (alter f r) s).
Proof.
  intros Ho Hp H. unfold never_both in *. proj.
  apply Forall_alter; [done|]. intros b _. unfold not_both.
  by rewrite Ho, Hp.
Qed.

Lemma never_both_new (b : Block.t) (s : State) :
  not_both b → never_both s → never_both (set_blocks (λ l, l ++ [b]) s).
Proof.
  intros Hb H. unfold never_both in *. proj. apply Forall_app. split; [done|].
  by constructor.
Qed.

Lemma never_both_clear (f : Block.t → Block.t) (r : BlockRef) (s : State) :
  (∀ b, not_both b → not_both (f b)) →
  never_both s → never_both (set_blocks (alter f r) s).
Proof.
  intros Hf H. unfold never_both in *. proj.
  apply Forall_alter; [done|]. intros b _. apply Hf.
Qed.

Ltac never_both_leaf :=
  intros ? ?;
  first [ assumption
        | apply never_both_alter; [done|done|assumption]
        | apply never_both_new; [by left|assumption]
        | apply never_both_clear;
          [intros ? ?; first [by left|by right]|assumption] ].

Ltac pres_never_both := pres_with never_both_leaf.

Lemma never_both_call_listeners (fs : list Listener) (e : Event.t) :
  preserves never_both (call_listeners fs e).
Proof. induction fs; cbn; pres_never_both. Qed.
#[local] Hint Resolve never_both_call_listeners : pres.

Lemma never_both_fireChangeListener (e : Event.t) :
  preserves never_both (Workspace_fireChangeListener e).
Proof. unfold Workspace_fireChangeListener. pres_never_both. Qed.
#[local] Hint Resolve never_both_fireChangeListener : pres.

Lemma never_both_fire (e : Event.t) : preserves never_both (Events_fire e).
Proof. unfold Events_fire. pres_never_both. Qed.
#[local] Hint Resolve never_both_fire : pres.

Lemma never_both_setGroup (env : Env) (b : bool) :
  preserves never_both (Events_setGroup env b).
Proof. unfold Events_setGroup, utils_genUid. destruct b; pres_never_both. Qed.
#[local] Hint Resolve never_both_setGroup : pres.

Lemma never_both_setParent (this : BlockRef) (newParent : option BlockRef) :
  preserves never_both (Block_setParent this newParent).
Proof. unfold Block_setParent. pres_never_both. Qed.
#[local] Hint Resolve never_both_setParent : pres.

Lemma never_both_connect (c other : ConnRef) :
  preserves never_both (Connection_connect c other).
Proof. unfold Connection_connect. pres_never_both. Qed.
#[local] Hint Resolve never_both_connect : pres.

Lemma never_both_disconnect (c : ConnRef) :
  preserves never_both (Connection_disconnect c).
Proof. unfold Connection_disconnect. pres_never_both. Qed.
#[local] Hint Resolve never_both_disconnect : pres.

Lemma never_both_setCheck (c : ConnRef) (check : option (list string)) :
  preserves never_both (Connection_setCheck c check).
Proof. unfold Connection_setCheck. pres_never_both. Qed.
#[local] Hint Resolve never_both_setCheck : pres.

Lemma never_both_unplug (this : BlockRef) (heal : bool) :
  preserves never_both (Block_unplug this heal).
Proof. unfold Block_unplug. pres_never_both. Qed.
#[local] Hint Resolve never_both_unplug : pres.

Lemma never_both_dispose_inputs (this : BlockRef) (inputs : list Input.t) :
  preserves never_both (dispose_inputs this inputs).
Proof. induction inputs; cbn; pres_never_both. Qed.
#[local] Hint Resolve never_both_dispose_inputs : pres.

Lemma never_both_dispose_connections (cs : list ConnRef) :
  preserves never_both (dispose_connections cs).
Proof. induction cs; cbn; pres_never_both. Qed.
#[local] Hint Resolve never_both_dispose_connections : pres.

Lemma never_both_dispose (fuel : nat) (this : BlockRef) (heal : bool) :
  preserves never_both (Block_dispose fuel this heal).
Proof.
  revert this heal. induction fuel as [|fuel IH]; intros this heal; cbn.
  - by intros s Hs.
  - pres_never_both.
    match goal with |- preserves _ (?f (length ?l)) =>
      generalize (length l) end.
    intros n. induction n; pres_never_both.
Qed.
#[local] Hint Resolve never_both_dispose : pres.

(** What [hoare] says of one run. *)
Lemma preserves_run {A} (P : State → Prop) (m : M A) (s : State) :
  preserves P m → P s →
  match m s with
  | Ret _ s' => P s'
  | Raise _ s' => P s'
  | OutOfFuel => True
  end.
Proof. intros H. apply H. Qed.

Lemma never_both_setOutput (this : BlockRef) (newBoolean : bool)
    (opt_check : option (list string)) :
  preserves never_both (Block_setOutput this newBoolean opt_check).
Proof.
  unfold Block_setOutput. destruct newBoolean; [|pres_never_both].
  intros s Hs. destruct (blocks s !! this) as [b|] eqn:Hb;
    [|by erewrite bind_Raise by (unfold getBlock; by rewrite Hb)].
  mstep.
  assert (preserves never_both
            (b' <- getBlock this;;
             match Block.outputConnection b' with
             | Some c => Connection_setCheck c opt_check
             | None => throw TypeError
             end)) as Htail by pres_never_both.
  destruct (Block.outputConnection b) eqn:Ho.
  { mstep. by apply Htail. }
  destruct (Block.previousConnection b) eqn:Hp; cbn [non_null];
    repeat mstep; [done|].
  unfold Block_makeConnection_. repeat mstep. cbn [Block.outputConnection
    Block.set_outputConnection]. apply (preserves_run never_both); [auto with pres|].
  unfold never_both in *. proj. apply Forall_alter; [done|].
  intros x Hx _. assert (x = b) as -> by congruence. by right.
Qed.
#[local] Hint Resolve never_both_setOutput : pres.

Lemma never_both_setPreviousStatement (this : BlockRef) (newBoolean : bool)
    (opt_check : option (list string)) :
  preserves never_both (Block_setPreviousStatement this newBoolean opt_check).
Proof.
  unfold Block_setPreviousStatement. destruct newBoolean; [|pres_never_both].
  intros s Hs. destruct (blocks s !! this) as [b|] eqn:Hb;
    [|by erewrite bind_Raise by (unfold getBlock; by rewrite Hb)].
  mstep.
  assert (preserves never_both
            (b' <- getBlock this;;
             match Block.previousConnection b' with
             | Some c => Connection_setCheck c opt_check
             | None => throw TypeError
             end)) as Htail by pres_never_both.
  destruct (Block.previousConnection b) eqn:Hp.
  { mstep. by apply Htail. }
  destruct (Block.outputConnection b) eqn:Ho; cbn [non_null];
    repeat mstep; [done|].
  unfold Block_makeConnection_. repeat mstep. cbn [Block.previousConnection
    Block.set_previousConnection]. apply (preserves_run never_both); [auto with pres|].
  unfold never_both in *. proj. apply Forall_alter; [done|].
  intros x Hx _. assert (x = b) as -> by congruence. by left.
Qed.
#[local] Hint Resolve never_both_setPreviousStatement : pres.



Lemma never_both_setOnChange (this : BlockRef) (fn : nat) :
  preserves never_both (Block_setOnChange this fn).
Proof. unfold Block_setOnChange. pres_never_both. Qed.
#[local] Hint Resolve never_both_setOnChange : pres.











(** ** Construction (C10) *)

Lemma safe_bind {A B} (P : State → Prop) (m : M A) (k : A → M B) :
  safe P m → (∀ a, safe P (k a)) → safe P (bind m k).
Proof.
  intros Hm Hk s Hs. destruct (Hm s Hs) as (a & s' & Hr & Hs').
  unfold bind. rewrite Hr. by apply Hk.
Qed.

Lemma safe_ret {A} (P : State → Prop) (a : A) : safe P (ret a).
Proof. intros s Hs. by exists a, s. Qed.

Lemma safe_gets {A} (P : State → Prop) (f : State → A) : safe P (gets f).
Proof. intros s Hs. by exists (f s), s. Qed.

Lemma safe_modify (P : State → Prop) (f : State → State) :
  (∀ s, P s → P (f s)) → safe P (modify f).
Proof. intros H s Hs. exists tt, (f s). split; [done|by apply H]. Qed.

Lemma safe_when (P : State → Prop) (c : bool) (m : M unit) :
  safe P m → safe P (when c m).
Proof. intros H. destruct c; [done|apply safe_ret]. Qed.

Lemma safe_try_finally {A} (P : State → Prop) (m : M A) (fin : M unit) :
  safe P m → safe P fin → safe P (try_finally m fin).
Proof.
  intros Hm Hf s Hs. unfold try_finally.
  destruct (Hm s Hs) as (a & s' & -> & Hs').
  destruct (Hf s' Hs') as ([] & s'' & -> & Hs''). eauto.
Qed.

Ltac safe_struct :=
  first
    [ apply safe_bind; [|intros ?]
    | apply safe_ret
    | apply safe_gets
    | apply safe_when
    | apply safe_try_finally
    | match goal with
      | |- safe _ (match ?x with _ => _ end) => destruct x
      end ].

Create HintDb safe discriminated.

Ltac safe_with leaf :=
  repeat first
    [ solve [eauto with safe]
    | safe_struct
    | apply safe_modify; solve [leaf]
    | pres_unfold ].

Section Registered.
Context (this : BlockRef) (id : string) (top : list BlockRef).

Lemma registered_frame (s s' : State) :
  Block.id <$> blocks s' !! this = Block.id <$> blocks s !! this →
  Block.workspace <$> blocks s' !! this = Block.workspace <$> blocks s !! this →
  Workspace.blockDB_ (ws s') = Workspace.blockDB_ (ws s) →
  Workspace.topBlocks_ (ws s') = Workspace.topBlocks_ (ws s) →
  registered this id top s → registered this id top s'.
Proof.
  intros Hi Hw Hdb Htop ((b & Hb & Hid & Hws) & Hreg & Ht).
  rewrite Hb in Hi, Hw. cbn in Hi, Hw.
  apply fmap_Some in Hi as (b' & Hb' & Hi).
  rewrite Hb' in Hw. injection Hw as Hw.
  split; [|split].
  - exists b'. split; [done|]. split; congruence.
  - by rewrite Hdb.
  - unfold top_blocks in *. by rewrite Htop.
Qed.

Ltac registered_leaf :=
  intros ? ?;
  eapply registered_frame; [| | | |eassumption];
  proj; try reflexivity;
  try (apply lookup_alter_frame; reflexivity).

Ltac safe_reg := safe_with registered_leaf.

Lemma registered_getBlock : safe (registered this id top) (getBlock this).
Proof.
  intros s Hs. pose proof Hs as ((b & Hb & ?) & ?).
  exists b, s. by rewrite (run_getBlock _ _ _ Hb).
Qed.
#[local] Hint Resolve registered_getBlock : safe.

Lemma registered_workspace : safe (registered this id top) (Block_workspace this).
Proof.
  intros s Hs. pose proof Hs as ((b & Hb & ? & Hw) & ?).
  exists tt, s. unfold Block_workspace. mstep. by rewrite Hw.
Qed.
#[local] Hint Resolve registered_workspace : safe.

Lemma registered_call_listeners (fs : list Listener) (e : Event.t) :
  safe (registered this id top) (call_listeners fs e).
Proof. induction fs; cbn; safe_reg. Qed.
#[local] Hint Resolve registered_call_listeners : safe.

Lemma registered_fire (e : Event.t) :
  safe (registered this id top) (Events_fire e).
Proof. unfold Events_fire, Workspace_fireChangeListener. safe_reg. Qed.
#[local] Hint Resolve registered_fire : safe.

Lemma registered_setGroup (env : Env) (b : bool) :
  safe (registered this id top) (Events_setGroup env b).
Proof. unfold Events_setGroup, utils_genUid. destruct b; safe_reg. Qed.
#[local] Hint Resolve registered_setGroup : safe.

Lemma registered_setOnChange (fn : nat) :
  safe (registered this id top) (Block_setOnChange this fn).
Proof. unfold Block_setOnChange. safe_reg. Qed.
#[local] Hint Resolve registered_setOnChange : safe.


End Registered.








(** ** What a new block fires *)

(** What [fireChangeListener] does to the state. *)
Lemma fireChangeListener_run (e : Event.t) (st : State) :
  ∃ st', Workspace_fireChangeListener e st = Ret tt st' ∧
    trace st' = trace st
                ++ map (λ f, ObsListener f e) (Workspace.listeners_ (ws st)) ∧
    (if Event.recordUndo e
     then Workspace.undoStack_ (ws st') = Workspace.undoStack_ (ws st) ++ [e] ∧
          Workspace.redoStack_ (ws st') = []
     else Workspace.undoStack_ (ws st') = Workspace.undoStack_ (ws st) ∧
          Workspace.redoStack_ (ws st') = Workspace.redoStack_ (ws st)) ∧
    Workspace.listeners_ (ws st') = Workspace.listeners_ (ws st) ∧
    top_blocks st' = top_blocks st ∧
    Workspace.blockDB_ (ws st') = Workspace.blockDB_ (ws st) ∧
    blocks st' = blocks st ∧ conns st' = conns st ∧ ev st' = ev st ∧
    uids st' = uids st.
Proof.
  unfold Workspace_fireChangeListener.
  destruct (Event.recordUndo e); repeat mstep.
  - match goal with |- context [bool_decide ?P] => destruct (bool_decide P) end;
      repeat mstep;
      match goal with |- context [call_listeners ?fs e ?s0] =>
        destruct (call_listeners_ws fs e s0)
          as (s' & -> & Hw & He & Hb & Hc & Hu & Ht)
      end; exists s'; rewrite Ht, Hb, Hc, He, Hu; unfold top_blocks; rewrite Hw;
      by split_and!.
  - match goal with |- context [call_listeners ?fs e ?s0] =>
      destruct (call_listeners_ws fs e s0)
        as (s' & -> & Hw & He & Hb & Hc & Hu & Ht)
    end; exists s'; rewrite Ht, Hb, Hc, He, Hu; unfold top_blocks; rewrite Hw;
    by split_and!.
Qed.

(** The identifier step of the constructor either leaves the state as it
    is or takes one identifier off the source. *)
Lemma Block_new_id_state (env : Env) (opt_id : option string) (s : State) :
  ∃ id s1,
    match opt_id with
    | Some i =>
        if truthy i
           && negb (non_null (Workspace_getBlockById (ws s) i))
        then ret i else utils_genUid env
    | None => utils_genUid env
    end s = Ret id s1 ∧
    (s1 = s ∨ s1 = set_uids S s) ∧ uids s ≤ uids s1.
Proof.
  assert (∃ id s1, utils_genUid env s = Ret id s1 ∧
            (s1 = s ∨ s1 = set_uids S s) ∧ uids s ≤ uids s1) as Hgen.
  { unfold utils_genUid. repeat mstep. unfold modify.
    eexists _, _. split; [reflexivity|]. split; [by right|cbn; lia]. }
  destruct opt_id as [i|]; [|done].
  destruct (_ && _); [|done].
  exists i, s. split; [done|]. split; [by left|done].
Qed.

Lemma try_finally_Ret {A} (m : M A) (fin : M unit) (s s1 s2 : State) (a : A) :
  m s = Ret a s1 → fin s1 = Ret tt s2 → try_finally m fin s = Ret a s2.
Proof. intros Hm Hf. unfold try_finally. by rewrite Hm, Hf. Qed.

(** The Create event of block [this], fired while events are enabled. *)
Lemma create_fire (this : BlockRef) (b : Block.t) (s : State) :
  blocks s !! this = Some b →
  bool_decide (Events.disabled_ (ev s) = 0) = true →
  ∃ s2,
    (b <- getBlock this;; e <- Events_BlockCreate_new b;; Events_fire e) s
    = Ret tt s2 ∧
    trace s2
    = trace s
      ++ ObsFire (Event.mk Event.Create (Block.id b) (Events.group_ (ev s))
                    (Events.recordUndo (ev s)))
      :: map (λ f, ObsListener f
                     (Event.mk Event.Create (Block.id b) (Events.group_ (ev s))
                        (Events.recordUndo (ev s))))
           (Workspace.listeners_ (ws s)) ∧
    (if Events.recordUndo (ev s)
     then Workspace.undoStack_ (ws s2)
          = Workspace.undoStack_ (ws s)
            ++ [Event.mk Event.Create (Block.id b) (Events.group_ (ev s))
                  (Events.recordUndo (ev s))] ∧
          Workspace.redoStack_ (ws s2) = []
     else Workspace.undoStack_ (ws s2) = Workspace.undoStack_ (ws s) ∧
          Workspace.redoStack_ (ws s2) = Workspace.redoStack_ (ws s)) ∧
    blocks s2 = blocks s ∧ ev s2 = ev s ∧ uids s2 = uids s.
Proof.
  intros Hb Hen.
  unfold Events_fire, Events_isEnabled, Events_BlockCreate_new,
    Events_Abstract_new.
  repeat mstep. rewrite Hen. cbn [when]. repeat mstep.
  match goal with |- context [Workspace_fireChangeListener ?e ?s0] =>
    destruct (fireChangeListener_run e s0)
      as (s2 & Hfire & Ht & Hstacks & _ & _ & _ & Hb2 & _ & He2 & Hu2)
  end.
  exists s2. split; [done|]. revert Ht Hstacks Hb2 He2 Hu2. proj.
  cbn [Event.recordUndo]. intros Ht Hstacks Hb2 He2 Hu2.
  split_and!; try done. by rewrite Ht, <- app_assoc.
Qed.

(** [newBlock] without a type returns.  With events enabled it fires one
    Create event for the new block, in the group that is open or else in
    a group of its own that the constructor closes again; the workspace
    records the event when [recordUndo] is on, and not when it is off. *)
Lemma newBlock_untyped_run (env : Env) (opt_id : option string) (st : State) :
  ∃ st' b e,
    Workspace_newBlock env None opt_id st = Ret (length (blocks st)) st' ∧
    blocks st' !! length (blocks st) = Some b ∧
    ev st' = ev st ∧
    e = Event.mk Event.Create (Block.id b)
          (if truthy (Events.group_ (ev st)) then Events.group_ (ev st)
           else genUid env (pred (uids st')))
          (Events.recordUndo (ev st)) ∧
    if bool_decide (Events.disabled_ (ev st) = 0)
    then
      trace st' = trace st
                  ++ ObsFire e
                  :: map (λ f, ObsListener f e) (Workspace.listeners_ (ws st)) ∧
      if Events.recordUndo (ev st)
      then Workspace.undoStack_ (ws st') = Workspace.undoStack_ (ws st) ++ [e] ∧
           Workspace.redoStack_ (ws st') = []
      else Workspace.undoStack_ (ws st') = Workspace.undoStack_ (ws st) ∧
           Workspace.redoStack_ (ws st') = Workspace.redoStack_ (ws st)
    else
      trace st' = trace st ∧
      Workspace.undoStack_ (ws st') = Workspace.undoStack_ (ws st) ∧
      Workspace.redoStack_ (ws st') = Workspace.redoStack_ (ws st).
Proof.
  unfold Workspace_newBlock, Block_new. rewrite bind_gets.
  destruct (Block_new_id_state env opt_id st) as (id & s1 & Hid & Hs1 & _).
  rewrite (bind_Ret _ _ _ _ _ Hid).
  assert (blocks s1 = blocks st ∧ ws s1 = ws st ∧ ev s1 = ev st
          ∧ trace s1 = trace st) as (Hb1 & Hw1 & He1 & Ht1)
    by (by destruct Hs1 as [->| ->]).
  unfold Block_mixin, Workspace_addTopBlock, Events_isEnabled, Events_getGroup.
  repeat mstep. rewrite ?Hb1, ?He1, ?Hw1, ?Ht1.
  destruct (bool_decide (Events.disabled_ (ev st) = 0)) eqn:Hen; cbn [when].
  2:{ repeat mstep. eexists _, _, _. split; [reflexivity|]. proj.
      rewrite ?Hb1, ?He1, ?Hw1, ?Ht1, list_lookup_middle by done.
      by split_and!. }
  repeat mstep. rewrite ?He1.
  destruct (truthy (Events.group_ (ev st))) eqn:Hg; cbn [negb when].
  - repeat mstep.
    match goal with |- context [bind (try_finally ?m _) _ ?s0] =>
      destruct (create_fire (length (blocks st)) (new_block id None) s0)
        as (s2 & Hfire & Ht & Hstacks & Hb2 & He2 & Hu2);
      [by proj; rewrite Hb1, list_lookup_middle|by proj; rewrite He1|];
      rewrite (bind_Ret _ _ _ _ _ (try_finally_Ret m _ s0 s2 s2 tt Hfire eq_refl))
    end.
    revert Ht Hstacks Hb2 He2. proj. rewrite ?Hb1, ?He1, ?Hw1, ?Ht1.
    cbn [Block.id new_block Workspace.undoStack_
         Workspace.redoStack_ Workspace.listeners_ Workspace.set_blockDB_
         Workspace.set_topBlocks_].
    intros Ht Hstacks Hb2 He2. repeat mstep.
    eexists _, _, _. split; [reflexivity|].
    rewrite Hb2, He2, Ht, list_lookup_middle by done.
    by split_and!.
  - assert (Events.group_ (ev st) = "") as Hempty.
    { unfold truthy in Hg. by apply negb_false_iff, String.eqb_eq in Hg. }
    unfold Events_setGroup at 1, utils_genUid. repeat mstep. unfold modify.
    repeat mstep.
    match goal with |- context [bind (try_finally ?m ?fin) _ ?s0] =>
      destruct (create_fire (length (blocks st)) (new_block id None) s0)
        as (s2 & Hfire & Ht & Hstacks & Hb2 & He2 & Hu2);
      [by proj; rewrite Hb1, list_lookup_middle|by proj; rewrite He1|];
      rewrite (bind_Ret _ _ _ _ _
                 (try_finally_Ret m fin s0 s2
                    (set_ev (Events.set_group_ "") s2) tt Hfire eq_refl))
    end.
    revert Ht Hstacks Hb2 He2 Hu2. proj. rewrite ?Hb1, ?He1, ?Hw1, ?Ht1.
    cbn [Block.id new_block Workspace.undoStack_
         Workspace.redoStack_ Workspace.listeners_ Workspace.set_blockDB_
         Workspace.set_topBlocks_ Events.recordUndo Events.set_group_
         Events.group_].
    intros Ht Hstacks Hb2 He2 Hu2. repeat mstep.
    eexists _, _, _. split; [reflexivity|]. proj.
    rewrite Hb2, He2, Hu2, Ht, list_lookup_middle by done.
    cbn [Events.set_group_ Events.recordUndo Events.disabled_ Nat.pred].
    split_and!; try done.
    destruct (ev st). cbn in *. by subst.
Qed.

(** ** Undo and redo (C3) *)

(** The loop of [undo] pops the longest run of events of the group of
    [inputEvent] off the end of the stack. *)
Lemma undo_collect_group (inputEvent : Event.t) (keep same events : list Event.t)
    (n : nat) :
  truthy (Event.group inputEvent) = true →
  Forall (λ e, Event.group e = Event.group inputEvent) same →
  (∀ k x, keep = k ++ [x] → Event.group x ≠ Event.group inputEvent) →
  length (keep ++ same) ≤ n →
  undo_collect n inputEvent (keep ++ same) events
  = (keep, events ++ reverse same).
Proof.
  intros Hg. revert events n.
  induction same as [|x same IH] using rev_ind; intros events n Hsame Hkeep Hn.
  - rewrite !app_nil_r. destruct n as [|n]; [by destruct keep|].
    cbn [undo_collect]. destruct (array_pop keep) as [[top rest]|] eqn:Hpop.
    + apply array_pop_Some_inv in Hpop as ->. rewrite Hg. cbn [andb].
      specialize (Hkeep rest top eq_refl).
      apply String.eqb_neq in Hkeep. rewrite String.eqb_sym in Hkeep.
      by rewrite Hkeep.
    + by apply array_pop_nil_inv in Hpop as ->.
  - apply Forall_app in Hsame as [Hsame Hx].
    apply Forall_inv in Hx.
    rewrite app_assoc, length_app in Hn. cbn in Hn.
    destruct n as [|n]; [lia|]. cbn [undo_collect].
    rewrite app_assoc, array_pop_app, Hg, Hx, String.eqb_refl. cbn [andb].
    rewrite IH by (done || lia).
    by rewrite reverse_app, <- app_assoc.
Qed.


Lemma runs_app (t1 t2 : list Obs) : runs (t1 ++ t2) = runs t1 ++ runs t2.
Proof. apply List.filter_app. Qed.

(** The replay loop calls [run] on the events in turn, each with
    recording off, and stops at the first one that throws. *)
Lemma undo_replay_runs (env : Env) (events : list Event.t) (redo : bool)
    (s : State) :
  run_frame env →
  Events.recordUndo (ev s) = false →
  ∃ s' n t,
    (undo_replay env events redo s = Ret tt s' ∧ n = length events ∨
     ∃ e, undo_replay env events redo s = Raise e s') ∧
    (runs_return env redo → undo_replay env events redo s = Ret tt s') ∧
    Workspace.undoStack_ (ws s') = Workspace.undoStack_ (ws s) ∧
    Workspace.redoStack_ (ws s') = Workspace.redoStack_ (ws s) ∧
    Events.recordUndo (ev s') = false ∧
    trace s' = trace s ++ t ∧
    runs t = map (λ e, ObsRun e redo false) (take n events).
Proof.
  intros Hrun. revert s. induction events as [|e events IH]; intros s Hrec.
  - exists s, 0, []. cbn. rewrite app_nil_r. split_and!; auto.
  - cbn [undo_replay]. repeat mstep. rewrite Hrec.
    set (s0 := set_trace (λ t, t ++ [ObsRun e redo false]) s).
    pose proof (Hrun e redo s0 Hrec) as Hframe.
    destruct (Event_run env e redo s0) as [[] s1|x s1|] eqn:Erun; [| |done].
    + rewrite !(bind_Ret _ _ _ _ _ Erun).
      destruct Hframe as (Hu & Hr & Hf & t1 & Ht1 & Hruns1).
      destruct (IH s1 Hf) as (s' & n & t & Hres & Hret & Hu' & Hr' & Hf' & Ht & Hruns).
      exists s', (S n), ([ObsRun e redo false] ++ t1 ++ t).
      split_and!.
      * destruct Hres as [[-> ->]|[x ->]]; [by left|right; eauto].
      * done.
      * by rewrite Hu', Hu.
      * by rewrite Hr', Hr.
      * done.
      * rewrite Ht, Ht1. unfold s0. proj. by rewrite <- !app_assoc.
      * rewrite !runs_app, Hruns1, Hruns. reflexivity.
    + rewrite !(bind_Raise _ _ _ _ _ Erun).
      destruct Hframe as (Hu & Hr & Hf & t1 & Ht1 & Hruns1).
      exists s1, 1, ([ObsRun e redo false] ++ t1).
      split_and!; try done.
      * right. eauto.
      * intros Hret. destruct (Hret e s0 Hrec) as [s2 Hs2]. congruence.
      * rewrite Ht1. unfold s0. proj. by rewrite <- !app_assoc.
      * rewrite runs_app, Hruns1. reflexivity.
Qed.

Lemma inputStack_set_inputStack (redo : bool) (v : list Event.t)
    (w : Workspace.t) :
  inputStack redo (set_inputStack redo v w) = v ∧
  outputStack redo (set_inputStack redo v w) = outputStack redo w.
Proof. by destruct redo. Qed.

Lemma inputStack_set_outputStack (redo : bool) (v : list Event.t)
    (w : Workspace.t) :
  inputStack redo (set_outputStack redo v w) = inputStack redo w ∧
  outputStack redo (set_outputStack redo v w) = v.
Proof. by destruct redo. Qed.

Lemma stacks_eq (redo : bool) (w w' : Workspace.t) :
  Workspace.undoStack_ w' = Workspace.undoStack_ w →
  Workspace.redoStack_ w' = Workspace.redoStack_ w →
  inputStack redo w' = inputStack redo w ∧
  outputStack redo w' = outputStack redo w.
Proof. by destruct redo. Qed.


Lemma runs_listeners (fs : list Listener) (e : Event.t) :
  runs (map (λ f, ObsListener f e) fs) = [].
Proof. by induction fs. Qed.

(** What [recreate_run] does while [recordUndo] is off: it returns, and
    the event that the new block fires is not recorded. *)
Lemma recreate_run_off (e : Event.t) (forward : bool) (s : State) :
  Events.recordUndo (ev s) = false →
  ∃ s', recreate_run e forward s = Ret tt s' ∧
    Workspace.undoStack_ (ws s') = Workspace.undoStack_ (ws s) ∧
    Workspace.redoStack_ (ws s') = Workspace.redoStack_ (ws s) ∧
    ev s' = ev s ∧
    ∃ t, trace s' = trace s ++ t ∧ runs t = [].
Proof.
  intros Hrec.
  assert (∃ s', (Workspace_newBlock example_env None (Some (Event.blockId e));;;
                 ret tt) s = Ret tt s' ∧
            Workspace.undoStack_ (ws s') = Workspace.undoStack_ (ws s) ∧
            Workspace.redoStack_ (ws s') = Workspace.redoStack_ (ws s) ∧
            ev s' = ev s ∧
            ∃ t, trace s' = trace s ++ t ∧ runs t = []) as Hnew.
  { destruct (newBlock_untyped_run example_env (Some (Event.blockId e)) s)
      as (s' & b & e' & Hrun & _ & Hev & _ & Hcases).
    exists s'. rewrite (bind_Ret _ _ _ _ _ Hrun). split; [done|].
    rewrite Hrec in Hcases.
    destruct (bool_decide (Events.disabled_ (ev s) = 0)).
    - destruct Hcases as (Ht & Hu & Hr). split_and!; try done.
      eexists. split; [exact Ht|]. cbn. apply runs_listeners.
    - destruct Hcases as (Ht & Hu & Hr). split_and!; try done.
      exists []. by rewrite app_nil_r. }
  assert (∃ s', ret tt s = Ret tt s' ∧
            Workspace.undoStack_ (ws s') = Workspace.undoStack_ (ws s) ∧
            Workspace.redoStack_ (ws s') = Workspace.redoStack_ (ws s) ∧
            ev s' = ev s ∧
            ∃ t, trace s' = trace s ++ t ∧ runs t = []) as Hskip.
  { exists s. split_and!; try done. exists []. by rewrite app_nil_r. }
  unfold recreate_run. by destruct (Event.type e), forward.
Qed.

Lemma replay_env_run_frame : run_frame replay_env.
Proof.
  intros e forward s Hrec. cbn [Event_run replay_env].
  destruct (recreate_run_off e forward s Hrec) as (s' & -> & Hu & Hr & He & Ht).
  split_and!; try done. by rewrite He.
Qed.

Lemma replay_env_runs_return (forward : bool) : runs_return replay_env forward.
Proof.
  intros e s Hrec. cbn [Event_run replay_env].
  destruct (recreate_run_off e forward s Hrec) as (s' & -> & _). eauto.
Qed.


(** ** Disposal is idempotent (C6) *)

Lemma dead_alter (f : Block.t → Block.t) (r r' : BlockRef) (s : State) :
  (∀ b, Block.workspace b = false → Block.workspace (f b) = false) →
  dead r s → dead r (set_blocks (alter f r') s).
Proof.
  intros Hf. unfold dead. proj. intros H.
  destruct (decide (r' = r)) as [->|Hne]; [|by rewrite list_lookup_alter_ne].
  rewrite list_lookup_alter_eq.
  destruct (blocks s !! r) as [b|]; [|done]. injection H as H. cbn.
  by rewrite Hf.
Qed.

Lemma dead_new (b : Block.t) (r : BlockRef) (s : State) :
  dead r s → dead r (set_blocks (λ l, l ++ [b]) s).
Proof.
  unfold dead. proj. intros H.
  destruct (blocks s !! r) as [b'|] eqn:Hb; [|done].
  by rewrite (lookup_app_l_Some _ _ _ _ Hb).
Qed.

Ltac dead_leaf :=
  intros ? ?;
  first [ assumption
        | apply dead_alter; [by intros ? ?|assumption]
        | apply dead_new; assumption ].

Ltac pres_dead := pres_with dead_leaf.

Section Dead.
Context (r : BlockRef).

Lemma dead_setParent (this : BlockRef) (newParent : option BlockRef) :
  preserves (dead r) (Block_setParent this newParent).
Proof. unfold Block_setParent. pres_dead. Qed.
#[local] Hint Resolve dead_setParent : pres.

Lemma dead_connect (c other : ConnRef) :
  preserves (dead r) (Connection_connect c other).
Proof. unfold Connection_connect. pres_dead. Qed.
#[local] Hint Resolve dead_connect : pres.

Lemma dead_disconnect (c : ConnRef) :
  preserves (dead r) (Connection_disconnect c).
Proof. unfold Connection_disconnect. pres_dead. Qed.
#[local] Hint Resolve dead_disconnect : pres.

Lemma dead_unplug (this : BlockRef) (heal : bool) :
  preserves (dead r) (Block_unplug this heal).
Proof. unfold Block_unplug. pres_dead. Qed.
#[local] Hint Resolve dead_unplug : pres.

Lemma dead_call_listeners (fs : list Listener) (e : Event.t) :
  preserves (dead r) (call_listeners fs e).
Proof. induction fs; cbn; pres_dead. Qed.
#[local] Hint Resolve dead_call_listeners : pres.

Lemma dead_fire (e : Event.t) : preserves (dead r) (Events_fire e).
Proof. unfold Events_fire, Workspace_fireChangeListener. pres_dead. Qed.
#[local] Hint Resolve dead_fire : pres.

Lemma dead_dispose_inputs (this : BlockRef) (inputs : list Input.t) :
  preserves (dead r) (dispose_inputs this inputs).
Proof. induction inputs; cbn; pres_dead. Qed.
#[local] Hint Resolve dead_dispose_inputs : pres.

Lemma dead_dispose_connections (cs : list ConnRef) :
  preserves (dead r) (dispose_connections cs).
Proof. induction cs; cbn; pres_dead. Qed.
#[local] Hint Resolve dead_dispose_connections : pres.

Lemma dead_dispose (fuel : nat) (this : BlockRef) (heal : bool) :
  preserves (dead r) (Block_dispose fuel this heal).
Proof.
  revert this heal. induction fuel as [|fuel IH]; intros this heal; cbn.
  - by intros s Hs.
  - pres_dead.
    match goal with |- preserves _ (?f (length ?l)) =>
      generalize (length l) end.
    intros n. induction n; pres_dead.
Qed.

End Dead.

(** The children loop of [dispose]. *)
Lemma dead_dispose_children (r this : BlockRef) (fuel n : nat) :
  preserves (dead r)
    ((fix children (n : nat) : M unit :=
        match n with
        | 0 => ret tt
        | S i =>
            bi <- getBlock this;;
            match Block.childBlocks_ bi !! i with
            | Some child => Block_dispose fuel child false;;; children i
            | None => throw TypeError
            end
        end) n).
Proof.
  pose proof (dead_dispose r fuel) as Hd.
  induction n; pres_dead.
Qed.

Lemma getBlock_Ret_inv (r : BlockRef) (b : Block.t) (s s' : State) :
  getBlock r s = Ret b s' → s' = s ∧ blocks s !! r = Some b.
Proof.
  unfold getBlock. destruct (blocks s !! r); [|done]. by intros [= -> ->].
Qed.

(** A block that [dispose] returned from is dead. *)
Lemma dispose_returns_dead (fuel : nat) (this : BlockRef) (heal : bool)
    (st st' : State) :
  Block_dispose fuel this heal st = Ret tt st' → dead this st'.
Proof.
  destruct fuel as [|fuel]; [done|]. cbn [Block_dispose].
  intros H. apply bind_Ret_inv in H as (b & s0 & Hb & H).
  apply getBlock_Ret_inv in Hb as [-> Hb].
  destruct (Block.workspace b) eqn:Hw; cbn [negb] in H.
  2:{ injection H as <-. unfold dead. by rewrite Hb, <- Hw. }
  repeat (apply bind_Ret_inv in H as (? & ? & _ & H)).
  unfold try_finally in H.
  match type of H with context [bind ?m ?k ?s] =>
    destruct (bind m k s) as [[] s1|e s1|] eqn:Hbody
  end; [|by destruct (Events_enable s1)|done].
  injection H as <-.
  change (dead this s1).
  apply bind_Ret_inv in Hbody as ([] & s2 & Hdereg & Hrest).
  assert (dead this s2) as Hdead.
  { unfold Block_deregister in Hdereg.
    apply bind_Ret_inv in Hdereg as (b2 & s3 & Hb2 & Hdereg).
    apply getBlock_Ret_inv in Hb2 as [-> Hb2].
    destruct (Block.workspace b2) eqn:Hw2; cbn [when] in Hdereg.
    - repeat (apply bind_Ret_inv in Hdereg as (? & ? & _ & Hdereg)).
      unfold updBlock, modify in Hdereg. injection Hdereg as <-.
      unfold dead. look.
      match goal with |- context [blocks ?s !! this] =>
        destruct (blocks s !! this) eqn:E end; [reflexivity|]. exfalso.
      revert Hrest. unfold bind at 1, getBlock. proj.
      by rewrite list_lookup_alter_eq, E.
    - injection Hdereg as <-. unfold dead. by rewrite Hb2, <- Hw2. }
  revert Hrest.
  match goal with |- ?m s2 = _ → _ =>
    assert (preserves (dead this) m) as Hpres
  end.
  { pose proof (dead_dispose_children this this fuel) as Hc.
    pose proof (dead_dispose_inputs this) as Hi.
    pose proof (dead_dispose_connections this) as Hcs.
    pres_dead. }
  intros Hrest. specialize (Hpres s2 Hdead). rewrite Hrest in Hpres.
  exact Hpres.
Qed.

(** C6.  [dispose] is idempotent: after a [dispose] that returned, a
    second [dispose] of the same block returns at once and leaves the
    whole state as it is; so it throws nothing, fires no second Delete
    event and changes nothing in the workspace. *)
Theorem dispose_idempotent (fuel : nat) (this : BlockRef) (healStack : bool)
    (st st' : State) :
  Block_dispose fuel this healStack st = Ret tt st' →
  ∀ fuel' healStack',
    Block_dispose (S fuel') this healStack' st' = Ret tt st'.
Proof.
  intros H fuel' healStack'. apply dispose_returns_dead in H.
  unfold dead in H. apply fmap_Some in H as (b & Hb & Hw).
  cbn [Block_dispose]. mstep. by rewrite <- Hw.
Qed.

Lemma dispose_idempotent_witness :
  ∃ st', Block_dispose 3 0 false (stack3_state None None) = Ret tt st' ∧
    top_blocks st' = [] ∧ Workspace.blockDB_ (ws st') = ∅ ∧
    Block_dispose 1 0 true st' = Ret tt st'.
Proof.
  eexists. split; [vm_compute; reflexivity|]. split; [reflexivity|].
  split; [reflexivity|].
  apply (dispose_idempotent 3 0 false (stack3_state None None)).
  vm_compute. reflexivity.
Defined.

(** ** The order of a disposal (C5) *)

Lemma hoare_run {A} (P : State → Prop) (m : M A) (Q : A → State → Prop)
    (E : State → Prop) (s s' : State) (a : A) :
  hoare P m Q E → P s → m s = Ret a s' → Q a s'.
Proof. intros H Hs Hr. specialize (H s Hs). by rewrite Hr in H. Qed.

Lemma hoare_try_finally {A} (P R Q : State → Prop) (m : M A) (fin : M unit) :
  hoare P m (λ _, R) R → hoare R fin (λ _, Q) Q →
  hoare P (try_finally m fin) (λ _, Q) Q.
Proof.
  intros Hm Hf s Hs. unfold try_finally. specialize (Hm s Hs).
  destruct (m s) as [a s1|e s1|]; [| |done];
    specialize (Hf s1 Hm); by destruct (fin s1).
Qed.

Section DisposeFrames.
Context (this : BlockRef).

(** *** While the block is unplugged *)

Lemma calm_alter sh g t fs (f : Block.t → Block.t) (r : BlockRef) (s : State) :
  (∀ b, shape (f b) = shape b) →
  calm this sh g t fs s → calm this sh g t fs (set_blocks (alter f r) s).
Proof.
  intros Hf (Hsh & ? & ? & ?). split_and!; try done. proj.
  by rewrite lookup_alter_frame.
Qed.

Ltac calm_leaf :=
  intros ? ?;
  first [ assumption
        | apply calm_alter; [done|assumption] ].

Lemma calm_setParent sh g t fs (r : BlockRef) (newParent : option BlockRef) :
  preserves (calm this sh g t fs) (Block_setParent r newParent).
Proof. unfold Block_setParent. pres_with calm_leaf. Qed.
Hint Resolve calm_setParent : pres.

Lemma calm_connect sh g t fs (c other : ConnRef) :
  preserves (calm this sh g t fs) (Connection_connect c other).
Proof. unfold Connection_connect. pres_with calm_leaf. Qed.
Hint Resolve calm_connect : pres.

Lemma calm_disconnect sh g t fs (c : ConnRef) :
  preserves (calm this sh g t fs) (Connection_disconnect c).
Proof. unfold Connection_disconnect. pres_with calm_leaf. Qed.
Hint Resolve calm_disconnect : pres.

Lemma calm_unplug sh g t fs (r : BlockRef) (heal : bool) :
  preserves (calm this sh g t fs) (Block_unplug r heal).
Proof. unfold Block_unplug. pres_with calm_leaf. Qed.

(** *** While the children are disposed of *)

Lemma disposing_alter sh d t0 (f : Block.t → Block.t) (r : BlockRef)
    (s : State) :
  (∀ b, shape (f b) = shape b) ∨ r ≠ this →
  disposing this sh d t0 s → disposing this sh d t0 (set_blocks (alter f r) s).
Proof.
  intros Hf (Hdead & Hsh & ? & ?). split_and!; try done.
  - unfold dead in *. proj. destruct Hf as [Hf|Hne].
    + rewrite lookup_alter_frame; [done|].
      intros b. specialize (Hf b). unfold shape in Hf. congruence.
    + by rewrite list_lookup_alter_ne.
  - proj. destruct Hf as [Hf|Hne].
    + by rewrite lookup_alter_frame.
    + by rewrite list_lookup_alter_ne.
Qed.

Lemma disposing_log sh d t0 (o : Obs) (s : State) :
  is_quiet o = true →
  disposing this sh d t0 s → disposing this sh d t0 (set_trace (λ t, t ++ [o]) s).
Proof.
  intros Ho (? & ? & ? & t & Ht & Hq). split_and!; try done.
  exists (t ++ [o]). proj. rewrite Ht, app_assoc. split; [done|].
  apply Forall_app. split; [done|]. by constructor.
Qed.

Ltac disposing_leaf :=
  intros ? ?;
  first [ assumption
        | apply disposing_alter; [by (left + right)|assumption]
        | apply disposing_log; [done|assumption] ].

Ltac pres_disposing := pres_with disposing_leaf.

Lemma disposing_setParent sh d t0 (r : BlockRef) (newParent : option BlockRef) :
  preserves (disposing this sh d t0) (Block_setParent r newParent).
Proof. unfold Block_setParent. pres_disposing. Qed.
Hint Resolve disposing_setParent : pres.

Lemma disposing_connect sh d t0 (c other : ConnRef) :
  preserves (disposing this sh d t0) (Connection_connect c other).
Proof. unfold Connection_connect. pres_disposing. Qed.
Hint Resolve disposing_connect : pres.

Lemma disposing_disconnect sh d t0 (c : ConnRef) :
  preserves (disposing this sh d t0) (Connection_disconnect c).
Proof. unfold Connection_disconnect. pres_disposing. Qed.
Hint Resolve disposing_disconnect : pres.

Lemma disposing_unplug sh d t0 (r : BlockRef) (heal : bool) :
  preserves (disposing this sh d t0) (Block_unplug r heal).
Proof. unfold Block_unplug. pres_disposing. Qed.
Hint Resolve disposing_unplug : pres.

Lemma disposing_dispose_inputs sh d t0 (r : BlockRef) (inputs : list Input.t) :
  preserves (disposing this sh d t0) (dispose_inputs r inputs).
Proof. induction inputs; cbn; pres_disposing. Qed.
Hint Resolve disposing_dispose_inputs : pres.

Lemma disposing_dispose_connections sh d t0 (cs : list ConnRef) :
  preserves (disposing this sh d t0) (dispose_connections cs).
Proof. induction cs; cbn; pres_disposing. Qed.
Hint Resolve disposing_dispose_connections : pres.

(** With events disabled, disposing of any block fires nothing and
    leaves a dead block as it is. *)
Lemma disposing_dispose sh (fuel : nat) :
  ∀ d t0 r heal, 0 < d →
    preserves (disposing this sh d t0) (Block_dispose fuel r heal).
Proof.
  induction fuel as [|fuel IH]; intros d t0 r heal Hd; cbn [Block_dispose].
  - by intros s Hs.
  - eapply hoare_bind with
      (Q' := λ b s, disposing this sh d t0 s ∧ blocks s !! r = Some b).
    { intros s Hs. unfold getBlock.
      destruct (blocks s !! r) eqn:E; [split; [exact Hs|exact E]|exact Hs]. }
    intros b. destruct (Block.workspace b) eqn:Hw; cbn [negb].
    2:{ intros s [Hs _]. exact Hs. }
    (* a live block is not [this] *)
    intros s [Hs Hb].
    assert (r ≠ this) as Hne.
    { intros ->. destruct Hs as (Hdead & _). unfold dead in Hdead.
      rewrite Hb in Hdead. cbn in Hdead. congruence. }
    clear Hb. revert s Hs.
    apply preserves_bind; [pres_disposing|intros _].
    apply preserves_bind; [pres_disposing|intros _].
    eapply hoare_bind with
      (Q' := λ en s, disposing this sh d t0 s ∧ en = false).
    { intros s Hs. split; [done|]. destruct Hs as (_ & _ & Hd' & _).
      apply bool_decide_eq_false_2. lia. }
    intros en s [Hs ->]. revert s Hs. cbn [when].
    apply preserves_bind; [pres_disposing|intros _].
    eapply hoare_bind with (Q' := λ _, disposing this sh (S d) t0).
    { intros s (? & ? & Hd' & ?). split_and!; try done. proj. cbn.
      by rewrite Hd'. }
    intros _.
    apply hoare_try_finally with (R := disposing this sh (S d) t0).
    + apply preserves_bind; [pres_disposing|intros _].
      apply preserves_bind; [pres_disposing|intros b1].
      apply preserves_bind.
      { generalize (length (Block.childBlocks_ b1)). intros n.
        induction n; [pres_disposing|].
        apply preserves_bind; [pres_disposing|intros bi].
        destruct (Block.childBlocks_ bi !! n); [|pres_disposing].
        apply preserves_bind; [apply IH; lia|intros _; apply IHn]. }
      intros _. pres_disposing.
    + intros s (? & ? & Hd' & ?). split_and!; try done. proj. cbn.
      by rewrite Hd'.
Qed.

End DisposeFrames.

(** The children loop of [dispose], with events disabled. *)
Lemma disposing_children (this r : BlockRef) sh (d : nat) (t0 : list Obs)
    (fuel n : nat) :
  0 < d →
  preserves (disposing this sh d t0)
    ((fix children (n : nat) : M unit :=
        match n with
        | 0 => ret tt
        | S i =>
            bi <- getBlock r;;
            match Block.childBlocks_ bi !! i with
            | Some child => Block_dispose fuel child false;;; children i
            | None => throw TypeError
            end
        end) n).
Proof.
  intros Hd. induction n; [apply preserves_ret|].
  apply preserves_bind; [apply preserves_getBlock|intros bi].
  destruct (Block.childBlocks_ bi !! n); [|apply preserves_throw].
  apply preserves_bind; [by apply disposing_dispose|intros _; apply IHn].
Qed.

Lemma try_finally_Ret_inv {A} (m : M A) (fin : M unit) (s s' : State) (a : A) :
  try_finally m fin s = Ret a s' →
  ∃ s1, m s = Ret a s1 ∧ fin s1 = Ret tt s'.
Proof.
  unfold try_finally. destruct (m s) as [a' s1|e s1|]; [| |done].
  - destruct (fin s1) as [[] s2| |] eqn:Hf; [|done..].
    intros [= -> ->]. eauto.
  - by destruct (fin s1).
Qed.

(** Firing an event while events are enabled. *)
Lemma fire_enabled (e : Event.t) (s : State) :
  Events.disabled_ (ev s) = 0 →
  ∃ s', Events_fire e s = Ret tt s' ∧
    trace s' = trace s ++ ObsFire e
                 :: map (λ f, ObsListener f e) (Workspace.listeners_ (ws s)) ∧
    blocks s' = blocks s ∧ ev s' = ev s.
Proof.
  intros Hen. unfold Events_fire, Events_isEnabled. mstep. rewrite Hen.
  cbn [bool_decide decide_rel]. rewrite bool_decide_eq_true_2 by done.
  repeat mstep. unfold Workspace_fireChangeListener.
  destruct (Event.recordUndo e); repeat mstep.
  - match goal with |- context [bool_decide ?P] => destruct (bool_decide P) end;
      repeat mstep;
      match goal with |- context [call_listeners ?fs e ?s0] =>
        destruct (call_listeners_ws fs e s0)
          as (s' & -> & Hw & He & Hb & _ & _ & Ht)
      end; exists s'; rewrite Ht, Hb, He; proj; by rewrite <- app_assoc.
  - match goal with |- context [call_listeners ?fs e ?s0] =>
      destruct (call_listeners_ws fs e s0)
        as (s' & -> & Hw & He & Hb & _ & _ & Ht)
    end; exists s'; rewrite Ht, Hb, He; proj; by rewrite <- app_assoc.
Qed.

(** Disposing of inputs returns and logs each input and its connection. *)
Lemma dispose_inputs_trace (this : BlockRef) (inputs : list Input.t)
    (s : State) :
  ∃ s', dispose_inputs this inputs s = Ret tt s' ∧
    trace s' = trace s ++ inputs_trace this inputs ∧
    blocks s' = blocks s ∧ ev s' = ev s.
Proof.
  revert s. induction inputs as [|i inputs IH]; intros s.
  - exists s. cbn. by rewrite app_nil_r.
  - cbn [dispose_inputs]. unfold Input_dispose, Connection_dispose.
    destruct (Input.connection i) as [c|] eqn:Hc; repeat mstep.
    + match goal with |- context [dispose_inputs this inputs ?s0] =>
        destruct (IH s0) as (s' & -> & Ht & Hb & He) end.
      exists s'. rewrite Ht, Hb, He. proj. cbn. rewrite Hc.
      by rewrite <- !app_assoc.
    + match goal with |- context [dispose_inputs this inputs ?s0] =>
        destruct (IH s0) as (s' & -> & Ht & Hb & He) end.
      exists s'. rewrite Ht, Hb, He. proj. cbn. rewrite Hc.
      by rewrite <- !app_assoc.
Qed.

Lemma trace_disconnect (t : list Obs) (c : ConnRef) :
  preserves (λ s, trace s = t) (Connection_disconnect c).
Proof.
  unfold Connection_disconnect, Block_setParent.
  pres_with ltac:(intros ? ?; assumption).
Qed.

(** Disposing of connections logs each of them. *)
Lemma dispose_connections_trace (cs : list ConnRef) (t0 : list Obs) :
  hoare (λ s, trace s = t0) (dispose_connections cs)
    (λ _ s', trace s' = t0 ++ map ObsDisposeConnection cs) (λ _, True).
Proof.
  revert t0. induction cs as [|c cs IH]; intros t0.
  - intros s Hs. cbn. by rewrite app_nil_r.
  - cbn [dispose_connections].
    eapply hoare_bind with (Q' := λ _ s, trace s = t0).
    { intros s Hs. unfold Connection_isConnected, bind, getConn.
      by destruct (conns s !! c). }
    intros connected.
    eapply hoare_bind with (Q' := λ _ s, trace s = t0).
    { destruct connected; [|by intros s Hs].
      intros s Hs. pose proof (trace_disconnect t0 c s Hs) as H. cbn [when].
      by destruct (Connection_disconnect c s). }
    intros _.
    eapply hoare_bind with
      (Q' := λ _ s, trace s = (t0 ++ [ObsDisposeConnection c])).
    { intros s Hs. cbn. by rewrite Hs. }
    intros _. intros s Hs. specialize (IH _ s Hs).
    destruct (dispose_connections cs s); [|done..].
    rewrite IH. cbn. by rewrite <- app_assoc.
Qed.

(** *** The children of a block only leave *)

Lemma children_within_alter (this : BlockRef) (l : list BlockRef)
    (f : Block.t → Block.t) (r : BlockRef) (s : State) :
  (∀ b, Block.childBlocks_ (f b) `sublist_of` Block.childBlocks_ b) →
  children_within this l s → children_within this l (set_blocks (alter f r) s).
Proof.
  intros Hf (k & Hk & Hsub). unfold children_within, children_of in *. proj.
  destruct (decide (r = this)) as [->|Hne].
  - rewrite list_lookup_alter_eq.
    destruct (blocks s !! this) as [b|]; [|done]. injection Hk as <-.
    eexists. split; [reflexivity|]. by etrans; [apply Hf|].
  - rewrite list_lookup_alter_ne by done. eauto.
Qed.

Ltac within_leaf :=
  intros ? ?;
  first [ assumption
        | apply children_within_alter;
          [intros ?; first [reflexivity|apply array_without_sublist]
          |assumption] ].
Ltac pres_within := pres_with within_leaf.

Section ChildrenWithin.
Context (this : BlockRef) (l : list BlockRef).

Lemma within_setParent (r : BlockRef) :
  preserves (children_within this l) (Block_setParent r None).
Proof. unfold Block_setParent. cbv beta iota. pres_within. Qed.
Hint Resolve within_setParent : pres.

Lemma within_disconnect (c : ConnRef) :
  preserves (children_within this l) (Connection_disconnect c).
Proof. unfold Connection_disconnect. pres_within. Qed.
Hint Resolve within_disconnect : pres.

Lemma within_unplug (r : BlockRef) :
  preserves (children_within this l) (Block_unplug r false).
Proof. unfold Block_unplug. cbn [andb]. pres_within. Qed.
Hint Resolve within_unplug : pres.

Lemma within_call_listeners (fs : list Listener) (e : Event.t) :
  preserves (children_within this l) (call_listeners fs e).
Proof. induction fs; cbn; pres_within. Qed.
Hint Resolve within_call_listeners : pres.

Lemma within_fire (e : Event.t) :
  preserves (children_within this l) (Events_fire e).
Proof. unfold Events_fire, Workspace_fireChangeListener. pres_within. Qed.
Hint Resolve within_fire : pres.

Lemma within_dispose_inputs (r : BlockRef) (inputs : list Input.t) :
  preserves (children_within this l) (dispose_inputs r inputs).
Proof. induction inputs; cbn; pres_within. Qed.
Hint Resolve within_dispose_inputs : pres.

Lemma within_dispose_connections (cs : list ConnRef) :
  preserves (children_within this l) (dispose_connections cs).
Proof. induction cs; cbn; pres_within. Qed.
Hint Resolve within_dispose_connections : pres.

(** Disposing of a block without healing adds no child to any block. *)
Lemma within_dispose (fuel : nat) (r : BlockRef) :
  preserves (children_within this l) (Block_dispose fuel r false).
Proof.
  revert r. induction fuel as [|fuel IH]; intros r; cbn.
  - by intros s Hs.
  - pres_within.
    match goal with |- preserves _ (?f (length ?k)) =>
      generalize (length k) end.
    intros n. induction n; pres_within.
Qed.

End ChildrenWithin.

(** The children loop of [dispose], taken apart into its calls. *)
Lemma children_loop_run (fuel : nat) (this : BlockRef) (n : nat)
    (s s' : State) :
  (fix children (n : nat) : M unit :=
     match n with
     | 0 => ret tt
     | S i =>
         bi <- getBlock this;;
         match Block.childBlocks_ bi !! i with
         | Some child => Block_dispose fuel child false;;; children i
         | None => throw TypeError
         end
     end) n s = Ret tt s' →
  ∃ visited, length visited = n ∧ children_run fuel this visited s s'.
Proof.
  revert s. induction n as [|n IH]; intros s H.
  - injection H as <-. by exists [].
  - apply bind_Ret_inv in H as (bi & ? & Hbi & H).
    apply getBlock_Ret_inv in Hbi as [-> Hbi].
    destruct (Block.childBlocks_ bi !! n) as [child|] eqn:Hchild; [|done].
    apply bind_Ret_inv in H as ([] & s1 & Hdispose & H).
    destruct (IH _ H) as (rest & Hlen & Hrun).
    exists (child :: rest). split; [by rewrite <- Hlen|].
    cbn [children_run]. split.
    + exists (Block.childBlocks_ bi). unfold children_of.
      by rewrite Hbi, Hlen.
    + by exists s1.
Qed.

(** The blocks that the loop disposed of are dead, and were children of
    the block when the loop began. *)
Lemma children_run_visited (fuel : nat) (this : BlockRef)
    (kids visited : list BlockRef) (s s' : State) :
  children_within this kids s →
  children_run fuel this visited s s' →
  Forall (λ child, child ∈ kids ∧ dead child s') visited.
Proof.
  revert s. induction visited as [|child rest IH]; intros s Hin H; [done|].
  destruct H as ((l & Hl & Hchild) & s1 & Hdispose & Hrest).
  pose proof (hoare_run _ _ _ _ _ _ _ (within_dispose this kids fuel child)
                Hin Hdispose) as Hin1.
  specialize (IH s1 Hin1 Hrest).
  constructor; [|done]. split.
  - destruct Hin as (k & Hk & Hsub). rewrite Hl in Hk. injection Hk as <-.
    eapply elem_of_sublist; [|exact Hsub].
    by eapply list_elem_of_lookup_2.
  - apply dispose_returns_dead in Hdispose.
    clear -Hdispose Hrest. revert s1 Hdispose Hrest.
    induction rest as [|c rest IH]; intros s1 Hdead Hrest.
    + by rewrite Hrest.
    + destruct Hrest as (_ & s2 & Hd & Hrest).
      apply (IH s2); [|done].
      exact (hoare_run _ _ _ _ _ _ _ (dead_dispose child fuel c false) Hdead Hd).
Qed.

(** [Block_deregister] on a live block. *)
Lemma deregister_live (this : BlockRef) (b : Block.t) (s s' : State) :
  blocks s !! this = Some b → Block.workspace b = true →
  Block_deregister this s = Ret tt s' →
  blocks s' = alter (Block.set_workspace false) this (blocks s) ∧
  ev s' = ev s ∧ trace s' = trace s ++ [ObsDeregister this].
Proof.
  intros Hb Hw. unfold Block_deregister. erewrite bind_getBlock by done.
  rewrite Hw. cbn [when]. unfold Workspace_removeTopBlock. repeat mstep.
  destruct (goog_array_remove this _) as [top'|]; [|by repeat mstep].
  repeat mstep. unfold updBlock, modify. intros [= <-]. by proj.
Qed.

(** C5, amended.  [dispose] of a live block, with events enabled, takes
    its steps in this order, each from the state the one before left: it
    removes the block's change handler and unplugs the block; fires the
    Delete event (which the workspace hands to the listeners); disables
    events and takes the block out of the workspace's top blocks and
    registry; disposes of the children, going down the positions of the
    children that the unplugged block has and disposing (by the same
    [dispose], without healing) of the block found at each, which was a
    child and is dead at the end, and no event is fired meanwhile;
    disposes of the block's inputs with their connections; and last of
    its output, previous and next connections, before events are enabled
    again.  When the loop meets no block twice, the blocks it disposes of
    are all the children. *)
Theorem dispose_order (fuel : nat) (this : BlockRef) (healStack : bool)
    (st st' : State) (b : Block.t) :
  Block_dispose (S fuel) this healStack st = Ret tt st' →
  blocks st !! this = Some b →
  Block.workspace b = true →
  Events.disabled_ (ev st) = 0 →
  ∃ s1 s2 s3 s4 s5 s6 s7 s8 kids visited t_children,
    match Block.onchangeWrapper_ b with
    | Some f => Workspace_removeChangeListener f
    | None => ret tt
    end st = Ret tt s1 ∧
    Block_unplug this healStack s1 = Ret tt s2 ∧
    Events_fire (delete_event b (ev st)) s2 = Ret tt s3 ∧
    Events_disable s3 = Ret tt s4 ∧
    Block_deregister this s4 = Ret tt s5 ∧
    children_of s2 this = Some kids ∧
    children_of s5 this = Some kids ∧
    length visited = length kids ∧
    children_run fuel this visited s5 s6 ∧
    Forall (λ child, child ∈ kids ∧ dead child st') visited ∧
    (NoDup visited →
     visited ≡ₚ kids ∧ Forall (λ child, dead child st') kids) ∧
    dispose_inputs this (Block.inputList b) s6 = Ret tt s7 ∧
    dispose_connections (own_slots b)
      (set_blocks (alter (Block.set_inputList []) this) s7) = Ret tt s8 ∧
    Events_enable s8 = Ret tt st' ∧
    trace s6 = trace s5 ++ t_children ∧
    quiet t_children ∧
    trace st' =
      trace st
      ++ ObsFire (delete_event b (ev st))
         :: map (λ f, ObsListener f (delete_event b (ev st)))
                (listeners_after_dispose b (ws st))
      ++ ObsDeregister this :: t_children
      ++ inputs_trace this (Block.inputList b)
      ++ map ObsDisposeConnection (own_slots b).
Proof.
  intros H Hb Hw Hen. revert H. cbn [Block_dispose]. mstep. rewrite Hw.
  cbn [negb].
  (* the change handler *)
  set (fs := listeners_after_dispose b (ws st)).
  assert (∃ s1, match Block.onchangeWrapper_ b with
                | Some f => Workspace_removeChangeListener f
                | None => ret ()
                end st = Ret tt s1 ∧
                calm this (shape b) (ev st) (trace st) fs s1)
    as (s1 & Hs1 & Hcalm1).
  { unfold fs, listeners_after_dispose.
    destruct (Block.onchangeWrapper_ b); eexists; (split; [reflexivity|]);
      by split_and!; proj; rewrite ?Hb. }
  rewrite (bind_Ret _ _ _ _ _ Hs1).
  (* unplug *)
  intros H. apply bind_Ret_inv in H as ([] & s2 & Hunplug & H).
  pose proof (hoare_run _ _ _ _ _ _ _ (calm_unplug this _ _ _ _ _ _)
                Hcalm1 Hunplug) as (Hsh2 & Hev2 & Htr2 & Hfs2).
  apply fmap_Some in Hsh2 as (b2 & Hb2 & Hsh2).
  (* the Delete event *)
  revert H. unfold Events_isEnabled at 1. mstep. rewrite Hev2, Hen.
  rewrite bool_decide_eq_true_2 by done. cbn [when].
  unfold Events_BlockDelete_new, Events_Abstract_new. repeat mstep.
  rewrite Hev2.
  assert (Block.id b2 = Block.id b) as -> by (unfold shape in Hsh2; congruence).
  fold (delete_event b (ev st)). set (e := delete_event b (ev st)).
  destruct (fire_enabled e s2) as (s3 & Hfire & Htr3 & Hbl3 & Hev3);
    [by rewrite Hev2|].
  rewrite (bind_Ret _ _ _ _ _ Hfire).
  intros H. apply bind_Ret_inv in H as ([] & s4 & Hdis & H).
  assert (blocks s4 = blocks s3 ∧ trace s4 = trace s3
          ∧ Events.disabled_ (ev s4) = 1) as (Hbl4 & Htr4 & Hev4).
  { revert Hdis. unfold Events_disable, updEv, modify. intros [= <-]. proj.
    cbn. by rewrite Hev3, Hev2, Hen. }
  apply try_finally_Ret_inv in H as (s8 & Hbody & Hfin).
  assert (trace st' = trace s8 ∧ blocks st' = blocks s8) as [Htr' Hbl'].
  { revert Hfin. unfold Events_enable, updEv, modify. by intros [= <-]. }
  (* deregistration *)
  apply bind_Ret_inv in Hbody as ([] & s5 & Hdereg & H).
  assert (blocks s4 !! this = Some b2) as Hb4 by (by rewrite Hbl4, Hbl3).
  assert (Block.workspace b2 = true) as Hw2
    by (unfold shape in Hsh2; congruence).
  destruct (deregister_live this b2 s4 s5 Hb4 Hw2 Hdereg)
    as (Hbl5 & Hev5 & Htr5).
  assert (blocks s5 !! this = Some (Block.set_workspace false b2)) as Hb5
    by (by rewrite Hbl5, list_lookup_alter_eq, Hb4).
  assert (disposing this (shape (Block.set_workspace false b2)) 1
            (trace s5) s5) as Hdisp.
  { split_and!.
    - unfold dead. by rewrite Hb5.
    - by rewrite Hb5.
    - by rewrite Hev5.
    - exists []. split; [by rewrite app_nil_r|constructor]. }
  assert (trace s5 = trace st ++ ObsFire e :: map (λ f, ObsListener f e) fs
                       ++ [ObsDeregister this]) as Htr5'.
  { rewrite Htr5, Htr4, Htr3, Htr2, Hfs2. by rewrite <- app_assoc. }
  (* the children *)
  apply bind_Ret_inv in H as (b5 & ? & Hb5' & H).
  apply getBlock_Ret_inv in Hb5' as [-> Hb5'].
  rewrite Hb5 in Hb5'. injection Hb5' as <-.
  apply bind_Ret_inv in H as ([] & s6 & Hchildren & H).
  pose proof (hoare_run _ _ _ _ _ _ _
                (disposing_children this this _ 1 (trace s5) fuel _
                   (Nat.lt_0_1)) Hdisp Hchildren)
    as (_ & Hsh6 & _ & t_children & Htr6 & Hquiet).
  apply fmap_Some in Hsh6 as (b6 & Hb6 & Hsh6).
  apply children_loop_run in Hchildren as (visited & Hlen & Hrun).
  assert (children_of s5 this = Some (Block.childBlocks_ b2)) as Hkids5
    by (unfold children_of; by rewrite Hb5).
  assert (children_within this (Block.childBlocks_ b2) s5) as Hin5
    by (by exists (Block.childBlocks_ b2)).
  pose proof (children_run_visited fuel this _ visited s5 s6 Hin5 Hrun)
    as Hvisited.
  (* the inputs and the connections *)
  revert H. mstep.
  assert (Block.inputList b6 = Block.inputList b) as ->
    by (unfold shape in *; cbn in *; congruence).
  destruct (dispose_inputs_trace this (Block.inputList b) s6)
    as (s7 & Hinputs & Htr7 & Hbl7 & _).
  rewrite (bind_Ret _ _ _ _ _ Hinputs). repeat mstep.
  erewrite bind_getBlock
    by (look; rewrite Hbl7, Hb6; reflexivity).
  assert (Block_getConnections_ (Block.set_inputList [] b6) = own_slots b)
    as ->.
  { unfold Block_getConnections_, own_slots, shape in *. cbn in *.
    rewrite app_nil_r.
    assert (Block.outputConnection b6 = Block.outputConnection b) as ->
      by congruence.
    assert (Block.previousConnection b6 = Block.previousConnection b) as ->
      by congruence.
    assert (Block.nextConnection b6 = Block.nextConnection b) as ->
      by congruence.
    done. }
  intros H.
  match type of H with _ ?s0 = _ =>
    pose proof (hoare_run _ _ _ _ s0 _ _
                  (dispose_connections_trace _ (trace s7)) eq_refl H) as Htr8
  end.
  cbn beta in Htr8.
  exists s1, s2, s3, s4, s5, s6, s7, s8, (Block.childBlocks_ b2), visited,
    t_children.
  assert (Forall (λ child, child ∈ Block.childBlocks_ b2 ∧ dead child st')
            visited) as Hvisited'.
  { eapply Forall_impl; [exact Hvisited|]. intros child [Hin Hdead].
    split; [done|].
    pose proof (hoare_run _ _ _ _ _ _ _
                  (dead_dispose_inputs child this (Block.inputList b))
                  Hdead Hinputs) as Hdead7.
    assert (dead child (set_blocks (alter (Block.set_inputList []) this) s7))
      as Hdead7' by (by apply dead_alter).
    pose proof (hoare_run _ _ _ _ _ _ _
                  (dead_dispose_connections child (own_slots b))
                  Hdead7' H) as Hdead8.
    unfold dead in *. by rewrite Hbl'. }
  split_and!; try done.
  - unfold children_of. by rewrite Hb2.
  - intros Hnd.
    assert (visited ≡ₚ Block.childBlocks_ b2) as Hperm.
    { apply submseteq_length_Permutation; [|by rewrite Hlen].
      apply NoDup_submseteq; [done|].
      intros child Hchild.
      by apply (proj1 (Forall_forall _ _) Hvisited') in Hchild as [? _]. }
    split; [done|]. rewrite <- Hperm.
    eapply Forall_impl; [exact Hvisited'|]. by intros child [_ ?].
  - rewrite Htr', Htr8, Htr7, Htr6, Htr5'.
    rewrite <- !app_assoc. cbn. by rewrite <- !app_assoc.
Qed.

(** C5 as stated fails: the Delete event is the first step of the
    disposal, not the last, and the block leaves the workspace before
    its children, inputs and connections are disposed of. *)
Lemma dispose_fires_delete_first :
  ∃ st' e, Block_dispose 3 0 false nested_state = Ret tt st' ∧
    e = Event.mk Event.Delete "s" "" true ∧
    position (ObsFire e) (trace st') = Some 0 ∧
    position (ObsDeregister 0) (trace st') = Some 2 ∧
    position (ObsDeregister 1) (trace st') = Some 3 ∧
    position (ObsDisposeInput 0 "ARG") (trace st') = Some 6 ∧
    position (ObsDisposeConnection 0) (trace st') = Some 8.
Proof.
  eexists _, _. split; [vm_compute; reflexivity|]. split; [reflexivity|].
  by split_and!.
Qed.

Lemma dispose_order_witness :
  ∃ st' s1 s2 s3 s4 s5 s6 s7 s8,
    Block_dispose 3 0 false nested_state = Ret tt st' ∧
    s1 = nested_state ∧
    Block_unplug 0 false s1 = Ret tt s2 ∧
    Events_fire (Event.mk Event.Delete "s" "" true) s2 = Ret tt s3 ∧
    Events_disable s3 = Ret tt s4 ∧
    Block_deregister 0 s4 = Ret tt s5 ∧
    children_of s2 0 = Some [1] ∧
    children_run 2 0 [1] s5 s6 ∧
    dead 1 st' ∧
    dispose_inputs 0 [Input.mk INPUT_VALUE "ARG" (Some 2) []] s6 = Ret tt s7 ∧
    dispose_connections [0; 1]
      (set_blocks (alter (Block.set_inputList []) 0) s7) = Ret tt s8 ∧
    Events_enable s8 = Ret tt st' ∧
    trace st' =
      [ObsFire (Event.mk Event.Delete "s" "" true);
       ObsListener (HostFn 3) (Event.mk Event.Delete "s" "" true);
       ObsDeregister 0;
       ObsDeregister 1; ObsDisposeInput 1 "ROW"; ObsDisposeConnection 3;
       ObsDisposeInput 0 "ARG"; ObsDisposeConnection 2;
       ObsDisposeConnection 0; ObsDisposeConnection 1].
Proof.
  pose (st' := match Block_dispose 3 0 false nested_state with
               | Ret _ s => s
               | _ => initial_state
               end).
  assert (Block_dispose 3 0 false nested_state = Ret tt st') as H
    by (vm_compute; reflexivity).
  destruct (dispose_order 2 0 false nested_state st' _ H eq_refl eq_refl
              eq_refl)
    as (s1 & s2 & s3 & s4 & s5 & s6 & s7 & s8 & kids & visited & t
        & H1 & H2 & H3 & H4 & H5 & Hk2 & Hk5 & Hlen & Hrun & Hvis & _
        & H6 & H7 & H8 & Ht6 & Hq & Ht).
  injection H1 as <-.
  assert (kids = [1]) as ->.
  { revert H2 Hk2. vm_compute. intros [= <-]. by intros [= <-]. }
  destruct visited as [|child [|]]; try done.
  assert (child = 1) as ->.
  { destruct Hrun as ((l & Hl & Hchild) & _). rewrite Hk5 in Hl.
    injection Hl as <-. by injection Hchild as <-. }
  apply Forall_cons in Hvis as [[_ Hdead] _].
  assert (t = [ObsDeregister 1; ObsDisposeInput 1 "ROW"; ObsDisposeConnection 3])
    as ->.
  { assert (trace st' = [ObsFire (Event.mk Event.Delete "s" "" true);
       ObsListener (HostFn 3) (Event.mk Event.Delete "s" "" true);
       ObsDeregister 0] ++
       [ObsDeregister 1; ObsDisposeInput 1 "ROW"; ObsDisposeConnection 3] ++
       [ObsDisposeInput 0 "ARG"; ObsDisposeConnection 2;
        ObsDisposeConnection 0; ObsDisposeConnection 1]) as Ht'
      by reflexivity.
    rewrite Ht' in Ht. apply (app_inv_head [_; _; _]) in Ht.
    by apply app_inv_tail in Ht. }
  exists st', nested_state, s2, s3, s4, s5, s6, s7, s8.
  split_and!; try done.
Defined.

(** ** Unplugging with healing (C2) *)

(** Fields of records built by setters. *)
Ltac fields :=
  cbn [Connection.owner Connection.kind Connection.checks
       Connection.targetConnection Connection.disposed
       Connection.set_targetConnection Connection.set_checks
       Connection.set_disposed
       Block.id Block.type Block.outputConnection Block.nextConnection
       Block.previousConnection Block.inputList Block.parentBlock_
       Block.childBlocks_ Block.isShadow_ Block.workspace
       Block.onchangeWrapper_ Block.set_parentBlock_ Block.set_childBlocks_
       Block.map_childBlocks_ Block.set_workspace
       non_null when isSuperior kinds_compatible andb negb].

Ltac unfold_method :=
  first
    [ progress unfold Block_setParent at 1
    | progress unfold Block_getNextBlock at 1
    | progress unfold Connection_targetBlock at 1
    | progress unfold Connection_disconnect at 1
    | progress unfold Connection_checkType_ at 1
    | progress unfold Connection_connect at 1
    | progress unfold slot_isConnected at 1
    | progress unfold Connection_isConnected at 1
    | progress unfold Block_workspace at 1
    | progress unfold Workspace_addTopBlock at 1
    | progress unfold Workspace_removeTopBlock at 1 ].

(** Runs a method on a state, using the given facts about the fields of
    the blocks and connections it meets. *)
Ltac run_with HQo HQp HQn HQpar HQw HRo HRp HRpar HRw Hpn_o Hpn_k Hpn_t
    Hqp_o Hqp_k Hqp_t Hqn_o Hqn_k Hqn_t Hrp_o Hrp_k Hrp_t :=
  repeat first
    [ mstep
    | progress fields
    | progress rewrite ?HQo, ?HQp, ?HQn, ?HQpar, ?HQw, ?HRo, ?HRp, ?HRpar,
        ?HRw, ?Hpn_o, ?Hpn_k, ?Hpn_t, ?Hqp_o, ?Hqp_k, ?Hqp_t, ?Hqn_o,
        ?Hqn_k, ?Hqn_t, ?Hrp_o, ?Hrp_k, ?Hrp_t
    | rewrite decide_False by congruence
    | unfold_method ].

(** C2.  In a stack of three blocks P, Q, R joined through previous and
    next connections, [Q.unplug(true)] returns with both connections of Q
    unattached, Q a top block without a parent and R taken off the
    children of Q; P's freed connection is joined to R's previous
    connection exactly when the type check between the two succeeds: R is
    then a child of P, in place of Q, and is taken off the top blocks
    again, so that only Q has joined them.  When the check fails, both
    ends stay unattached and R is left as a top block of its own. *)
Theorem unplug_heals_compatible (st : State) (P Q R : BlockRef)
    (pn qp qn rp : ConnRef) (ok : bool) :
  statement_stack st P Q R pn qp qn rp →
  check_of st pn rp = Some ok →
  ∃ st', Block_unplug Q true st = Ret tt st' ∧
    target_of st' qp = Some None ∧
    target_of st' qn = Some None ∧
    parent_of st' Q = Some None ∧
    children_of st' Q = array_without R <$> children_of st Q ∧
    (if ok
     then target_of st' pn = Some (Some rp) ∧
          target_of st' rp = Some (Some pn) ∧
          parent_of st' R = Some (Some P) ∧
          children_of st' P
          = (λ l, array_without Q l ++ [R]) <$> children_of st P ∧
          goog_array_remove R (top_blocks st ++ [Q; R]) = Some (top_blocks st') ∧
          (R ∉ top_blocks st → top_blocks st' = top_blocks st ++ [Q])
     else target_of st' pn = Some None ∧
          target_of st' rp = Some None ∧
          parent_of st' R = Some None ∧
          children_of st' P = array_without Q <$> children_of st P ∧
          top_blocks st' = top_blocks st ++ [Q; R]).
Proof.
  intros (HPQ & HQR & HPR & [bP HbP] & (bQ & HbQ & HQo & HQp & HQn & HQpar & HQw)
          & (bR & HbR & HRo & HRp & HRpar & HRw)
          & (cpn & Hpn & Hpn_o & Hpn_k & Hpn_t)
          & (cqp & Hqp & Hqp_o & Hqp_k & Hqp_t)
          & (cqn & Hqn & Hqn_o & Hqn_k & Hqn_t)
          & (crp & Hrp & Hrp_o & Hrp_k & Hrp_t)) Hok.
  assert (pn ≠ qp ∧ pn ≠ qn ∧ pn ≠ rp ∧ qp ≠ qn ∧ qp ≠ rp ∧ qn ≠ rp)
    as (? & ? & ? & ? & ? & ?) by (split_and!; congruence).
  unfold check_of in Hok. rewrite Hpn, Hrp in Hok. cbn in Hok.
  injection Hok as Hok.
  unfold Block_unplug.
  run_with HQo HQp HQn HQpar HQw HRo HRp HRpar HRw Hpn_o Hpn_k Hpn_t
      Hqp_o Hqp_k Hqp_t Hqn_o Hqn_k Hqn_t Hrp_o Hrp_k Hrp_t.
  rewrite Hok. destruct ok.
  - run_with HQo HQp HQn HQpar HQw HRo HRp HRpar HRw Hpn_o Hpn_k Hpn_t
      Hqp_o Hqp_k Hqp_t Hqn_o Hqn_k Hqn_t Hrp_o Hrp_k Hrp_t.
    rewrite Hok.
    run_with HQo HQp HQn HQpar HQw HRo HRp HRpar HRw Hpn_o Hpn_k Hpn_t
      Hqp_o Hqp_k Hqp_t Hqn_o Hqn_k Hqn_t Hrp_o Hrp_k Hrp_t.
    cbn [Workspace.topBlocks_ Workspace.set_topBlocks_].
    destruct (goog_array_remove R ((Workspace.topBlocks_ (ws st) ++ [Q]) ++ [R]))
      as [top'|] eqn:Htop.
    2:{ apply goog_array_remove_None in Htop. exfalso. apply Htop.
        apply elem_of_app. right. apply list_elem_of_singleton. done. }
    run_with HQo HQp HQn HQpar HQw HRo HRp HRpar HRw Hpn_o Hpn_k Hpn_t
      Hqp_o Hqp_k Hqp_t Hqn_o Hqn_k Hqn_t Hrp_o Hrp_k Hrp_t.
    unfold modify.
    eexists. split; [reflexivity|].
    unfold target_of, parent_of, children_of, top_blocks. look.
    rewrite HbP, HbQ, HbR, Hpn, Hqp, Hqn, Hrp. cbn. fields.
    split_and!; try done.
    + by rewrite <- Htop, <- app_assoc.
    + intros HR. rewrite (goog_array_remove_middle R (_ ++ [Q]) []) in Htop.
      * rewrite app_nil_r in Htop. by injection Htop as <-.
      * intros [?|Hin%list_elem_of_singleton]%elem_of_app; [done|congruence].
  - unfold modify. eexists. split; [reflexivity|].
    unfold target_of, parent_of, children_of, top_blocks. look.
    rewrite HbP, HbQ, HbR, Hpn, Hqp, Hqn, Hrp. cbn. fields.
    rewrite <- app_assoc. by split_and!.
Qed.

Lemma stack3_is_stack (checkP checkR : option (list string)) :
  statement_stack (stack3_state checkP checkR) 0 1 2 1 2 3 4.
Proof.
  unfold statement_stack, joined.
  split_and!; try done; eexists; by split_and!.
Qed.

Lemma unplug_heals_compatible_witness :
  (∃ st', Block_unplug 1 true (stack3_state None None) = Ret tt st' ∧
     target_of st' 2 = Some None ∧ target_of st' 3 = Some None ∧
     parent_of st' 1 = Some None ∧ children_of st' 1 = Some [] ∧
     target_of st' 1 = Some (Some 4) ∧ target_of st' 4 = Some (Some 1) ∧
     parent_of st' 2 = Some (Some 0) ∧ children_of st' 0 = Some [2] ∧
     top_blocks st' = [0; 1]) ∧
  (∃ st', Block_unplug 1 true (stack3_state (Some ["Number"]) (Some ["Text"]))
          = Ret tt st' ∧
     target_of st' 2 = Some None ∧ target_of st' 3 = Some None ∧
     parent_of st' 1 = Some None ∧ children_of st' 1 = Some [] ∧
     target_of st' 1 = Some None ∧ target_of st' 4 = Some None ∧
     parent_of st' 2 = Some None ∧ children_of st' 0 = Some [] ∧
     top_blocks st' = [0; 1; 2]).
Proof.
  split.
  - destruct (unplug_heals_compatible (stack3_state None None) 0 1 2 1 2 3 4
                true (stack3_is_stack _ _) eq_refl)
      as (st' & ? & ? & ? & ? & ? & ? & ? & ? & ? & _ & Htop).
    exists st'. split_and!; try done. apply Htop.
    intros Hin. by apply list_elem_of_singleton in Hin.
  - destruct (unplug_heals_compatible
                (stack3_state (Some ["Number"]) (Some ["Text"])) 0 1 2 1 2 3 4
                false (stack3_is_stack _ _) eq_refl)
      as (st' & ? & ? & ? & ? & ? & ? & ? & ? & ? & ?).
    by exists st'.
Defined.

(** * More properties of the workspace and block API *)

(** ** Lists of the workspace *)

Lemma set_topBlocks_same (st : State) :
  set_ws (Workspace.set_topBlocks_ (top_blocks st)) st = st.
Proof. by destruct st as [? ? [] ? ? ?]. Qed.

Lemma set_listeners_same (st : State) :
  set_ws (Workspace.set_listeners_ (Workspace.listeners_ (ws st))) st = st.
Proof. by destruct st as [? ? [] ? ? ?]. Qed.

(** X1.  [removeTopBlock] of a block that is not a top block throws and
    leaves the state as it is; otherwise it takes the first occurrence of
    the block out of the list, keeps the order of the others and changes
    nothing else in the state.  After [addTopBlock] of a block that was
    not a top block, [removeTopBlock] gives the state back. *)
Theorem removeTopBlock_cases (block : BlockRef) (st : State) :
  (block ∉ top_blocks st →
   (∃ msg, Workspace_removeTopBlock block st = Raise (Thrown msg) st) ∧
   (Workspace_addTopBlock block;;; Workspace_removeTopBlock block) st
   = Ret tt st) ∧
  (∀ before after,
     top_blocks st = before ++ block :: after → block ∉ before →
     Workspace_removeTopBlock block st
     = Ret tt (set_ws (Workspace.set_topBlocks_ (before ++ after)) st)).
Proof.
  split.
  - intros Habs. split.
    + unfold Workspace_removeTopBlock. mstep.
      apply goog_array_remove_None in Habs. unfold top_blocks in Habs.
      rewrite Habs. eauto.
    + unfold Workspace_addTopBlock, Workspace_removeTopBlock.
      repeat mstep. cbn [Workspace.topBlocks_ Workspace.set_topBlocks_].
      rewrite (goog_array_remove_middle block _ []) by done.
      rewrite app_nil_r. repeat mstep. unfold modify. f_equal.
      by destruct st as [? ? [] ? ? ?].
  - intros before after Htop Hb. unfold Workspace_removeTopBlock. mstep.
    unfold top_blocks in Htop. rewrite Htop.
    by rewrite goog_array_remove_middle by done.
Qed.

Lemma removeTopBlock_cases_witness :
  ((∃ msg, Workspace_removeTopBlock 5 family_state
           = Raise (Thrown msg) family_state) ∧
   (Workspace_addTopBlock 5;;; Workspace_removeTopBlock 5) family_state
   = Ret tt family_state) ∧
  Workspace_removeTopBlock 0 listed_twice_state
  = Ret tt (set_ws (Workspace.set_topBlocks_ [1; 2; 0]) listed_twice_state).
Proof.
  split.
  - apply (proj1 (removeTopBlock_cases 5 family_state)). apply not_elem_of_nil.
  - apply (proj2 (removeTopBlock_cases 0 listed_twice_state) [1] [2; 0]).
    + reflexivity.
    + intros H. by apply list_elem_of_singleton in H.
Defined.

(** X2.  [removeChangeListener] of a function that is not registered
    returns and leaves the state as it is (it does not throw, unlike
    [removeTopBlock]); otherwise it takes out the first registration of
    the function, keeps the order of the others and changes nothing else
    in the state.  After
    [addChangeListener] of a function that was not registered,
    [removeChangeListener] gives the state back. *)
Theorem removeChangeListener_cases (func : Listener) (st : State) :
  (func ∉ Workspace.listeners_ (ws st) →
   Workspace_removeChangeListener func st = Ret tt st ∧
   (Workspace_addChangeListener func;;; Workspace_removeChangeListener func) st
   = Ret tt st) ∧
  (∀ before after,
     Workspace.listeners_ (ws st) = before ++ func :: after →
     func ∉ before →
     Workspace_removeChangeListener func st
     = Ret tt (set_ws (Workspace.set_listeners_ (before ++ after)) st)).
Proof.
  split.
  - intros Habs. split.
    + apply goog_array_remove_None in Habs.
      unfold Workspace_removeChangeListener, array_without, updWs, modify.
      f_equal. unfold set_ws. rewrite Habs. by destruct st as [? ? [] ? ? ?].
    + unfold Workspace_addChangeListener, Workspace_removeChangeListener,
        array_without.
      repeat mstep. unfold modify. f_equal. unfold set_ws. proj.
      cbn [Workspace.listeners_ Workspace.set_listeners_].
      rewrite (goog_array_remove_middle func _ []) by done.
      rewrite app_nil_r. by destruct st as [? ? [] ? ? ?].
  - intros before after Hl Hb.
    unfold Workspace_removeChangeListener, array_without, updWs, modify.
    f_equal. unfold set_ws. by rewrite Hl, goog_array_remove_middle by done.
Qed.

Lemma removeChangeListener_cases_witness :
  (Workspace_removeChangeListener (HostFn 1) initial_state
   = Ret tt initial_state ∧
   (Workspace_addChangeListener (HostFn 1);;;
    Workspace_removeChangeListener (HostFn 1)) initial_state
   = Ret tt initial_state) ∧
  Workspace_removeChangeListener (HostFn 1) registered_twice_state
  = Ret tt (set_ws (Workspace.set_listeners_ [HostFn 2; HostFn 3; HostFn 1])
              registered_twice_state).
Proof.
  split.
  - apply (proj1 (removeChangeListener_cases (HostFn 1) initial_state)).
    apply not_elem_of_nil.
  - apply (proj2 (removeChangeListener_cases (HostFn 1) registered_twice_state)
             [HostFn 2] [HostFn 3; HostFn 1]).
    + reflexivity.
    + intros H. by apply list_elem_of_singleton in H.
Defined.

(** ** Firing a change *)

Lemma fireChangeListener_host_recorded (call : Listener → Event.t → M unit)
    (fuel : nat) (e : Event.t) (st : State) :
  Workspace_fireChangeListener_host call fuel e st
  = call_listeners_from call fuel 0 e (recorded e st).
Proof.
  unfold Workspace_fireChangeListener_host, recorded.
  destruct (Event.recordUndo e); repeat mstep; [|done].
  match goal with |- context [bool_decide ?P] => destruct (bool_decide P) end;
    repeat mstep; f_equal; by destruct st as [? ? [] ? ? ?].
Qed.

(** Listeners that leave the list of listeners alone are called one after
    the other as the list has them. *)
Lemma call_listeners_from_each (call : Listener → Event.t → M unit)
    (e : Event.t) (fs : list Listener) :
  (∀ f s, f ∈ fs →
     match call f e s with
     | Ret _ s' => Workspace.listeners_ (ws s') = Workspace.listeners_ (ws s)
     | _ => True
     end) →
  ∀ fuel i s,
    Workspace.listeners_ (ws s) = fs → i ≤ length fs → length fs < fuel + i →
    call_listeners_from call fuel i e s = call_each call (drop i fs) e s.
Proof.
  intros Hkeep fuel. induction fuel as [|fuel IH]; intros i s Hfs Hi Hfuel.
  { cbn in Hfuel. lia. }
  cbn [call_listeners_from]. mstep. rewrite Hfs.
  destruct (fs !! i) as [f|] eqn:Hf.
  - rewrite (drop_S _ _ _ Hf). cbn [call_each]. repeat mstep.
    set (s0 := set_trace (λ t, t ++ [ObsListener f e]) s).
    pose proof (Hkeep f s0 (list_elem_of_lookup_2 _ _ _ Hf)) as Hk.
    unfold bind. destruct (call f e s0) as [[] s1|x s1|]; [|done..].
    apply IH.
    + by rewrite Hk.
    + apply lookup_lt_Some in Hf. lia.
    + lia.
  - apply lookup_ge_None in Hf. by rewrite drop_ge.
Qed.

(** Listeners that only look at the event: the loop is [call_listeners]. *)
Lemma call_each_observers (fs : list Listener) (e : Event.t) (s : State) :
  call_each (λ _ _, ret tt) fs e s = call_listeners fs e s.
Proof.
  revert s. induction fs as [|f fs IH]; intros s; [done|].
  cbn [call_each call_listeners]. repeat mstep. apply IH.
Qed.

(** X3.  [fireChangeListener] records the event before it calls any
    listener: an event whose [recordUndo] is set is on the undo stack,
    and the redo stack empty, when the first listener runs.  It then reads
    [listeners_[i]] from the array as it is at each turn.  Listeners that
    return and leave the array alone are each called once, in the order
    of registration.  A listener that throws ends the call: the
    listeners after it are not called and the event stays recorded.  A
    listener that unregisters itself makes the loop skip the listener
    registered after it.  With listeners that only look at the event the
    call is [Workspace_fireChangeListener]. *)
Theorem fireChangeListener_effect (call : Listener → Event.t → M unit)
    (e : Event.t) (st : State) :
  (∀ fuel,
     Workspace_fireChangeListener_host call fuel e st
     = call_listeners_from call fuel 0 e (recorded e st)) ∧
  (∀ fuel,
     (∀ f s, f ∈ Workspace.listeners_ (ws st) →
        match call f e s with
        | Ret _ s' => Workspace.listeners_ (ws s') = Workspace.listeners_ (ws s)
        | _ => True
        end) →
     length (Workspace.listeners_ (ws st)) < fuel →
     Workspace_fireChangeListener_host call fuel e st
     = call_each call (Workspace.listeners_ (ws st)) e (recorded e st)) ∧
  (∀ fuel f rest x s1,
     Workspace.listeners_ (ws st) = f :: rest →
     call f e (set_trace (λ t, t ++ [ObsListener f e]) (recorded e st))
     = Raise x s1 →
     Workspace_fireChangeListener_host call (S fuel) e st = Raise x s1) ∧
  (∀ fuel f g rest s1,
     Workspace.listeners_ (ws st) = f :: g :: rest →
     call f e (set_trace (λ t, t ++ [ObsListener f e]) (recorded e st))
     = Ret tt s1 →
     Workspace.listeners_ (ws s1) = g :: rest →
     Workspace_fireChangeListener_host call (S (S fuel)) e st
     = match rest with
       | [] => Ret tt s1
       | h :: _ =>
           (log (ObsListener h e);;; call h e;;;
            call_listeners_from call fuel 2 e) s1
       end) ∧
  (∀ fuel, length (Workspace.listeners_ (ws st)) < fuel →
     Workspace_fireChangeListener_host (λ _ _, ret tt) fuel e st
     = Workspace_fireChangeListener e st).
Proof.
  assert (Workspace.listeners_ (ws (recorded e st))
          = Workspace.listeners_ (ws st)) as Hfs.
  { unfold recorded. by destruct (Event.recordUndo e). }
  split_and!.
  - intros fuel. apply fireChangeListener_host_recorded.
  - intros fuel Hkeep Hfuel. rewrite fireChangeListener_host_recorded.
    rewrite (call_listeners_from_each call e (Workspace.listeners_ (ws st)));
      [done|done|done|lia|lia].
  - intros fuel f rest x s1 Hl Hthrow.
    rewrite fireChangeListener_host_recorded. cbn [call_listeners_from].
    mstep. rewrite Hfs, Hl. cbn [lookup list_lookup]. repeat mstep.
    by rewrite (bind_Raise _ _ _ _ _ Hthrow).
  - intros fuel f g rest s1 Hl Hcall Hl1.
    rewrite fireChangeListener_host_recorded. cbn [call_listeners_from].
    mstep. rewrite Hfs, Hl. cbn [lookup list_lookup]. repeat mstep.
    rewrite (bind_Ret _ _ _ _ _ Hcall). mstep. rewrite Hl1.
    by destruct rest.
  - intros fuel Hfuel. rewrite fireChangeListener_host_recorded.
    rewrite (call_listeners_from_each _ e (Workspace.listeners_ (ws st)));
      [|by intros|done|lia|lia].
    rewrite drop_0, call_each_observers.
    unfold Workspace_fireChangeListener, recorded.
    destruct (Event.recordUndo e); repeat mstep; [|done].
    match goal with |- context [bool_decide ?P] => destruct (bool_decide P) end;
      repeat mstep; f_equal; by destruct st as [? ? [] ? ? ?].
Qed.

Lemma fireChangeListener_effect_witness :
  Workspace_fireChangeListener_host example_call 3 (ev_create "b" "")
    (listening_state [HostFn 2; HostFn 3])
  = Ret tt
      (set_trace (λ _, [ObsListener (HostFn 2) (ev_create "b" "");
                        ObsListener (HostFn 3) (ev_create "b" "")])
         (set_ws (Workspace.set_undoStack_ [ev_create "b" ""])
            (listening_state [HostFn 2; HostFn 3]))) ∧
  Workspace_fireChangeListener_host example_call 2 (ev_create "b" "")
    (listening_state [HostFn 1; HostFn 2])
  = Raise (Thrown "listener failed")
      (set_trace (λ _, [ObsListener (HostFn 1) (ev_create "b" "")])
         (set_ws (Workspace.set_undoStack_ [ev_create "b" ""])
            (listening_state [HostFn 1; HostFn 2]))) ∧
  Workspace_fireChangeListener_host example_call 3 (ev_create "b" "")
    (listening_state [HostFn 0; HostFn 2; HostFn 3])
  = Ret tt
      (set_trace (λ _, [ObsListener (HostFn 0) (ev_create "b" "");
                        ObsListener (HostFn 3) (ev_create "b" "")])
         (set_ws (Workspace.set_undoStack_ [ev_create "b" ""])
            (listening_state [HostFn 2; HostFn 3]))).
Proof.
  split_and!.
  - rewrite (proj1 (proj2 (fireChangeListener_effect example_call
                             (ev_create "b" "")
                             (listening_state [HostFn 2; HostFn 3])))).
    + reflexivity.
    + intros f s Hf. cbn in Hf.
      repeat (apply elem_of_cons in Hf as [->|Hf]; [done|]).
      by apply elem_of_nil in Hf.
    + cbn. lia.
  - by apply (proj1 (proj2 (proj2 (fireChangeListener_effect example_call
                                     (ev_create "b" "")
                                     (listening_state [HostFn 1; HostFn 2]))))
               1 (HostFn 1) [HostFn 2]).
  - by rewrite (proj1 (proj2 (proj2 (proj2 (fireChangeListener_effect
                   example_call (ev_create "b" "")
                   (listening_state [HostFn 0; HostFn 2; HostFn 3])))))
                  1 (HostFn 0) (HostFn 2) [HostFn 3]
                  (set_trace (λ _, [ObsListener (HostFn 0) (ev_create "b" "")])
                     (set_ws (Workspace.set_undoStack_ [ev_create "b" ""])
                        (listening_state [HostFn 2; HostFn 3])))).
Defined.

(** ** Undo and redo on the two stacks *)

(** What the loop of [undo] pops lay on top of what it leaves, and is all
    of the group of [inputEvent]. *)
Lemma undo_collect_split (n : nat) (inputEvent : Event.t)
    (stack events : list Event.t) :
  ∃ popped rest,
    undo_collect n inputEvent stack events = (rest, events ++ popped) ∧
    stack = rest ++ reverse popped ∧
    Forall (λ e, Event.group e = Event.group inputEvent) popped ∧
    (popped ≠ [] → truthy (Event.group inputEvent) = true).
Proof.
  revert stack events. induction n as [|n IH]; intros stack events.
  { exists [], stack. cbn. by rewrite !app_nil_r. }
  cbn [undo_collect].
  destruct (array_pop stack) as [[top rest0]|] eqn:Hpop.
  2:{ exists [], stack. by rewrite !app_nil_r. }
  apply array_pop_Some_inv in Hpop as ->.
  destruct (truthy (Event.group inputEvent)) eqn:Hg; cbn [andb].
  2:{ exists [], (rest0 ++ [top]). by rewrite !app_nil_r. }
  destruct (String.eqb _ _) eqn:Heq.
  2:{ exists [], (rest0 ++ [top]). by rewrite !app_nil_r. }
  apply String.eqb_eq in Heq.
  destruct (IH rest0 (events ++ [top])) as (popped & rest & -> & -> & Hall & _).
  exists (top :: popped), rest. split_and!.
  - by rewrite <- app_assoc.
  - by rewrite reverse_cons, app_assoc.
  - by constructor.
  - done.
Qed.

(** The stacks after [undo], however the replay ends. *)
Lemma undo_stacks (env : Env) (redo : bool) (st : State) (top : Event.t)
    (rest0 : list Event.t) :
  run_frame env →
  inputStack redo (ws st) = rest0 ++ [top] →
  ∃ st' popped rest,
    final (Workspace_undo env redo st) = Some st' ∧
    undo_collect (length rest0) top rest0 [top] = (rest, top :: popped) ∧
    rest0 = rest ++ reverse popped ∧
    Forall (λ e, Event.group e = Event.group top) popped ∧
    (popped ≠ [] → truthy (Event.group top) = true) ∧
    inputStack redo (ws st') = rest ∧
    outputStack redo (ws st') = outputStack redo (ws st) ++ top :: popped.
Proof.
  intros Hrun Hstack. unfold Workspace_undo. mstep.
  rewrite Hstack, array_pop_app.
  destruct (undo_collect_split (length rest0) top rest0 [top])
    as (popped & rest & Hcollect & Hrest & Hall & Hg).
  rewrite Hcollect. repeat mstep.
  match goal with |- context [try_finally _ _ ?s0] =>
    destruct (undo_replay_runs env
                (Events_filter env ([top] ++ popped) redo) redo s0 Hrun)
      as (s' & n & t & Hres & _ & Hu & Hr & Hf & Ht & Hruns); [done|];
    destruct (stacks_eq redo _ _ Hu Hr) as [Hin Hout];
    revert Hin Hout; proj; intros Hin Hout
  end.
  rewrite (proj1 (inputStack_set_outputStack _ _ _)) in Hin.
  rewrite (proj1 (inputStack_set_inputStack _ _ _)) in Hin.
  rewrite (proj2 (inputStack_set_outputStack _ _ _)) in Hout.
  rewrite (proj2 (inputStack_set_inputStack _ _ _)) in Hout.
  exists (set_ev (Events.set_recordUndo true) s'), popped, rest.
  split_and!; try done.
  unfold try_finally.
  destruct Hres as [[-> ->]|[e ->]]; reflexivity.
Qed.

Lemma undo_empty (env : Env) (redo : bool) (st : State) :
  inputStack redo (ws st) = [] → Workspace_undo env redo st = Ret tt st.
Proof. intros H. unfold Workspace_undo. mstep. by rewrite H. Qed.

Lemma timeline_stacks (redo : bool) (w : Workspace.t) :
  timeline w = if redo
               then outputStack redo w ++ reverse (inputStack redo w)
               else inputStack redo w ++ reverse (outputStack redo w).
Proof. by destruct redo. Qed.

(** X4.  With events whose [run], called while [recordUndo] is off, ends
    and leaves the flag and the two stacks alone, [undo(redo)] ends, by a
    return or by the throw of a [run], and only moves events between the
    two stacks: the recorded history, the undo stack followed by the redo
    stack read backwards, is the same sequence of events before and
    after, for an undo and for a redo. *)
Theorem undo_keeps_timeline (env : Env) (redo : bool) (st : State) :
  run_frame env →
  ∃ st', final (Workspace_undo env redo st) = Some st' ∧
    timeline (ws st') = timeline (ws st).
Proof.
  intros Hrun.
  destruct (inputStack redo (ws st)) as [|top rest0 _] eqn:Hstack using rev_ind.
  { exists st. by rewrite undo_empty. }
  destruct (undo_stacks env redo st top rest0 Hrun Hstack)
    as (st' & popped & rest & Hfin & _ & -> & _ & _ & Hin & Hout).
  exists st'. split; [done|].
  rewrite !(timeline_stacks redo), Hin, Hout, Hstack.
  destruct redo.
  - rewrite !reverse_app, reverse_involutive. cbn.
    by rewrite <- !app_assoc.
  - rewrite !reverse_app, reverse_cons. by rewrite <- !app_assoc.
Qed.

Lemma undo_keeps_timeline_witness :
  ∃ st', final (Workspace_undo replay_env false deleted_undo_state) = Some st' ∧
    timeline (ws st') = timeline (ws deleted_undo_state).
Proof.
  apply (undo_keeps_timeline replay_env false deleted_undo_state).
  apply replay_env_run_frame.
Defined.

(** X5.  With events whose [run], called while [recordUndo] is off, ends
    and leaves the flag and the two stacks alone, and with nothing to
    redo, an undo followed by a redo puts the undo stack back as it was
    and leaves the redo stack empty, however the two replays end. *)
Theorem undo_then_redo (env : Env) (st : State) :
  run_frame env →
  Workspace.redoStack_ (ws st) = [] →
  ∃ st1 st2,
    final (Workspace_undo env false st) = Some st1 ∧
    final (Workspace_undo env true st1) = Some st2 ∧
    Workspace.undoStack_ (ws st2) = Workspace.undoStack_ (ws st) ∧
    Workspace.redoStack_ (ws st2) = [].
Proof.
  intros Hrun Hredo.
  destruct (Workspace.undoStack_ (ws st)) as [|top rest0 _] eqn:Hstack
    using rev_ind.
  { exists st, st. rewrite !undo_empty by done. by rewrite Hstack. }
  destruct (undo_stacks env false st top rest0 Hrun Hstack)
    as (st1 & popped & rest & Hfin1 & _ & -> & Hall & Hg & Hin & Hout).
  cbn [inputStack outputStack] in Hin, Hout. rewrite Hredo in Hout.
  cbn [app] in Hout.
  assert (∃ last init, top :: popped = init ++ [last] ∧
            Forall (λ e, Event.group e = Event.group last) init ∧
            (init ≠ [] → truthy (Event.group last) = true))
    as (last & init & Hsplit & Hinit & Hginit).
  { destruct popped as [|x popped _] using rev_ind.
    - exists top, []. by split_and!.
    - exists x, (top :: popped). apply Forall_app in Hall as [Hall Hx].
      apply Forall_inv in Hx. split_and!.
      + done.
      + constructor; [done|]. eapply Forall_impl; [exact Hall|].
        intros e He. cbn in He. congruence.
      + intros _. rewrite Hx. apply Hg. by destruct popped. }
  rewrite Hsplit in Hout.
  destruct (undo_stacks env true st1 last init Hrun Hout)
    as (st2 & popped2 & rest2 & Hfin2 & Hcollect & _ & _ & _ & Hin2 & Hout2).
  cbn [inputStack outputStack] in Hin2, Hout2.
  assert (rest2 = [] ∧ last :: popped2 = reverse (top :: popped)) as [-> Hrev].
  { rewrite Hsplit, reverse_app. cbn [reverse app].
    destruct init as [|x init].
    - by destruct (undo_collect_split 0 last [] [last])
        as (? & ? & ? & ? & _); cbn in Hcollect; injection Hcollect as <- <-.
    - rewrite (undo_collect_group last [] (x :: init) [last]) in Hcollect;
        [|by apply Hginit|done|by intros [|??] ? ?|done].
      by injection Hcollect as <- <-. }
  exists st1, st2. split_and!; try done.
  rewrite Hout2, Hin, Hrev, reverse_cons. by rewrite <- app_assoc.
Qed.

Lemma undo_then_redo_witness :
  ∃ st1 st2,
    final (Workspace_undo replay_env false deleted_undo_state) = Some st1 ∧
    final (Workspace_undo replay_env true st1) = Some st2 ∧
    Workspace.undoStack_ (ws st2) = Workspace.undoStack_ (ws deleted_undo_state) ∧
    Workspace.redoStack_ (ws st2) = [].
Proof.
  apply (undo_then_redo replay_env deleted_undo_state); [|reflexivity].
  apply replay_env_run_frame.
Defined.

(** ** Inputs of a block *)

Lemma getInput_loop_app (l : list Input.t) (input : Input.t) (name : string) :
  getInput_loop (l ++ [input]) name
  = match getInput_loop l name with
    | Some found => Some found
    | None => if decide (Input.name input = name) then Some input else None
    end.
Proof.
  induction l as [|x l IH]; cbn; [done|].
  destruct (decide (Input.name x = name)); [done|apply IH].
Qed.

(** What [appendInput_] does to the store. *)
Lemma appendInput_run (this : BlockRef) (b : Block.t) (type : ConnectionType)
    (name : string) (st : State) :
  blocks st !! this = Some b →
  ∃ st' connection,
    Block_appendInput_ this type name st
    = Ret (Input.mk type name connection []) st' ∧
    blocks st' = alter (λ b, Block.set_inputList
                        (Block.inputList b
                         ++ [Input.mk type name connection []]) b)
                   this (blocks st) ∧
    (if bool_decide (type = INPUT_VALUE ∨ type = NEXT_STATEMENT)
     then connection = Some (length (conns st)) ∧
          conns st' = conns st ++ [Connection.mk this type None None false]
     else connection = None ∧ conns st' = conns st) ∧
    ws st' = ws st ∧ ev st' = ev st ∧ trace st' = trace st.
Proof.
  intros Hb. unfold Block_appendInput_, Block_makeConnection_.
  destruct (bool_decide _); repeat mstep; unfold modify;
    eexists _, _; (split; [reflexivity|]); by split_and!.
Qed.

(** An input with a connection, appended under a new name. *)
Lemma appendInput_connection (this : BlockRef) (b : Block.t)
    (type : ConnectionType) (name : string) (st : State) :
  blocks st !! this = Some b →
  Block_getInput b name = None →
  type = INPUT_VALUE ∨ type = NEXT_STATEMENT →
  ∃ st' b' c,
    Block_appendInput_ this type name st
    = Ret (Input.mk type name (Some c) []) st' ∧
    blocks st' !! this = Some b' ∧
    Block_getInput b' name = Some (Input.mk type name (Some c) []) ∧
    (∀ other, other ≠ name → Block_getInput b' other = Block_getInput b other) ∧
    conns st !! c = None ∧
    conns st' !! c = Some (Connection.mk this type None None false) ∧
    Block_getInputTargetBlock this name st' = Ret None st'.
Proof.
  intros Hb Hnone Htype.
  destruct (appendInput_run this b type name st Hb)
    as (st' & connection & Hrun & Hblocks & Hconn & _).
  rewrite bool_decide_eq_true_2 in Hconn by done.
  destruct Hconn as [-> Hconns].
  exists st', (Block.set_inputList
                 (Block.inputList b
                  ++ [Input.mk type name (Some (length (conns st))) []]) b),
    (length (conns st)).
  assert (blocks st' !! this = Some (Block.set_inputList
                 (Block.inputList b
                  ++ [Input.mk type name (Some (length (conns st))) []]) b))
    as Hb' by (by rewrite Hblocks, list_lookup_alter_eq, Hb).
  split_and!; try done.
  - unfold Block_getInput in *. cbn [Block.inputList Block.set_inputList].
    rewrite getInput_loop_app, Hnone. cbn. by rewrite decide_True.
  - intros other Hne. unfold Block_getInput.
    cbn [Block.inputList Block.set_inputList].
    rewrite getInput_loop_app. destruct (getInput_loop _ other); [done|].
    cbn. by rewrite decide_False.
  - apply lookup_ge_None. lia.
  - by rewrite Hconns, list_lookup_middle.
  - unfold Block_getInputTargetBlock. mstep.
    unfold Block_getInput in *. cbn [Block.inputList Block.set_inputList].
    rewrite getInput_loop_app, Hnone. cbn. rewrite decide_True by done.
    cbn [Input.connection]. unfold Connection_targetBlock.
    erewrite bind_getConn
      by (by rewrite Hconns, list_lookup_middle). done.
Qed.

(** X6.  An input appended under a name that no input of the block has
    is the one [getInput] finds under that name afterwards, and lookups
    of the other names give what they gave.  A value input comes with a
    new connection of the block, of type [INPUT_VALUE] and attached to
    nothing, so that [getInputTargetBlock] is null; a statement input
    with one of type [NEXT_STATEMENT]; a dummy input with no connection
    (and under the name [''] when no name is given). *)
Theorem appendInput_then_getInput (this : BlockRef) (b : Block.t)
    (name : string) (st : State) :
  blocks st !! this = Some b →
  Block_getInput b name = None →
  (∃ st' b' c,
     Block_appendValueInput this name st
     = Ret (Input.mk INPUT_VALUE name (Some c) []) st' ∧
     blocks st' !! this = Some b' ∧
     Block_getInput b' name = Some (Input.mk INPUT_VALUE name (Some c) []) ∧
     (∀ other, other ≠ name → Block_getInput b' other = Block_getInput b other) ∧
     conns st !! c = None ∧
     conns st' !! c = Some (Connection.mk this INPUT_VALUE None None false) ∧
     Block_getInputTargetBlock this name st' = Ret None st') ∧
  (∃ st' b' c,
     Block_appendStatementInput this name st
     = Ret (Input.mk NEXT_STATEMENT name (Some c) []) st' ∧
     blocks st' !! this = Some b' ∧
     Block_getInput b' name = Some (Input.mk NEXT_STATEMENT name (Some c) []) ∧
     (∀ other, other ≠ name → Block_getInput b' other = Block_getInput b other) ∧
     conns st !! c = None ∧
     conns st' !! c = Some (Connection.mk this NEXT_STATEMENT None None false) ∧
     Block_getInputTargetBlock this name st' = Ret None st') ∧
  (∀ opt_name, default ""%string opt_name = name →
     ∃ st' b',
       Block_appendDummyInput this opt_name st
       = Ret (Input.mk DUMMY_INPUT name None []) st' ∧
       blocks st' !! this = Some b' ∧
       Block_getInput b' name = Some (Input.mk DUMMY_INPUT name None []) ∧
       (∀ other, other ≠ name → Block_getInput b' other = Block_getInput b other) ∧
       conns st' = conns st).
Proof.
  intros Hb Hnone. split_and!.
  - apply appendInput_connection; auto.
  - apply appendInput_connection; auto.
  - intros opt_name Hname. unfold Block_appendDummyInput. rewrite Hname.
    destruct (appendInput_run this b DUMMY_INPUT name st Hb)
      as (st' & connection & Hrun & Hblocks & Hconn & _).
    rewrite bool_decide_eq_false_2 in Hconn by (by intros [|]).
    destruct Hconn as [-> Hconns].
    exists st', (Block.set_inputList
                   (Block.inputList b ++ [Input.mk DUMMY_INPUT name None []]) b).
    split_and!; try done.
    + by rewrite Hblocks, list_lookup_alter_eq, Hb.
    + unfold Block_getInput in *. cbn [Block.inputList Block.set_inputList].
      rewrite getInput_loop_app, Hnone. cbn. by rewrite decide_True.
    + intros other Hne. unfold Block_getInput.
      cbn [Block.inputList Block.set_inputList].
      rewrite getInput_loop_app. destruct (getInput_loop _ other); [done|].
      cbn. by rewrite decide_False.
Qed.

Lemma appendInput_then_getInput_witness :
  ∃ st' b' c,
    Block_appendValueInput 0 "VALUE" number_state
    = Ret (Input.mk INPUT_VALUE "VALUE" (Some c) []) st' ∧
    blocks st' !! 0 = Some b' ∧
    Block_getInput b' "VALUE" = Some (Input.mk INPUT_VALUE "VALUE" (Some c) []) ∧
    conns st' !! c = Some (Connection.mk 0 INPUT_VALUE None None false).
Proof.
  destruct (proj1 (appendInput_then_getInput 0 number_block "VALUE" number_state
                     eq_refl eq_refl))
    as (st' & b' & c & H1 & H2 & H3 & _ & _ & H4 & _).
  by exists st', b', c.
Defined.

(** *** Moving an input *)

Lemma array_splice_insert_lookup {A} (i : nat) (x : A) (l : list A) :
  i ≤ length l →
  array_splice_insert i x l !! i = Some x ∧
  array_splice_insert i x l !! S i = l !! i ∧
  array_splice_remove i (array_splice_insert i x l) = l.
Proof.
  intros Hi. unfold array_splice_insert, array_splice_remove.
  assert (length (take i l) = i) as Hlen by (rewrite length_take; lia).
  split_and!.
  - by rewrite list_lookup_middle.
  - rewrite lookup_app_r by lia. rewrite Hlen.
    replace (S i - i) with 1 by lia.
    change ((x :: drop i l) !! 1) with (drop i l !! 0).
    rewrite lookup_drop. f_equal. lia.
  - rewrite <- Hlen at 1. rewrite delete_middle. apply take_drop.
Qed.

(** The list after a move: the moved input sits at [pos], the others are
    in the order they were in, and the input that was at [refIndex] comes
    right after the moved one. *)
Lemma move_input_list {A} (l : list A) (i r : nat) (x : A) :
  l !! i = Some x → i ≠ r → r ≤ length l →
  let pos := if bool_decide (i < r) then pred r else r in
  let l' := array_splice_insert pos x (array_splice_remove i l) in
  l' !! pos = Some x ∧
  array_splice_remove pos l' = array_splice_remove i l ∧
  l' !! S pos = l !! r ∧
  l' ≡ₚ l.
Proof.
  intros Hx Hne Hr pos l'.
  assert (length (array_splice_remove i l) = length l - 1) as Hlen
    by (by apply length_delete).
  assert (i < length l) as Hi by (by eapply lookup_lt_Some).
  assert (pos ≤ length (array_splice_remove i l)) as Hpos.
  { subst pos. case_bool_decide; lia. }
  destruct (array_splice_insert_lookup pos x (array_splice_remove i l) Hpos)
    as (H1 & H2 & H3).
  split_and!; try done.
  - subst l'. rewrite H2. unfold array_splice_remove. subst pos.
    case_bool_decide.
    + rewrite list_lookup_delete_ge by lia. f_equal. lia.
    + rewrite list_lookup_delete_lt by lia. done.
  - subst l'. unfold array_splice_insert.
    rewrite <- Permutation_middle, take_drop.
    symmetry. by apply delete_Permutation.
Qed.

Lemma array_get_nat {A} (l : list A) (i : nat) :
  array_get l (Z.of_nat i) = l !! i.
Proof.
  unfold array_get. rewrite bool_decide_eq_true_2 by lia.
  by rewrite Nat2Z.id.
Qed.

Lemma array_get_negative {A} (l : list A) (i : Z) :
  (i < 0)%Z → array_get l i = None.
Proof. intros Hi. unfold array_get. by rewrite bool_decide_eq_false_2 by lia. Qed.

(** [splice(i, 1)] at a position of the array. *)
Lemma array_splice_remove_nat {A} (l : list A) (i : nat) :
  array_splice (Z.of_nat i) 1 [] l = array_splice_remove i l.
Proof.
  unfold array_splice, splice_start, array_splice_remove.
  rewrite bool_decide_eq_false_2 by lia. cbn [app].
  destruct (decide (i < length l)) as [Hi|Hi].
  - replace (Z.to_nat (Z.min (Z.of_nat i) (Z.of_nat (length l)))) with i by lia.
    rewrite delete_take_drop. do 2 f_equal. lia.
  - replace (Z.to_nat (Z.min (Z.of_nat i) (Z.of_nat (length l))))
      with (length l) by lia.
    rewrite delete_take_drop, firstn_all, !drop_ge, take_ge by lia. done.
Qed.

(** [splice(start, 1)] for a negative [start]. *)
Lemma array_splice_remove_negative {A} (l : list A) (start : Z) :
  (start < 0)%Z →
  array_splice start 1 [] l
  = delete (Z.to_nat (Z.max (Z.of_nat (length l) + start) 0)) l.
Proof.
  intros Hs. unfold array_splice, splice_start.
  rewrite bool_decide_eq_true_2 by done. cbn [app].
  set (s := Z.to_nat _).
  destruct (decide (s < length l)) as [Hi|Hi].
  - rewrite delete_take_drop. do 2 f_equal. lia.
  - rewrite delete_take_drop, !drop_ge by lia. done.
Qed.

(** [splice(i, 0, x)] at a position up to the length of the array. *)
Lemma array_splice_insert_nat {A} (l : list A) (i : nat) (x : A) :
  i ≤ length l →
  array_splice (Z.of_nat i) 0 [x] l = array_splice_insert i x l.
Proof.
  intros Hi. unfold array_splice, splice_start, array_splice_insert.
  rewrite bool_decide_eq_false_2 by lia.
  replace (Z.to_nat (Z.min (Z.of_nat i) (Z.of_nat (length l)))) with i by lia.
  by rewrite Nat.add_0_r.
Qed.

(** [splice(start, 0, x)] for a negative [start]. *)
Lemma array_splice_insert_negative {A} (l : list A) (start : Z) (x : A) :
  (start < 0)%Z →
  array_splice start 0 [x] l
  = array_splice_insert (Z.to_nat (Z.max (Z.of_nat (length l) + start) 0)) x l.
Proof.
  intros Hs. unfold array_splice, splice_start, array_splice_insert.
  rewrite bool_decide_eq_true_2 by done. by rewrite Nat.add_0_r.
Qed.

(** A move of the input at a position of the list, run. *)
Lemma moveNumberedInputBefore_run_at (this : BlockRef) (b : Block.t)
    (i : nat) (refIndex : Z) (input : Input.t) (st : State) :
  blocks st !! this = Some b →
  Block.inputList b !! i = Some input →
  Z.of_nat i ≠ refIndex →
  (refIndex ≤ Z.of_nat (length (Block.inputList b)))%Z →
  ∃ st',
    Block_moveNumberedInputBefore this (Z.of_nat i) refIndex st = Ret tt st' ∧
    blocks st' !! this
    = Some (Block.set_inputList
              (array_splice
                 (if bool_decide (Z.of_nat i < refIndex)%Z
                  then (refIndex - 1)%Z else refIndex)
                 0 [input]
                 (array_splice_remove i (Block.inputList b))) b) ∧
    conns st' = conns st ∧ ws st' = ws st.
Proof.
  intros Hb Hin Hne Hr.
  assert (i < length (Block.inputList b)) as Hi
    by (by eapply lookup_lt_Some).
  unfold Block_moveNumberedInputBefore, goog_asserts_assert. mstep.
  rewrite bool_decide_eq_false_2 by done. cbn [negb]. mstep.
  rewrite bool_decide_eq_true_2 by lia. mstep.
  rewrite bool_decide_eq_true_2 by done. mstep.
  rewrite array_get_nat, Hin. repeat mstep. unfold modify.
  eexists. split; [reflexivity|]. proj. split_and!; try done.
  rewrite !list_lookup_alter_eq, Hb. cbn.
  by rewrite array_splice_remove_nat.
Qed.

(** A move with valid indices, run. *)
Lemma moveNumberedInputBefore_run (this : BlockRef) (b : Block.t)
    (inputIndex refIndex : nat) (input : Input.t) (st : State) :
  blocks st !! this = Some b →
  Block.inputList b !! inputIndex = Some input →
  inputIndex ≠ refIndex → refIndex ≤ length (Block.inputList b) →
  ∃ st',
    Block_moveNumberedInputBefore this (Z.of_nat inputIndex)
      (Z.of_nat refIndex) st = Ret tt st' ∧
    blocks st' !! this
    = Some (Block.set_inputList
              (array_splice_insert
                 (if bool_decide (inputIndex < refIndex)
                  then pred refIndex else refIndex)
                 input
                 (array_splice_remove inputIndex (Block.inputList b))) b) ∧
    conns st' = conns st ∧ ws st' = ws st.
Proof.
  intros Hb Hin Hne Hr.
  assert (inputIndex < length (Block.inputList b)) as Hi
    by (by eapply lookup_lt_Some).
  destruct (moveNumberedInputBefore_run_at this b inputIndex (Z.of_nat refIndex)
              input st Hb Hin) as (st' & Hrun & Hb' & Hc & Hw); [lia|lia|].
  exists st'. split; [done|]. split_and!; try done.
  rewrite Hb'. do 2 f_equal.
  assert (length (array_splice_remove inputIndex (Block.inputList b))
          = length (Block.inputList b) - 1) as Hlen
    by (by apply length_delete).
  case_bool_decide; case_bool_decide; try lia.
  - replace (Z.of_nat refIndex - 1)%Z with (Z.of_nat (pred refIndex)) by lia.
    apply array_splice_insert_nat. lia.
  - apply array_splice_insert_nat. lia.
Qed.

Lemma array_splice_fmap {A B} (f : A → B) (start : Z) (deleteCount : nat)
    (items l : list A) :
  array_splice start deleteCount (f <$> items) (f <$> l)
  = f <$> array_splice start deleteCount items l.
Proof.
  unfold array_splice, splice_start.
  by rewrite !fmap_app, fmap_take, fmap_drop, length_fmap.
Qed.

Lemma array_splice_fmap_remove {A B} (f : A → B) (start : Z) (l : list A) :
  array_splice start 1 [] (f <$> l) = f <$> array_splice start 1 [] l.
Proof. exact (array_splice_fmap f start 1 [] l). Qed.

Lemma array_splice_fmap_insert {A B} (f : A → B) (start : Z) (x : A)
    (l : list A) :
  array_splice start 0 [f x] (f <$> l) = f <$> array_splice start 0 [x] l.
Proof. exact (array_splice_fmap f start 0 [x] l). Qed.

Lemma splice_start_le {A} (l : list A) (start : Z) :
  splice_start l start ≤ length l.
Proof. unfold splice_start. case_bool_decide; lia. Qed.

Lemma array_splice_insert_at {A} (l : list A) (start : Z) (x : A) :
  array_splice start 0 [x] l = array_splice_insert (splice_start l start) x l.
Proof.
  unfold array_splice, array_splice_insert. by rewrite Nat.add_0_r.
Qed.

(** The array after a move of the input at a position of the list. *)
Lemma moveNumberedInputBefore_array_at {A} (l : list A) (i : nat)
    (refIndex : Z) (x : A) :
  l !! i = Some x →
  moveNumberedInputBefore_array (Some <$> l) (Z.of_nat i) refIndex
  = Some <$> array_splice
               (if bool_decide (Z.of_nat i < refIndex)%Z
                then (refIndex - 1)%Z else refIndex)
               0 [x] (array_splice_remove i l).
Proof.
  intros Hx. unfold moveNumberedInputBefore_array.
  rewrite array_get_nat, list_lookup_fmap, Hx.
  change (default None (Some <$> Some x)) with (Some x).
  by rewrite array_splice_fmap_remove, array_splice_remove_nat,
    array_splice_fmap_insert.
Qed.

(** X7.  [moveNumberedInputBefore(inputIndex, refIndex)] on integers.
    For an input index within the list and a reference index from zero up
    to its length that differ, it returns with the same inputs rearranged:
    the moved input now sits right in front of the input that was at
    [refIndex] (at the end when [refIndex] is the length), and the other
    inputs are in the order they were in.  Equal indices, an input index
    at or beyond the length of the list or a reference index beyond it
    fail an assertion and change nothing.  A negative reference index
    passes the assertions and counts from the end of the list without the
    moved input, stopping at its front.  A negative input index that
    differs from the reference index passes them too: the input counted
    from the end of the list (the first one when the index reaches beyond
    the front) is taken out, and the array is left with [undefined] at the
    place of the insertion, which is where the run of the model ends. *)
Theorem moveNumberedInputBefore_moves (this : BlockRef) (b : Block.t)
    (inputIndex refIndex : Z) (st : State) :
  blocks st !! this = Some b →
  (∀ i r input, inputIndex = Z.of_nat i → refIndex = Z.of_nat r →
     Block.inputList b !! i = Some input →
     i ≠ r → r ≤ length (Block.inputList b) →
     ∃ st' inputs',
       Block_moveNumberedInputBefore this inputIndex refIndex st = Ret tt st' ∧
       blocks st' !! this = Some (Block.set_inputList inputs' b) ∧
       moveNumberedInputBefore_array (Some <$> Block.inputList b)
         inputIndex refIndex = Some <$> inputs' ∧
       let pos := if bool_decide (i < r) then pred r else r in
       inputs' !! pos = Some input ∧
       inputs' !! S pos = Block.inputList b !! r ∧
       delete pos inputs' = delete i (Block.inputList b) ∧
       inputs' ≡ₚ Block.inputList b ∧
       conns st' = conns st ∧ ws st' = ws st) ∧
  (inputIndex = refIndex
   ∨ (Z.of_nat (length (Block.inputList b)) ≤ inputIndex)%Z
   ∨ (Z.of_nat (length (Block.inputList b)) < refIndex)%Z →
   ∃ msg, Block_moveNumberedInputBefore this inputIndex refIndex st
          = Raise (AssertionError msg) st) ∧
  (∀ i input, inputIndex = Z.of_nat i →
     Block.inputList b !! i = Some input → (refIndex < 0)%Z →
     ∃ st' inputs',
       Block_moveNumberedInputBefore this inputIndex refIndex st = Ret tt st' ∧
       blocks st' !! this = Some (Block.set_inputList inputs' b) ∧
       moveNumberedInputBefore_array (Some <$> Block.inputList b)
         inputIndex refIndex = Some <$> inputs' ∧
       let pos :=
         Z.to_nat (Z.max (Z.of_nat (length (Block.inputList b)) - 1
                          + refIndex) 0) in
       inputs' !! pos = Some input ∧
       delete pos inputs' = delete i (Block.inputList b) ∧
       inputs' ≡ₚ Block.inputList b ∧
       conns st' = conns st ∧ ws st' = ws st) ∧
  ((inputIndex < 0)%Z → inputIndex ≠ refIndex →
   (refIndex ≤ Z.of_nat (length (Block.inputList b)))%Z →
   ∃ msg st' inputs' pos,
     Block_moveNumberedInputBefore this inputIndex refIndex st
     = Raise (Unrepresentable msg) st' ∧
     blocks st' !! this = Some (Block.set_inputList inputs' b) ∧
     inputs'
     = delete (Z.to_nat (Z.max (Z.of_nat (length (Block.inputList b))
                                + inputIndex) 0))
         (Block.inputList b) ∧
     moveNumberedInputBefore_array (Some <$> Block.inputList b)
       inputIndex refIndex !! pos = Some None ∧
     delete pos (moveNumberedInputBefore_array (Some <$> Block.inputList b)
                   inputIndex refIndex) = Some <$> inputs' ∧
     conns st' = conns st ∧ ws st' = ws st).
Proof.
  intros Hb. split_and!.
  - intros i r input -> -> Hin Hne Hr.
    destruct (moveNumberedInputBefore_run this b i r input st
                Hb Hin Hne Hr) as (st' & Hrun & Hb' & Hc & Hw).
    destruct (move_input_list (Block.inputList b) i r input
                Hin Hne Hr) as (H1 & H2 & H3 & H4).
    eexists st', _. split; [exact Hrun|]. split; [exact Hb'|].
    split_and!; try done.
    rewrite (moveNumberedInputBefore_array_at _ i _ input) by done.
    f_equal.
    assert (i < length (Block.inputList b)) as Hi
      by (by eapply lookup_lt_Some).
    assert (length (array_splice_remove i (Block.inputList b))
            = length (Block.inputList b) - 1) as Hlen
      by (by apply length_delete).
    case_bool_decide; case_bool_decide; try lia.
    + replace (Z.of_nat r - 1)%Z with (Z.of_nat (pred r)) by lia.
      apply array_splice_insert_nat. lia.
    + apply array_splice_insert_nat. lia.
  - intros Hbad.
    unfold Block_moveNumberedInputBefore, goog_asserts_assert. mstep.
    destruct (decide (inputIndex = refIndex)) as [->|Hne].
    { rewrite bool_decide_eq_true_2 by done. cbn [negb]. mstep. eauto. }
    rewrite bool_decide_eq_false_2 by done. cbn [negb]. mstep.
    destruct (decide (inputIndex < Z.of_nat (length (Block.inputList b)))%Z)
      as [Hi|Hi].
    2:{ rewrite bool_decide_eq_false_2 by done. mstep. eauto. }
    rewrite bool_decide_eq_true_2 by done. mstep.
    rewrite bool_decide_eq_false_2 by lia. mstep. eauto.
  - intros i input -> Hin Href.
    assert (i < length (Block.inputList b)) as Hi
      by (by eapply lookup_lt_Some).
    destruct (moveNumberedInputBefore_run_at this b i refIndex input st
                Hb Hin) as (st' & Hrun & Hb' & Hc & Hw); [lia|lia|].
    pose proof (moveNumberedInputBefore_array_at (Block.inputList b) i refIndex
                  input Hin) as Harr.
    rewrite bool_decide_eq_false_2 in Hb', Harr by lia.
    rewrite array_splice_insert_negative in Hb', Harr by done.
    assert (length (array_splice_remove i (Block.inputList b))
            = length (Block.inputList b) - 1) as Hlen
      by (by apply length_delete).
    rewrite Hlen in Hb', Harr.
    replace (Z.of_nat (length (Block.inputList b) - 1))
      with (Z.of_nat (length (Block.inputList b)) - 1)%Z in Hb', Harr by lia.
    set (pos := Z.to_nat _) in *.
    assert (pos ≤ length (array_splice_remove i (Block.inputList b))) as Hpos
      by lia.
    destruct (array_splice_insert_lookup pos input
                (array_splice_remove i (Block.inputList b)) Hpos)
      as (H1 & _ & H3).
    eexists st', _. split; [exact Hrun|]. split; [exact Hb'|].
    split; [exact Harr|].
    cbn zeta. split_and!; try done.
    unfold array_splice_insert.
    rewrite <- Permutation_middle, take_drop.
    symmetry. by apply delete_Permutation.
  - intros Hneg Hne Hr.
    unfold Block_moveNumberedInputBefore, goog_asserts_assert. mstep.
    rewrite bool_decide_eq_false_2 by done. cbn [negb]. mstep.
    rewrite bool_decide_eq_true_2 by lia. mstep.
    rewrite bool_decide_eq_true_2 by done. mstep.
    rewrite array_get_negative by done. repeat mstep. unfold modify.
    unfold moveNumberedInputBefore_array.
    rewrite array_get_negative by done. cbn [default].
    rewrite array_splice_fmap_remove, array_splice_remove_negative by done.
    rewrite array_splice_insert_at.
    set (l1 := delete _ (Block.inputList b)).
    set (pos := splice_start _ _).
    destruct (array_splice_insert_lookup pos None (Some <$> l1)
                (splice_start_le _ _)) as (H1 & _ & H3).
    eexists _, _, l1, pos. split; [reflexivity|]. proj. split_and!; try done.
    rewrite list_lookup_alter_eq, Hb. cbn.
    by rewrite array_splice_remove_negative.
Qed.

Lemma moveNumberedInputBefore_moves_witness :
  (∃ st' inputs',
     Block_moveNumberedInputBefore 0 0 3 inputs_state = Ret tt st' ∧
     blocks st' !! 0 = Some (Block.set_inputList inputs' inputs_block) ∧
     moveNumberedInputBefore_array (Some <$> Block.inputList inputs_block) 0 3
     = Some <$> inputs' ∧
     inputs' !! 2 = Some (Input.mk DUMMY_INPUT "A" None []) ∧
     inputs' !! 3 = None ∧
     delete 2 inputs' = [Input.mk DUMMY_INPUT "B" None [];
                         Input.mk DUMMY_INPUT "C" None []] ∧
     inputs' ≡ₚ Block.inputList inputs_block ∧
     conns st' = conns inputs_state ∧ ws st' = ws inputs_state) ∧
  (∃ st' inputs',
     Block_moveNumberedInputBefore 0 0 (-1) inputs_state = Ret tt st' ∧
     blocks st' !! 0 = Some (Block.set_inputList inputs' inputs_block) ∧
     moveNumberedInputBefore_array (Some <$> Block.inputList inputs_block) 0 (-1)
     = Some <$> inputs' ∧
     inputs' !! 1 = Some (Input.mk DUMMY_INPUT "A" None []) ∧
     delete 1 inputs' = [Input.mk DUMMY_INPUT "B" None [];
                         Input.mk DUMMY_INPUT "C" None []] ∧
     inputs' ≡ₚ Block.inputList inputs_block ∧
     conns st' = conns inputs_state ∧ ws st' = ws inputs_state) ∧
  (moveNumberedInputBefore_array (Some <$> Block.inputList inputs_block) (-1) 2
   = [Some (Input.mk DUMMY_INPUT "A" None []); None;
      Some (Input.mk DUMMY_INPUT "B" None [])] ∧
   ∃ msg st' inputs' pos,
     Block_moveNumberedInputBefore 0 (-1) 2 inputs_state
     = Raise (Unrepresentable msg) st' ∧
     blocks st' !! 0 = Some (Block.set_inputList inputs' inputs_block) ∧
     inputs' = [Input.mk DUMMY_INPUT "A" None [];
                Input.mk DUMMY_INPUT "B" None []] ∧
     moveNumberedInputBefore_array (Some <$> Block.inputList inputs_block)
       (-1) 2 !! pos = Some None ∧
     delete pos (moveNumberedInputBefore_array
                   (Some <$> Block.inputList inputs_block) (-1) 2)
     = Some <$> inputs' ∧
     conns st' = conns inputs_state ∧ ws st' = ws inputs_state).
Proof.
  split_and!.
  - apply (proj1 (moveNumberedInputBefore_moves 0 inputs_block 0 3 inputs_state
                    eq_refl) 0 3 (Input.mk DUMMY_INPUT "A" None []));
      [reflexivity|reflexivity|reflexivity|lia|cbn; lia].
  - apply (proj1 (proj2 (proj2
             (moveNumberedInputBefore_moves 0 inputs_block 0 (-1) inputs_state
                eq_refl))) 0 (Input.mk DUMMY_INPUT "A" None []));
      [reflexivity|reflexivity|lia].
  - reflexivity.
  - apply (proj2 (proj2 (proj2
             (moveNumberedInputBefore_moves 0 inputs_block (-1) 2 inputs_state
                eq_refl)))); [lia|lia|cbn; lia].
Defined.

(** *** Moving an input by name *)

Lemma moveInputBefore_loop_absent (l : list Input.t) (k : nat) (name : string)
    (refName : option string) (inputIndex refIndex : option nat) :
  (∀ input, input ∈ l → Input.name input ≠ name) →
  (moveInputBefore_loop l k name refName inputIndex refIndex).1 = inputIndex.
Proof.
  revert k inputIndex refIndex.
  induction l as [|x l IH]; intros k inputIndex refIndex Habs; [done|].
  cbn [moveInputBefore_loop].
  rewrite decide_False by (apply Habs; left).
  assert (∀ input, input ∈ l → Input.name input ≠ name) as Habs'
    by (intros ? ?; apply Habs; by right).
  destruct (_ && _); [|by apply IH].
  destruct (non_null inputIndex); [done|by apply IH].
Qed.

Lemma moveInputBefore_loop_no_ref (l : list Input.t) (k : nat) (name ref : string)
    (inputIndex : option nat) :
  ref ≠ name →
  (∀ input, input ∈ l → Input.name input ≠ ref) →
  (moveInputBefore_loop l k name (Some ref) inputIndex None).2 = None.
Proof.
  intros Hne. revert k inputIndex.
  induction l as [|x l IH]; intros k inputIndex Habs; [done|].
  cbn [moveInputBefore_loop non_null].
  assert (∀ input, input ∈ l → Input.name input ≠ ref) as Habs'
    by (intros ? ?; apply Habs; by right).
  destruct (decide (Input.name x = name)); [by apply IH|].
  rewrite (bool_decide_eq_false_2 (Some (Input.name x) = Some ref)).
  2:{ intros [= Hx]. by apply (Habs x); [left|]. }
  rewrite andb_false_r. by apply IH.
Qed.

(** With the reference index known, the loop stops at the first input
    called [name]. *)
Lemma moveInputBefore_loop_first (l : list Input.t) (k n i : nat)
    (name : string) (refName : option string) (input : Input.t)
    (inputIndex : option nat) :
  first_named l name i input →
  truthy_opt refName = false
  ∨ (∀ x, x ∈ take i l → Some (Input.name x) ≠ refName) →
  moveInputBefore_loop l k name refName inputIndex (Some n)
  = (Some (k + i), Some n).
Proof.
  revert k i. induction l as [|x l IH]; intros k i (Hi & Hname & Hfirst) Href.
  { by rewrite lookup_nil in Hi. }
  cbn [moveInputBefore_loop non_null]. destruct i as [|i].
  - injection Hi as ->. rewrite decide_True by done. do 2 f_equal. lia.
  - rewrite decide_False by (apply (Hfirst 0 x); [lia|done]).
    assert (truthy_opt refName
            && bool_decide (Some (Input.name x) = refName) = false) as ->.
    { destruct Href as [->|Href]; [done|].
      rewrite (bool_decide_eq_false_2 (Some (Input.name x) = refName))
        by (apply Href; left).
      apply andb_false_r. }
    rewrite (IH (S k) i).
    + do 2 f_equal. lia.
    + split_and!; try done. intros j y Hj Hy. apply (Hfirst (S j) y); [lia|done].
    + destruct Href as [?|Href]; [by left|right].
      intros y Hy. apply Href. by right.
Qed.

(** With the input index known, the loop stops at the first input called
    [ref]. *)
Lemma moveInputBefore_loop_ref (l : list Input.t) (k i r : nat)
    (name ref : string) (rinput : Input.t) :
  ref ≠ "" →
  first_named l ref r rinput →
  (∀ x, x ∈ take r l → Input.name x ≠ name) →
  ref ≠ name →
  moveInputBefore_loop l k name (Some ref) (Some i) None
  = (Some i, Some (k + r)).
Proof.
  intros Href. revert k r.
  induction l as [|x l IH]; intros k r (Hr & Hname & Hfirst) Habs Hne.
  { by rewrite lookup_nil in Hr. }
  assert (truthy ref = true) as Ht.
  { unfold truthy. by apply negb_true_iff, String.eqb_neq. }
  cbn [moveInputBefore_loop non_null truthy_opt]. rewrite Ht. cbn [andb].
  destruct r as [|r].
  - injection Hr as ->. rewrite decide_False by congruence.
    rewrite bool_decide_eq_true_2 by congruence. do 2 f_equal. lia.
  - rewrite decide_False by (apply Habs; left).
    rewrite bool_decide_eq_false_2.
    2:{ intros [= Hx]. by apply (Hfirst 0 x); [lia| |]. }
    rewrite (IH (S k) r).
    + do 2 f_equal. lia.
    + split_and!; try done. intros j y Hj Hy. apply (Hfirst (S j) y); [lia|done].
    + intros y Hy. apply Habs. by right.
    + done.
Qed.

(** With neither index known and both names in the list once. *)
Lemma moveInputBefore_loop_both (l : list Input.t) (k i r : nat)
    (name ref : string) (input rinput : Input.t) :
  ref ≠ "" → ref ≠ name →
  NoDup (map Input.name l) →
  l !! i = Some input → Input.name input = name →
  l !! r = Some rinput → Input.name rinput = ref →
  moveInputBefore_loop l k name (Some ref) None None
  = (Some (k + i), Some (k + r)).
Proof.
  intros Href Hne. revert k i r.
  induction l as [|x l IH]; intros k i r Hnd Hi Hname Hr Hrname.
  { by rewrite lookup_nil in Hi. }
  assert (truthy ref = true) as Ht.
  { unfold truthy. by apply negb_true_iff, String.eqb_neq. }
  cbn [map] in Hnd. apply NoDup_cons in Hnd as [Hx Hnd].
  assert (∀ j y, l !! j = Some y → Input.name y ≠ Input.name x) as Hother.
  { intros j y Hy Heq. apply Hx. rewrite <- Heq.
    apply list_elem_of_fmap. exists y. split; [done|].
    by eapply list_elem_of_lookup_2. }
  assert (∀ nm j y, l !! j = Some y → Input.name y = nm →
            first_named l nm j y) as Hfirst.
  { intros nm j y Hy Hnm. split_and!; try done.
    intros j' y' Hlt Hy' Heq.
    assert (j' = j); [|lia].
    eapply NoDup_lookup; [exact Hnd| |].
    - rewrite list_lookup_fmap, Hy'. done.
    - rewrite list_lookup_fmap, Hy. cbn. congruence. }
  cbn [moveInputBefore_loop non_null truthy_opt]. rewrite Ht. cbn [andb].
  destruct i as [|i], r as [|r].
  - congruence.
  - injection Hi as ->. rewrite decide_True by done.
    rewrite (moveInputBefore_loop_ref l (S k) k r name ref rinput); try done.
    + do 2 f_equal; lia.
    + by apply Hfirst.
    + intros y Hy. apply list_elem_of_lookup_1 in Hy as [j Hy].
      apply lookup_take_Some in Hy as [Hy _]. rewrite <- Hname.
      by eapply Hother.
  - injection Hr as ->. rewrite decide_False by congruence.
    rewrite bool_decide_eq_true_2 by congruence.
    rewrite (moveInputBefore_loop_first l (S k) k i name _ input None).
    + do 2 f_equal; lia.
    + by apply Hfirst.
    + right. intros y Hy. apply list_elem_of_lookup_1 in Hy as [j Hy].
      apply lookup_take_Some in Hy as [Hy _]. intros [= Heq].
      rewrite <- Hrname in Heq. by eapply Hother.
  - rewrite decide_False by (rewrite <- Hname; apply not_eq_sym; by eapply Hother).
    rewrite bool_decide_eq_false_2.
    2:{ intros [= Heq]. rewrite <- Hrname in Heq. by eapply Hother. }
    rewrite (IH (S k) i r) by done. do 2 f_equal; lia.
Qed.

(** X8.  [moveInputBefore(name, refName)] does nothing when the two
    names are equal, and fails an assertion, changing nothing, when no
    input is called [name] or when [refName] is a non-empty name that no
    input has.  With a null (or empty) [refName] the first input called
    [name] becomes the last input.  With input names that are all
    different it is [moveNumberedInputBefore] at the indices of the two
    names. *)
Theorem moveInputBefore_cases (this : BlockRef) (b : Block.t) (name : string)
    (refName : option string) (st : State) :
  blocks st !! this = Some b →
  (Some name = refName → Block_moveInputBefore this name refName st = Ret tt st) ∧
  (Some name ≠ refName →
   (∀ input, input ∈ Block.inputList b → Input.name input ≠ name) →
   ∃ msg, Block_moveInputBefore this name refName st
          = Raise (AssertionError msg) st) ∧
  (∀ ref, refName = Some ref → ref ≠ "" → ref ≠ name →
     (∀ input, input ∈ Block.inputList b → Input.name input ≠ ref) →
     ∃ msg, Block_moveInputBefore this name refName st
            = Raise (AssertionError msg) st) ∧
  (∀ i input, truthy_opt refName = false → Some name ≠ refName →
     first_named (Block.inputList b) name i input →
     ∃ st', Block_moveInputBefore this name refName st = Ret tt st' ∧
       blocks st' !! this
       = Some (Block.set_inputList (delete i (Block.inputList b) ++ [input]) b) ∧
       conns st' = conns st ∧ ws st' = ws st) ∧
  (∀ ref i r input rinput, refName = Some ref → ref ≠ "" → ref ≠ name →
     NoDup (map Input.name (Block.inputList b)) →
     Block.inputList b !! i = Some input → Input.name input = name →
     Block.inputList b !! r = Some rinput → Input.name rinput = ref →
     Block_moveInputBefore this name refName st
     = Block_moveNumberedInputBefore this (Z.of_nat i) (Z.of_nat r) st).
Proof.
  intros Hb. split_and!.
  - intros Heq. unfold Block_moveInputBefore.
    by rewrite bool_decide_eq_true_2.
  - intros Hne Habs. unfold Block_moveInputBefore.
    rewrite bool_decide_eq_false_2 by done. mstep.
    pose proof (moveInputBefore_loop_absent (Block.inputList b) 0 name refName
                  None (if truthy_opt refName then None
                        else Some (length (Block.inputList b))) Habs) as Hloop.
    destruct (moveInputBefore_loop _ _ _ _ _ _) as [ii ri].
    cbn in Hloop. subst ii. eauto.
  - intros ref -> Hrne Hne Habs. unfold Block_moveInputBefore.
    rewrite bool_decide_eq_false_2 by congruence. mstep.
    assert (truthy ref = true) as Ht.
    { unfold truthy. by apply negb_true_iff, String.eqb_neq. }
    cbn [truthy_opt]. rewrite Ht.
    pose proof (moveInputBefore_loop_no_ref (Block.inputList b) 0 name ref
                  None Hne Habs) as Hloop.
    destruct (moveInputBefore_loop _ _ _ _ _ _) as [ii ri].
    cbn in Hloop. subst ri. destruct ii; eauto.
  - intros i input Hfalsy Hne Hfirst. unfold Block_moveInputBefore.
    rewrite bool_decide_eq_false_2 by done. mstep. rewrite Hfalsy.
    rewrite (moveInputBefore_loop_first _ 0 _ i name refName input).
    2: done.
    2: by left.
    cbn [Nat.add].
    destruct Hfirst as (Hi & Hname & _).
    assert (i < length (Block.inputList b)) as Hlt
      by (by eapply lookup_lt_Some).
    destruct (moveNumberedInputBefore_run this b i (length (Block.inputList b))
                input st Hb Hi) as (st' & Hrun & Hb' & Hc & Hw); [lia|lia|].
    exists st'. split; [done|]. split_and!; try done.
    rewrite Hb'. do 2 f_equal.
    rewrite bool_decide_eq_true_2 by done.
    unfold array_splice_insert, array_splice_remove.
    assert (length (delete i (Block.inputList b))
            = pred (length (Block.inputList b))) as <-.
    { rewrite length_delete by done. lia. }
    by rewrite firstn_all, drop_all.
  - intros ref i r input rinput -> Hrne Hne Hnd Hi Hname Hr Hrname.
    unfold Block_moveInputBefore.
    rewrite bool_decide_eq_false_2 by congruence. mstep.
    assert (truthy ref = true) as Ht.
    { unfold truthy. by apply negb_true_iff, String.eqb_neq. }
    cbn [truthy_opt]. rewrite Ht.
    by rewrite (moveInputBefore_loop_both _ 0 i r name ref input rinput).
Qed.

Lemma moveInputBefore_cases_witness :
  ∃ st', Block_moveInputBefore 0 "A" None inputs_state = Ret tt st' ∧
    blocks st' !! 0
    = Some (Block.set_inputList
              [Input.mk DUMMY_INPUT "B" None []; Input.mk DUMMY_INPUT "C" None [];
               Input.mk DUMMY_INPUT "A" None []] inputs_block) ∧
    conns st' = conns inputs_state ∧ ws st' = ws inputs_state.
Proof.
  apply (proj1 (proj2 (proj2 (proj2
           (moveInputBefore_cases 0 inputs_block "A" None inputs_state eq_refl))))
           0 (Input.mk DUMMY_INPUT "A" None [])); [done|done|].
  split_and!; [done|done|]. intros j x Hj. lia.
Defined.

(** *** Removing an input *)

(** Rewrites with the facts at hand about the fields of the blocks,
    connections and inputs that a method meets. *)
Ltac use_fields :=
  repeat match goal with
         | H : ?f ?x = _ |- context [?f ?x] => is_var x; rewrite H
         end.

Ltac run_fields :=
  repeat first
    [ mstep
    | progress fields
    | progress use_fields
    | rewrite decide_False by congruence
    | rewrite decide_True by congruence
    | unfold_method ].

Lemma removeInput_find_absent (l : list Input.t) (k : nat) (name : string) :
  (∀ input, input ∈ l → Input.name input ≠ name) →
  removeInput_find l k name = None.
Proof.
  revert k. induction l as [|x l IH]; intros k Habs; [done|]. cbn.
  rewrite decide_False by (apply Habs; left).
  apply IH. intros ? ?. apply Habs. by right.
Qed.

Lemma removeInput_find_first (l : list Input.t) (k i : nat) (name : string)
    (input : Input.t) :
  first_named l name i input →
  removeInput_find l k name = Some (k + i, input).
Proof.
  revert k i. induction l as [|x l IH]; intros k i (Hi & Hname & Hfirst).
  { by rewrite lookup_nil in Hi. }
  cbn. destruct i as [|i].
  - injection Hi as ->. rewrite decide_True by done. do 2 f_equal. lia.
  - rewrite decide_False by (apply (Hfirst 0 x); [lia|done]).
    rewrite (IH (S k) i).
    + do 2 f_equal. lia.
    + split_and!; try done. intros j y Hj Hy. apply (Hfirst (S j) y); [lia|done].
Qed.

(** X9.  [removeInput(name, opt_quiet)] on a block with no input called
    [name] changes nothing: it returns when [opt_quiet] is set and fails
    an assertion when it is not.  Otherwise it removes the first input
    called [name] and leaves the other inputs in their order; when
    nothing is attached to that input, its connection (if it has one) is
    disposed of and nothing else changes in the stores. *)
Theorem removeInput_cases (fuel : nat) (this : BlockRef) (b : Block.t)
    (name : string) (st : State) :
  blocks st !! this = Some b →
  ((∀ input, input ∈ Block.inputList b → Input.name input ≠ name) →
   Block_removeInput fuel this name true st = Ret tt st ∧
   ∃ msg, Block_removeInput fuel this name false st
          = Raise (AssertionError msg) st) ∧
  (∀ i input opt_quiet,
     first_named (Block.inputList b) name i input →
     unattached st (Input.connection input) →
     ∃ st', Block_removeInput fuel this name opt_quiet st = Ret tt st' ∧
       blocks st' = alter (Block.set_inputList (delete i (Block.inputList b)))
                          this (blocks st) ∧
       conns st' = match Input.connection input with
                   | Some c => alter (Connection.set_disposed true) c (conns st)
                   | None => conns st
                   end ∧
       ws st' = ws st ∧ ev st' = ev st).
Proof.
  intros Hb. split.
  - intros Habs. split; unfold Block_removeInput; mstep;
      rewrite removeInput_find_absent by done; eauto.
  - intros i input opt_quiet Hfirst Hun. unfold Block_removeInput. mstep.
    rewrite (removeInput_find_first _ 0 i name input) by done. cbn [Nat.add].
    unfold Input_dispose, Connection_dispose, array_splice_remove.
    destruct (Input.connection input) as [c|] eqn:Hc.
    + destruct (Hun c eq_refl) as (x & Hx & Ht).
      unfold Connection_isConnected. run_fields. unfold modify.
      eexists. split; [reflexivity|]. proj. split_and!; try done.
      apply list_eq. intros j. destruct (decide (j = this)) as [->|Hne].
      * by rewrite !list_lookup_alter_eq, Hb.
      * by rewrite !list_lookup_alter_ne.
    + run_fields. unfold modify.
      eexists. split; [reflexivity|]. proj. split_and!; try done.
      apply list_eq. intros j. destruct (decide (j = this)) as [->|Hne].
      * by rewrite !list_lookup_alter_eq, Hb.
      * by rewrite !list_lookup_alter_ne.
Qed.

Lemma removeInput_cases_witness :
  (Block_removeInput 1 0 "D" true inputs_state = Ret tt inputs_state ∧
   ∃ msg, Block_removeInput 1 0 "D" false inputs_state
          = Raise (AssertionError msg) inputs_state) ∧
  ∃ st', Block_removeInput 1 0 "B" false inputs_state = Ret tt st' ∧
    blocks st'
    = [Block.set_inputList [Input.mk DUMMY_INPUT "A" None [];
                            Input.mk DUMMY_INPUT "C" None []] inputs_block] ∧
    conns st' = conns inputs_state ∧
    ws st' = ws inputs_state ∧ ev st' = ev inputs_state.
Proof.
  split.
  - apply (proj1 (removeInput_cases 1 0 inputs_block "D" inputs_state eq_refl)).
    intros input Hin. cbn in Hin.
    repeat (apply elem_of_cons in Hin as [->|Hin]; [done|]).
    by apply elem_of_nil in Hin.
  - apply (proj2 (removeInput_cases 1 0 inputs_block "B" inputs_state eq_refl)
             1 (Input.mk DUMMY_INPUT "B" None []) false).
    + split_and!; [done|done|].
      intros [|j] x Hj; [intros [= <-]; done|lia].
    + by intros c [=].
Defined.

(** X10.  [removeInput] of a value input into which a block that is not
    a shadow is plugged does not dispose of that block: it unplugs it.
    The block stays in the workspace as a new top block without a parent,
    it is taken off the children of the block that had the input, the two
    connections are detached, the connection of the input is disposed of
    and the input is removed. *)
Theorem removeInput_unplugs (fuel : nat) (st : State) (P T : BlockRef)
    (bP : Block.t) (c oc : ConnRef) (name : string) (i : nat)
    (input : Input.t) (opt_quiet : bool) :
  plugged_into st P T c oc →
  blocks st !! P = Some bP →
  first_named (Block.inputList bP) name i input →
  Input.connection input = Some c →
  ∃ st' bT',
    Block_removeInput fuel P name opt_quiet st = Ret tt st' ∧
    blocks st' !! T = Some bT' ∧
    Block.workspace bT' = true ∧ Block.parentBlock_ bT' = None ∧
    top_blocks st' = top_blocks st ++ [T] ∧
    Workspace.blockDB_ (ws st') = Workspace.blockDB_ (ws st) ∧
    children_of st' P = array_without T <$> children_of st P ∧
    Block.inputList <$> blocks st' !! P = Some (delete i (Block.inputList bP)) ∧
    target_of st' oc = Some None ∧
    Connection.disposed <$> conns st' !! oc
    = Connection.disposed <$> conns st !! oc ∧
    target_of st' c = Some None ∧
    Connection.disposed <$> conns st' !! c = Some true.
Proof.
  intros (HPT & _ & (bT & HbT & HTo & HTp & HTpar & HTw & HTs)
          & (xc & Hc & Hc_o & Hc_k & Hc_t) & (xo & Ho & Ho_o & Ho_k & Ho_t))
    HbP Hfirst Hconn.
  assert (c ≠ oc) as Hne by (intros ->; congruence).
  unfold Block_removeInput. mstep.
  rewrite (removeInput_find_first _ 0 i name input) by done. cbn [Nat.add].
  rewrite Hconn.
  unfold Input_dispose, Connection_dispose, array_splice_remove, Block_unplug.
  run_fields. unfold modify.
  eexists _, _. split; [reflexivity|].
  unfold children_of, target_of, top_blocks. look.
  rewrite HbT, HbP, Hc, Ho. cbn. fields.
  split; [reflexivity|]. fields. by split_and!.
Qed.

Lemma plugged_state_plugged : plugged_into plugged_state 0 1 0 1.
Proof.
  unfold plugged_into, joined.
  split_and!; try done; eexists; by split_and!.
Qed.

Lemma removeInput_unplugs_witness :
  ∃ st' bT',
    Block_removeInput 1 0 "ARG" false plugged_state = Ret tt st' ∧
    blocks st' !! 1 = Some bT' ∧
    Block.workspace bT' = true ∧ Block.parentBlock_ bT' = None ∧
    top_blocks st' = [0; 1] ∧
    Workspace.blockDB_ (ws st') = Workspace.blockDB_ (ws plugged_state) ∧
    children_of st' 0 = Some [] ∧
    Block.inputList <$> blocks st' !! 0
    = Some [Input.mk DUMMY_INPUT "ROW" None []] ∧
    target_of st' 1 = Some None ∧
    Connection.disposed <$> conns st' !! 1 = Some false ∧
    target_of st' 0 = Some None ∧
    Connection.disposed <$> conns st' !! 0 = Some true.
Proof.
  eapply (removeInput_unplugs 1 plugged_state 0 1 _ 0 1 "ARG" 1
            (Input.mk INPUT_VALUE "ARG" (Some 0) []) false
            plugged_state_plugged eq_refl); [|done].
  split_and!; [done|done|].
  intros [|j] x Hj; [intros [= <-]; done|lia].
Defined.

(** ** Walking the block graph *)

Lemma getRootBlock_climbs (st : State) (this r : BlockRef) (n : nat) :
  climbs st this r n →
  ∀ fuel, n < fuel → Block_getRootBlock fuel this st = Ret r st.
Proof.
  unfold parent_of.
  induction 1 as [r Hr|this p r n Hp _ IH]; intros fuel Hfuel;
    (destruct fuel as [|fuel]; [lia|]); cbn [Block_getRootBlock].
  - apply fmap_Some in Hr as (b & Hb & Hpar).
    mstep. by rewrite <- Hpar.
  - apply fmap_Some in Hp as (b & Hb & Hpar).
    mstep. rewrite <- Hpar. apply IH. lia.
Qed.

Lemma climbs_root (st : State) (this r : BlockRef) (n : nat) :
  climbs st this r n → climbs st r r 0.
Proof. induction 1; [by constructor|done]. Qed.

Lemma getRootBlock_Ret_climbs (fuel : nat) (st st' : State)
    (this r : BlockRef) :
  Block_getRootBlock fuel this st = Ret r st' →
  st' = st ∧ ∃ n, n < fuel ∧ climbs st this r n.
Proof.
  revert this. induction fuel as [|fuel IH]; intros this; [done|].
  cbn [Block_getRootBlock]. unfold bind, getBlock.
  destruct (blocks st !! this) as [b|] eqn:Hb; [|done].
  destruct (Block.parentBlock_ b) as [p|] eqn:Hp.
  - intros H. apply IH in H as (-> & n & Hn & Hclimb).
    split; [done|]. exists (S n). split; [lia|].
    econstructor; [|done]. unfold parent_of. by rewrite Hb, <- Hp.
  - intros [= <- <-]. split; [done|]. exists 0. split; [lia|].
    constructor. unfold parent_of. by rewrite Hb, <- Hp.
Qed.

(** X11.  When a block is finitely many parents below a block without a
    parent, [getRootBlock] returns that block and leaves the state as it
    is; the result is the block itself exactly when it has no parent, and
    [getRootBlock] of the result is the result.  Conversely, a block that
    [getRootBlock] returns has no parent and is reached by climbing the
    parents from the block asked for. *)
Theorem getRootBlock_top (st : State) (this : BlockRef) :
  (∀ r n, climbs st this r n →
     ∀ fuel, n < fuel →
       Block_getRootBlock fuel this st = Ret r st ∧
       Block_getRootBlock fuel r st = Ret r st ∧
       parent_of st r = Some None ∧
       (r = this ↔ parent_of st this = Some None)) ∧
  (∀ fuel r st', Block_getRootBlock fuel this st = Ret r st' →
     st' = st ∧ parent_of st r = Some None ∧ ∃ n, climbs st this r n).
Proof.
  split.
  - intros r n Hclimb fuel Hfuel.
    pose proof (climbs_root _ _ _ _ Hclimb) as Hroot.
    split_and!.
    + by eapply getRootBlock_climbs.
    + eapply getRootBlock_climbs; [done|lia].
    + by inversion Hroot.
    + split.
      * intros ->. by inversion Hroot.
      * intros Htop. inversion Hclimb; [done|congruence].
  - intros fuel r st' H.
    apply getRootBlock_Ret_climbs in H as (-> & n & _ & Hclimb).
    split_and!; [done| |by exists n].
    pose proof (climbs_root _ _ _ _ Hclimb) as Hroot. by inversion Hroot.
Qed.

Lemma getRootBlock_top_witness :
  Block_getRootBlock 3 2 (stack3_state None None)
  = Ret 0 (stack3_state None None) ∧
  Block_getRootBlock 3 0 (stack3_state None None)
  = Ret 0 (stack3_state None None) ∧
  parent_of (stack3_state None None) 0 = Some None ∧
  (0 = 2 ↔ parent_of (stack3_state None None) 2 = Some None).
Proof.
  apply (proj1 (getRootBlock_top (stack3_state None None) 2) 0 2); [|lia].
  eapply climbs_step; [reflexivity|].
  eapply climbs_step; [reflexivity|].
  by apply climbs_top.
Defined.

(** *** The last connection of a stack *)

Lemma lastConnectionInStack_free (fuel : nat) (this : BlockRef) (c : ConnRef)
    (st st' : State) :
  Block_lastConnectionInStack_ fuel this st = Ret (Some c) st' →
  st' = st ∧
  (∃ last b, blocks st !! last = Some b ∧ Block.nextConnection b = Some c) ∧
  Connection_targetBlock c st = Ret None st.
Proof.
  revert this. induction fuel as [|fuel IH]; intros this; [done|].
  cbn [Block_lastConnectionInStack_]. unfold bind at 1, getBlock.
  destruct (blocks st !! this) as [b|] eqn:Hb; [|done].
  destruct (Block.nextConnection b) as [nc|] eqn:Hnc; [|done].
  unfold bind.
  destruct (Connection_targetBlock nc st) as [[nb|] s1|e s1|] eqn:Ht;
    [| |done..].
  - assert (s1 = st) as ->.
    { revert Ht. unfold Connection_targetBlock, bind, getConn.
      destruct (conns st !! nc) as [x|]; [|done].
      destruct (Connection.targetConnection x) as [t|]; [|by intros [= ? ->]].
      destruct (conns st !! t); [|done]. by intros [= ? ->]. }
    apply IH.
  - assert (s1 = st) as ->.
    { revert Ht. unfold Connection_targetBlock, bind, getConn.
      destruct (conns st !! nc) as [x|]; [|done].
      destruct (Connection.targetConnection x) as [t|]; [|by intros [= ->]].
      destruct (conns st !! t); [|done]. by intros [= ? ->]. }
    intros [= <- <-]. split_and!; [done|by exists this, b|done].
Qed.

Lemma lastConnectionInStack_stack (st : State) (below : list (ConnRef * BlockRef))
    (this : BlockRef) (last : ConnRef) :
  stack_below st this below last →
  ∀ fuel, length below < fuel →
    Block_lastConnectionInStack_ fuel this st = Ret (Some last) st.
Proof.
  revert this. induction below as [|[nc nb] below IH]; intros this Hstack fuel Hf;
    (destruct fuel as [|fuel]; [cbn in Hf; lia|]);
    cbn [Block_lastConnectionInStack_]; cbn [stack_below] in Hstack.
  - destruct Hstack as (Hnc & Ht). apply fmap_Some in Hnc as (b & Hb & Hnc).
    apply fmap_Some in Ht as (x & Hx & Ht).
    mstep. rewrite <- Hnc. unfold Connection_targetBlock. repeat mstep.
    by rewrite <- Ht.
  - destruct Hstack as (Hnc & (pc & y & Ht & Hy & Ho) & Hrest).
    apply fmap_Some in Hnc as (b & Hb & Hnc).
    apply fmap_Some in Ht as (x & Hx & Ht).
    mstep. rewrite <- Hnc. unfold Connection_targetBlock. repeat mstep.
    rewrite <- Ht. repeat mstep. rewrite Ho. apply IH; [done|cbn in Hf; lia].
Qed.

(** X12.  A connection that [lastConnectionInStack_] returns is the next
    connection of a block and has no block on its other side, and the
    call leaves the state as it is.  From any block of a stack of
    statement blocks whose last next connection is free, it returns that
    connection. *)
Theorem lastConnectionInStack_last (st : State) (this : BlockRef) :
  (∀ fuel c st',
     Block_lastConnectionInStack_ fuel this st = Ret (Some c) st' →
     st' = st ∧
     (∃ last b, blocks st !! last = Some b ∧ Block.nextConnection b = Some c) ∧
     Connection_targetBlock c st = Ret None st) ∧
  (∀ below last,
     stack_below st this below last →
     ∀ fuel, length below < fuel →
       Block_lastConnectionInStack_ fuel this st = Ret (Some last) st) ∧
  ((Block.nextConnection <$> blocks st !! this) = Some None →
   ∀ fuel, Block_lastConnectionInStack_ (S fuel) this st = Ret None st).
Proof.
  split_and!.
  - intros fuel c st'. apply lastConnectionInStack_free.
  - intros below last. apply lastConnectionInStack_stack.
  - intros Hnc fuel. apply fmap_Some in Hnc as (b & Hb & Hnc).
    cbn [Block_lastConnectionInStack_]. mstep. by rewrite <- Hnc.
Qed.

Lemma lastConnectionInStack_last_witness :
  Block_lastConnectionInStack_ 3 0 (stack3_state None None)
  = Ret (Some 5) (stack3_state None None).
Proof.
  apply (proj1 (proj2 (lastConnectionInStack_last (stack3_state None None) 0))
           [(1, 1); (3, 2)] 5); [|cbn; lia].
  cbn. split_and!; try done; eexists _, _; by split_and!.
Defined.

(** *** The input a block is plugged into *)

Lemma targetBlock_state (c : ConnRef) (t : option BlockRef) (st st' : State) :
  Connection_targetBlock c st = Ret t st' → st' = st.
Proof.
  unfold Connection_targetBlock, bind, getConn.
  destruct (conns st !! c) as [x|]; [|done].
  destruct (Connection.targetConnection x) as [y|]; [|by intros [= ? ->]].
  destruct (conns st !! y); [|done]. by intros [= ? ->].
Qed.

Lemma getInputWithBlock_loop_Some (l : list Input.t) (block : BlockRef)
    (input : Input.t) (st st' : State) :
  getInputWithBlock_loop l block st = Ret (Some input) st' →
  st' = st ∧ input ∈ l ∧
  ∃ c, Input.connection input = Some c ∧
       Connection_targetBlock c st = Ret (Some block) st.
Proof.
  induction l as [|x l IH]; [done|]. cbn [getInputWithBlock_loop].
  destruct (Input.connection x) as [c|] eqn:Hc.
  - unfold bind.
    destruct (Connection_targetBlock c st) as [t s1|e s1|] eqn:Ht; [|done..].
    pose proof (targetBlock_state _ _ _ _ Ht) as ->.
    destruct (decide (t = Some block)) as [->|Hne].
    + intros [= <- <-]. split_and!; [done|by left|by exists c].
    + intros H. apply IH in H as (-> & Hin & Hex).
      split_and!; [done|by right|done].
  - intros H. apply IH in H as (-> & Hin & Hex).
    split_and!; [done|by right|done].
Qed.

Lemma getInputWithBlock_loop_None (l : list Input.t) (block : BlockRef)
    (st : State) :
  (∀ input c, input ∈ l → Input.connection input = Some c →
     ∃ t, Connection_targetBlock c st = Ret t st ∧ t ≠ Some block) →
  getInputWithBlock_loop l block st = Ret None st.
Proof.
  induction l as [|x l IH]; intros H; [done|]. cbn [getInputWithBlock_loop].
  assert (getInputWithBlock_loop l block st = Ret None st) as Hl.
  { apply IH. intros input c Hin. apply H. by right. }
  destruct (Input.connection x) as [c|] eqn:Hc; [|done].
  destruct (H x c) as (t & Ht & Hne); [by left|done|].
  rewrite (bind_Ret _ _ _ _ _ Ht). by rewrite decide_False.
Qed.

Lemma getInputWithBlock_loop_first (l : list Input.t) (block : BlockRef)
    (i : nat) (input : Input.t) (c : ConnRef) (st : State) :
  l !! i = Some input → Input.connection input = Some c →
  Connection_targetBlock c st = Ret (Some block) st →
  (∀ x c', x ∈ take i l → Input.connection x = Some c' →
     ∃ t, Connection_targetBlock c' st = Ret t st ∧ t ≠ Some block) →
  getInputWithBlock_loop l block st = Ret (Some input) st.
Proof.
  revert i. induction l as [|x l IH]; intros i Hi Hc Ht Hbefore.
  { by rewrite lookup_nil in Hi. }
  cbn [getInputWithBlock_loop]. destruct i as [|i].
  - injection Hi as ->. rewrite Hc, (bind_Ret _ _ _ _ _ Ht).
    by rewrite decide_True.
  - assert (getInputWithBlock_loop l block st = Ret (Some input) st) as Hl.
    { apply (IH i); try done. intros y c' Hy. apply Hbefore. by right. }
    destruct (Input.connection x) as [c'|] eqn:Hc'; [|done].
    destruct (Hbefore x c') as (t & Ht' & Hne); [by left|done|].
    rewrite (bind_Ret _ _ _ _ _ Ht'). by rewrite decide_False.
Qed.

Lemma getInput_loop_unique (l : list Input.t) (input : Input.t) :
  NoDup (map Input.name l) → input ∈ l →
  getInput_loop l (Input.name input) = Some input.
Proof.
  induction l as [|x l IH]; intros Hnd Hin; [by apply elem_of_nil in Hin|].
  cbn [map] in Hnd. apply NoDup_cons in Hnd as [Hx Hnd]. cbn.
  apply elem_of_cons in Hin as [->|Hin].
  - by rewrite decide_True.
  - rewrite decide_False; [by apply IH|].
    intros Heq. apply Hx. rewrite Heq. apply list_elem_of_fmap. by exists input.
Qed.

(** X13.  An input that [getInputWithBlock(block)] returns is an input of
    this block whose connection has [block] on its other side, and the
    call leaves the state as it is; when no two inputs of the block have
    the same name, [getInputTargetBlock] of that input's name gives
    [block] back.  The input returned is the first one whose connection
    has [block] on its other side; when there is none the result is
    null. *)
Theorem getInputWithBlock_found (this block : BlockRef) (b : Block.t)
    (st : State) :
  blocks st !! this = Some b →
  (∀ input st',
     Block_getInputWithBlock this block st = Ret (Some input) st' →
     st' = st ∧ input ∈ Block.inputList b ∧
     (∃ c, Input.connection input = Some c ∧
           Connection_targetBlock c st = Ret (Some block) st) ∧
     (NoDup (map Input.name (Block.inputList b)) →
      Block_getInputTargetBlock this (Input.name input) st
      = Ret (Some block) st)) ∧
  (∀ i input c,
     Block.inputList b !! i = Some input → Input.connection input = Some c →
     Connection_targetBlock c st = Ret (Some block) st →
     (∀ x c', x ∈ take i (Block.inputList b) → Input.connection x = Some c' →
        ∃ t, Connection_targetBlock c' st = Ret t st ∧ t ≠ Some block) →
     Block_getInputWithBlock this block st = Ret (Some input) st) ∧
  ((∀ input c, input ∈ Block.inputList b → Input.connection input = Some c →
      ∃ t, Connection_targetBlock c st = Ret t st ∧ t ≠ Some block) →
   Block_getInputWithBlock this block st = Ret None st).
Proof.
  intros Hb. split_and!.
  - intros input st'. unfold Block_getInputWithBlock. mstep. intros H.
    apply getInputWithBlock_loop_Some in H as (-> & Hin & c & Hc & Ht).
    split_and!; [done|done|by exists c|].
    intros Hnd. unfold Block_getInputTargetBlock, Block_getInput. mstep.
    by rewrite getInput_loop_unique, Hc.
  - intros i input c Hi Hc Ht Hbefore. unfold Block_getInputWithBlock. mstep.
    by eapply getInputWithBlock_loop_first.
  - intros H. unfold Block_getInputWithBlock. mstep.
    by apply getInputWithBlock_loop_None.
Qed.

Lemma getInputWithBlock_found_witness :
  Block_getInputWithBlock 0 1 plugged_state
  = Ret (Some (Input.mk INPUT_VALUE "ARG" (Some 0) [])) plugged_state.
Proof.
  eapply (proj1 (proj2 (getInputWithBlock_found 0 1 _ plugged_state eq_refl))
            1 _ 0); [done|done|done|].
  intros x c' Hx Hc'. cbn in Hx.
  apply elem_of_cons in Hx as [->|Hx]; [done|by apply elem_of_nil in Hx].
Defined.

(** *** The surrounding block *)

Lemma getParent_run (this : BlockRef) (p : option BlockRef) (st : State) :
  parent_of st this = Some p → Block_getParent this st = Ret p st.
Proof.
  unfold parent_of. intros H. apply fmap_Some in H as (b & Hb & ->).
  unfold Block_getParent. by mstep.
Qed.

(** X14.  Every block of a stack has the surround parent of the first
    block of the stack: [getSurroundParent] climbs past each parent whose
    next block it comes from.  The surround parent of a block without a
    parent is null, and that of a block whose parent has another next
    block, or none, is the parent. *)
Theorem getSurroundParent_stack (st : State) (this : BlockRef) :
  (∀ head n, stacked st this head n →
     ∀ fuel, Block_getSurroundParent (n + fuel) this st
             = Block_getSurroundParent fuel head st) ∧
  (parent_of st this = Some None →
   ∀ fuel, Block_getSurroundParent (S fuel) this st = Ret None st) ∧
  (∀ p next, parent_of st this = Some (Some p) →
     Block_getNextBlock p st = Ret next st → next ≠ Some this →
     ∀ fuel, Block_getSurroundParent (S fuel) this st = Ret (Some p) st).
Proof.
  split_and!.
  - intros head n Hst. induction Hst as [head|this p head n Hp Hnext _ IH];
      intros fuel; [done|].
    cbn [Nat.add Block_getSurroundParent].
    rewrite (bind_Ret _ _ _ _ _ (getParent_run _ _ _ Hp)).
    rewrite (bind_Ret _ _ _ _ _ Hnext).
    rewrite decide_True by done. apply IH.
  - intros Hp fuel. cbn [Block_getSurroundParent].
    by rewrite (bind_Ret _ _ _ _ _ (getParent_run _ _ _ Hp)).
  - intros p next Hp Hnext Hne fuel. cbn [Block_getSurroundParent].
    rewrite (bind_Ret _ _ _ _ _ (getParent_run _ _ _ Hp)).
    rewrite (bind_Ret _ _ _ _ _ Hnext).
    by rewrite decide_False.
Qed.

Lemma getSurroundParent_stack_witness :
  Block_getSurroundParent (2 + 1) 2 (stack3_state None None)
  = Block_getSurroundParent 1 0 (stack3_state None None).
Proof.
  apply (proj1 (getSurroundParent_stack (stack3_state None None) 2) 0 2).
  eapply stacked_next; [reflexivity|reflexivity|].
  eapply stacked_next; [reflexivity|reflexivity|].
  apply stacked_head.
Defined.

(** ** What a disposal leaves alone *)

Lemma hoare_conseq {A} (P : State → Prop) (m : M A) (Q Q' : A → State → Prop)
    (E E' : State → Prop) :
  hoare P m Q E → (∀ a s, Q a s → Q' a s) → (∀ s, E s → E' s) →
  hoare P m Q' E'.
Proof.
  intros H HQ HE s Hs. specialize (H s Hs).
  destruct (m s); [by apply HQ|by apply HE|done].
Qed.

(** [try ... finally] with different outcomes for a return and a throw. *)
Lemma hoare_try_finally_throw {A} (P R R' Q E : State → Prop) (m : M A)
    (fin : M unit) :
  hoare P m (λ _, R) R' →
  hoare R fin (λ _, Q) E → hoare R' fin (λ _, E) E →
  hoare P (try_finally m fin) (λ _, Q) E.
Proof.
  intros Hm Hf Hf' s Hs. unfold try_finally. specialize (Hm s Hs).
  destruct (m s) as [a s1|e s1|]; [| |done].
  - specialize (Hf s1 Hm). by destruct (fin s1).
  - specialize (Hf' s1 Hm). by destruct (fin s1).
Qed.

Lemma bind_OutOfFuel {A B} (m : M A) (k : A → M B) (s : State) :
  m s = OutOfFuel → bind m k s = OutOfFuel.
Proof. intros H. unfold bind. by rewrite H. Qed.

Lemma final_preserves {A} (P : State → Prop) (m : M A) (s s' : State) :
  preserves P m → P s → final (m s) = Some s' → P s'.
Proof.
  intros H Hs Hf. specialize (H s Hs).
  destruct (m s); cbn in Hf; [by injection Hf as <-..|done].
Qed.

(** *** The event globals *)

Ltac events_leaf := intros ? ?; assumption.
Ltac pres_events := pres_with events_leaf.

Section EventsAt.
Context (g : Events.t).

Lemma events_at_call_listeners (d : nat) (fs : list Listener) (e : Event.t) :
  preserves (events_at g d) (call_listeners fs e).
Proof. induction fs; cbn; pres_events. Qed.
Hint Resolve events_at_call_listeners : pres.

Lemma events_at_fire (d : nat) (e : Event.t) :
  preserves (events_at g d) (Events_fire e).
Proof. unfold Events_fire, Workspace_fireChangeListener. pres_events. Qed.
Hint Resolve events_at_fire : pres.

Lemma events_at_setParent (d : nat) (r : BlockRef) (newParent : option BlockRef) :
  preserves (events_at g d) (Block_setParent r newParent).
Proof. unfold Block_setParent. pres_events. Qed.
Hint Resolve events_at_setParent : pres.

Lemma events_at_connect (d : nat) (c other : ConnRef) :
  preserves (events_at g d) (Connection_connect c other).
Proof. unfold Connection_connect. pres_events. Qed.
Hint Resolve events_at_connect : pres.

Lemma events_at_disconnect (d : nat) (c : ConnRef) :
  preserves (events_at g d) (Connection_disconnect c).
Proof. unfold Connection_disconnect. pres_events. Qed.
Hint Resolve events_at_disconnect : pres.

Lemma events_at_unplug (d : nat) (r : BlockRef) (heal : bool) :
  preserves (events_at g d) (Block_unplug r heal).
Proof. unfold Block_unplug. pres_events. Qed.
Hint Resolve events_at_unplug : pres.

Lemma events_at_dispose_inputs (d : nat) (r : BlockRef) (inputs : list Input.t) :
  preserves (events_at g d) (dispose_inputs r inputs).
Proof. induction inputs; cbn; pres_events. Qed.
Hint Resolve events_at_dispose_inputs : pres.

Lemma events_at_dispose_connections (d : nat) (cs : list ConnRef) :
  preserves (events_at g d) (dispose_connections cs).
Proof. induction cs; cbn; pres_events. Qed.
Hint Resolve events_at_dispose_connections : pres.

Lemma events_at_dispose (fuel : nat) :
  ∀ d r heal, preserves (events_at g d) (Block_dispose fuel r heal).
Proof.
  induction fuel as [|fuel IH]; intros d r heal; cbn [Block_dispose].
  - by intros s Hs.
  - apply preserves_bind; [pres_events|intros b].
    destruct (negb (Block.workspace b)); [pres_events|].
    apply preserves_bind; [pres_events|intros _].
    apply preserves_bind; [pres_events|intros _].
    apply preserves_bind; [pres_events|intros en].
    apply preserves_bind; [pres_events|intros _].
    eapply hoare_bind with (Q' := λ _, events_at g (S d)).
    { intros s Hs. unfold events_at in *. cbn. by rewrite Hs. }
    intros _.
    apply hoare_try_finally with (R := events_at g (S d)).
    + apply preserves_bind; [pres_events|intros _].
      apply preserves_bind; [pres_events|intros b1].
      apply preserves_bind.
      { generalize (length (Block.childBlocks_ b1)). intros n.
        induction n; [pres_events|].
        apply preserves_bind; [pres_events|intros bi].
        destruct (Block.childBlocks_ bi !! n); [|pres_events].
        apply preserves_bind; [apply IH|intros _; apply IHn]. }
      intros _. pres_events.
    + intros s Hs. unfold events_at in *. cbn. by rewrite Hs.
Qed.

End EventsAt.

Lemma events_at_same (s : State) :
  events_at (ev s) (Events.disabled_ (ev s)) s.
Proof. unfold events_at. by destruct (ev s). Qed.

Lemma events_at_eq (s s' : State) :
  events_at (ev s) (Events.disabled_ (ev s)) s' → ev s' = ev s.
Proof. unfold events_at. intros ->. by destruct (ev s). Qed.

(** X15.  [dispose] leaves the event globals as it found them, whether
    it returns or throws: events are as deep disabled as before (the
    [finally] undoes the [Blockly.Events.disable] of each disposal, those
    of the children too), and the group and the [recordUndo] flag are not
    touched. *)
Theorem dispose_restores_events (fuel : nat) (this : BlockRef)
    (healStack : bool) (st st' : State) :
  final (Block_dispose fuel this healStack st) = Some st' →
  ev st' = ev st.
Proof.
  intros H. apply events_at_eq.
  apply (final_preserves _ _ st st'
           (events_at_dispose (ev st) fuel _ this healStack));
    [apply events_at_same|done].
Qed.

Lemma dispose_restores_events_witness :
  ∃ st', final (Block_dispose 3 0 false nested_state) = Some st' ∧
    ev st' = ev nested_state.
Proof.
  eexists. split; [vm_compute; reflexivity|].
  apply (dispose_restores_events 3 0 false nested_state). vm_compute. reflexivity.
Defined.

(** *** The registry and the listeners only shrink *)

Lemma registry_within_delete (m : gmap string BlockRef) (l : list Listener)
    (id : string) (s : State) :
  registry_within m l s →
  registry_within m l
    (set_ws (λ w, Workspace.set_blockDB_ (delete id (Workspace.blockDB_ w)) w) s).
Proof.
  intros [Hm Hl]. split; [|done]. proj. cbn.
  etrans; [apply delete_subseteq|done].
Qed.

Lemma registry_within_remove (m : gmap string BlockRef) (l : list Listener)
    (f : Listener) (s : State) :
  registry_within m l s →
  registry_within m l
    (set_ws (λ w, Workspace.set_listeners_
                    (array_without f (Workspace.listeners_ w)) w) s).
Proof.
  intros [Hm Hl]. split; [done|]. proj. cbn.
  etrans; [apply array_without_sublist|done].
Qed.

Ltac registry_leaf :=
  intros ? ?;
  first [ assumption
        | by apply registry_within_delete
        | by apply registry_within_remove ].
Ltac pres_registry := pres_with registry_leaf.

Section Registry.
Context (m : gmap string BlockRef) (l : list Listener).

Lemma registry_call_listeners (fs : list Listener) (e : Event.t) :
  preserves (registry_within m l) (call_listeners fs e).
Proof. induction fs; cbn; pres_registry. Qed.
Hint Resolve registry_call_listeners : pres.

Lemma registry_fire (e : Event.t) :
  preserves (registry_within m l) (Events_fire e).
Proof. unfold Events_fire, Workspace_fireChangeListener. pres_registry. Qed.
Hint Resolve registry_fire : pres.

Lemma registry_setParent (r : BlockRef) (newParent : option BlockRef) :
  preserves (registry_within m l) (Block_setParent r newParent).
Proof. unfold Block_setParent. pres_registry. Qed.
Hint Resolve registry_setParent : pres.

Lemma registry_connect (c other : ConnRef) :
  preserves (registry_within m l) (Connection_connect c other).
Proof. unfold Connection_connect. pres_registry. Qed.
Hint Resolve registry_connect : pres.

Lemma registry_disconnect (c : ConnRef) :
  preserves (registry_within m l) (Connection_disconnect c).
Proof. unfold Connection_disconnect. pres_registry. Qed.
Hint Resolve registry_disconnect : pres.

Lemma registry_unplug (r : BlockRef) (heal : bool) :
  preserves (registry_within m l) (Block_unplug r heal).
Proof. unfold Block_unplug. pres_registry. Qed.
Hint Resolve registry_unplug : pres.

Lemma registry_dispose_inputs (r : BlockRef) (inputs : list Input.t) :
  preserves (registry_within m l) (dispose_inputs r inputs).
Proof. induction inputs; cbn; pres_registry. Qed.
Hint Resolve registry_dispose_inputs : pres.

Lemma registry_dispose_connections (cs : list ConnRef) :
  preserves (registry_within m l) (dispose_connections cs).
Proof. induction cs; cbn; pres_registry. Qed.
Hint Resolve registry_dispose_connections : pres.

Lemma registry_dispose (fuel : nat) (r : BlockRef) (heal : bool) :
  preserves (registry_within m l) (Block_dispose fuel r heal).
Proof.
  revert r heal. induction fuel as [|fuel IH]; intros r heal; cbn.
  - by intros s Hs.
  - pres_registry.
    match goal with |- preserves _ (?f (length ?l)) =>
      generalize (length l) end.
    intros n. induction n; pres_registry.
Qed.

End Registry.

Lemma registry_within_same (s : State) :
  registry_within (Workspace.blockDB_ (ws s)) (Workspace.listeners_ (ws s)) s.
Proof. by split. Qed.

Lemma preserves_returns {A} (P : State → Prop) (m : M A) :
  preserves P m → hoare P m (λ _, P) (λ _, True).
Proof. intros H s Hs. specialize (H s Hs). by destruct (m s). Qed.

Lemma hoare_pre {A} (P P' : State → Prop) (m : M A) (Q : A → State → Prop)
    (E : State → Prop) :
  (∀ s, P s → P' s) → hoare P' m Q E → hoare P m Q E.
Proof. intros HP H s Hs. apply H, HP, Hs. Qed.

(** Updates of a block that leave its shape alone. *)
Lemma keeps_alter (this : BlockRef) sh (m : gmap string BlockRef)
    (l : list Listener) (f : Block.t → Block.t) (r : BlockRef) (s : State) :
  (∀ b, shape (f b) = shape b) →
  keeps this sh m l s → keeps this sh m l (set_blocks (alter f r) s).
Proof.
  intros Hf [Hsh Hm]. split; [|done]. proj. by rewrite lookup_alter_frame.
Qed.

Ltac keeps_leaf :=
  intros ? ?;
  first [ assumption | apply keeps_alter; [done|assumption] ].
Ltac pres_keeps := pres_with keeps_leaf.

Section Keeps.
Context (this : BlockRef) (m : gmap string BlockRef) (l : list Listener).

Lemma keeps_call_listeners sh (fs : list Listener) (e : Event.t) :
  preserves (keeps this sh m l) (call_listeners fs e).
Proof. induction fs; cbn; pres_keeps. Qed.
Hint Resolve keeps_call_listeners : pres.

Lemma keeps_fire sh (e : Event.t) :
  preserves (keeps this sh m l) (Events_fire e).
Proof. unfold Events_fire, Workspace_fireChangeListener. pres_keeps. Qed.

Lemma keeps_setParent sh (r : BlockRef) (newParent : option BlockRef) :
  preserves (keeps this sh m l) (Block_setParent r newParent).
Proof. unfold Block_setParent. pres_keeps. Qed.
Hint Resolve keeps_setParent : pres.

Lemma keeps_connect sh (c other : ConnRef) :
  preserves (keeps this sh m l) (Connection_connect c other).
Proof. unfold Connection_connect. pres_keeps. Qed.
Hint Resolve keeps_connect : pres.

Lemma keeps_disconnect sh (c : ConnRef) :
  preserves (keeps this sh m l) (Connection_disconnect c).
Proof. unfold Connection_disconnect. pres_keeps. Qed.
Hint Resolve keeps_disconnect : pres.

Lemma keeps_unplug sh (r : BlockRef) (heal : bool) :
  preserves (keeps this sh m l) (Block_unplug r heal).
Proof. unfold Block_unplug. pres_keeps. Qed.

End Keeps.

(** The disposal of a live block, from a registry within [m] and
    listeners among [l]. *)
Lemma dispose_unregisters (fuel : nat) (this : BlockRef) (heal : bool)
    (b : Block.t) (m : gmap string BlockRef) (l : list Listener) :
  Block.workspace b = true →
  hoare (λ s, keeps this (shape b) m l s ∧ Workspace.listeners_ (ws s) = l)
    (Block_dispose (S fuel) this heal)
    (λ _, registry_within (delete (Block.id b) m) (without_handler b l))
    (λ _, True).
Proof.
  intros Hw. cbn [Block_dispose].
  eapply hoare_bind with
    (Q' := λ b' s, (keeps this (shape b) m l s ∧ Workspace.listeners_ (ws s) = l)
                   ∧ shape b' = shape b).
  { intros s Hs. unfold getBlock.
    destruct (blocks s !! this) as [b'|] eqn:E; [|done].
    split; [done|]. destruct Hs as [[Hsh _] _]. rewrite E in Hsh.
    cbn in Hsh. congruence. }
  intros b'. destruct (Block.workspace b') eqn:Hw'; cbn [negb].
  2:{ intros s [_ Hsh]. exfalso. unfold shape in Hsh. congruence. }
  eapply hoare_bind with
    (Q' := λ _, keeps this (shape b) m (without_handler b l)).
  { intros s [[[Hsh [Hm Hl]] Heq] Hshape].
    assert (Block.onchangeWrapper_ b' = Block.onchangeWrapper_ b) as Hwr
      by (unfold shape in Hshape; congruence).
    unfold without_handler. rewrite Hwr.
    destruct (Block.onchangeWrapper_ b) as [f|]; [|by split].
    unfold Workspace_removeChangeListener, updWs, modify.
    split; [done|]. split; [done|]. proj. cbn. by rewrite Heq. }
  intros _.
  eapply hoare_bind with
    (Q' := λ _, keeps this (shape b) m (without_handler b l)).
  { apply preserves_returns, keeps_unplug. }
  intros _.
  eapply hoare_bind with
    (Q' := λ _, keeps this (shape b) m (without_handler b l)).
  { apply preserves_returns. pres_keeps. }
  intros en.
  eapply hoare_bind with
    (Q' := λ _, keeps this (shape b) m (without_handler b l)).
  { apply preserves_returns.
    pose proof (keeps_fire this m (without_handler b l) (shape b)) as Hfire.
    pres_keeps. }
  intros _.
  eapply hoare_bind with
    (Q' := λ _, keeps this (shape b) m (without_handler b l)).
  { apply preserves_returns.
    unfold Events_disable, updEv. apply preserves_modify. by intros s Hs. }
  intros _.
  apply hoare_try_finally_throw
    with (R := registry_within (delete (Block.id b) m) (without_handler b l))
         (R' := λ _, True).
  - eapply hoare_bind with
      (Q' := λ _, registry_within (delete (Block.id b) m) (without_handler b l)).
    + unfold Block_deregister.
      eapply hoare_bind with
        (Q' := λ b' s, keeps this (shape b) m (without_handler b l) s
                       ∧ shape b' = shape b).
      { intros s Hs. unfold getBlock.
        destruct (blocks s !! this) as [b2|] eqn:E; [|done].
        split; [done|]. destruct Hs as [Hsh _]. rewrite E in Hsh.
        cbn in Hsh. congruence. }
      intros b2. intros s [Hs Hsh].
      assert (Block.workspace b2 = true ∧ Block.id b2 = Block.id b) as [-> ->]
        by (unfold shape in Hsh; split; congruence).
      cbn [when]. revert s Hs.
      eapply hoare_bind with
        (Q' := λ _, keeps this (shape b) m (without_handler b l)).
      { unfold Workspace_removeTopBlock.
        eapply hoare_bind with
          (Q' := λ _, keeps this (shape b) m (without_handler b l));
          [by intros s Hs|intros top].
        destruct (goog_array_remove this top); [|by intros s Hs].
        by intros s Hs. }
      intros _.
      eapply hoare_bind with
        (Q' := λ _, keeps this (shape b) m (without_handler b l));
        [by intros s Hs|intros _].
      eapply hoare_bind with
        (Q' := λ _, registry_within (delete (Block.id b) m)
                      (without_handler b l)).
      { intros s [_ [Hs Hl]]. split; [|done]. cbn. by apply delete_mono. }
      intros _. by intros s Hs.
    + intros _. apply preserves_returns.
      pose proof (registry_dispose (delete (Block.id b) m)
                    (without_handler b l) fuel) as Hd.
      pose proof (registry_dispose_inputs (delete (Block.id b) m)
                    (without_handler b l)) as Hi.
      pose proof (registry_dispose_connections (delete (Block.id b) m)
                    (without_handler b l)) as Hc.
      apply preserves_bind; [pres_registry|intros b1].
      apply preserves_bind.
      { generalize (length (Block.childBlocks_ b1)). intros n.
        induction n; pres_registry. }
      intros _. pres_registry.
  - unfold Events_enable, updEv. by intros s Hs.
  - unfold Events_enable, updEv. by intros s Hs.
Qed.

(** X16.  A [dispose] never adds to the registry or to the change
    listeners, however it ends.  After the [dispose] of a live block has
    returned, the registry holds nothing under the id of the block, so
    that [getBlockById] of that id is null, and the change handler of the
    block has been taken off the listeners: when it was registered once,
    it is not registered any more. *)
Theorem dispose_unregisters_id (fuel : nat) (this : BlockRef)
    (healStack : bool) (st : State) :
  (∀ st', final (Block_dispose fuel this healStack st) = Some st' →
     Workspace.blockDB_ (ws st') ⊆ Workspace.blockDB_ (ws st) ∧
     Workspace.listeners_ (ws st') `sublist_of` Workspace.listeners_ (ws st)) ∧
  (∀ st' b, Block_dispose fuel this healStack st = Ret tt st' →
     blocks st !! this = Some b → Block.workspace b = true →
     Workspace.blockDB_ (ws st')
     ⊆ delete (Block.id b) (Workspace.blockDB_ (ws st)) ∧
     Workspace_getBlockById (ws st') (Block.id b) = None ∧
     Workspace.listeners_ (ws st')
     `sublist_of` without_handler b (Workspace.listeners_ (ws st)) ∧
     (∀ f before after,
        Block.onchangeWrapper_ b = Some f →
        Workspace.listeners_ (ws st) = before ++ f :: after →
        f ∉ before → f ∉ after →
        f ∉ Workspace.listeners_ (ws st'))).
Proof.
  split.
  - intros st' H.
    apply (final_preserves _ _ st st'
             (registry_dispose _ _ fuel this healStack)
             (registry_within_same st) H).
  - intros st' b H Hb Hw. destruct fuel as [|fuel]; [done|].
    assert (registry_within (delete (Block.id b) (Workspace.blockDB_ (ws st)))
              (without_handler b (Workspace.listeners_ (ws st))) st')
      as [Hin Hl].
    { eapply (hoare_run _ _ _ _ st st' tt
                (dispose_unregisters fuel this healStack b _ _ Hw)); [|done].
      split; [|done]. split; [by rewrite Hb|apply registry_within_same]. }
    split_and!; [done| |done|].
    + unfold Workspace_getBlockById.
      eapply lookup_weaken_None; [|exact Hin]. apply lookup_delete_eq.
    + intros f before after Hf Hlist Hb1 Ha1 Hin'.
      eapply elem_of_sublist in Hin'; [|exact Hl].
      unfold without_handler, array_without in Hin'.
      rewrite Hf, Hlist, goog_array_remove_middle in Hin' by done.
      cbn in Hin'. apply elem_of_app in Hin' as [?|?]; done.
Qed.

Lemma dispose_unregisters_id_witness :
  ∃ st', Block_dispose 3 0 false nested_state = Ret tt st' ∧
    Workspace_getBlockById (ws st') "s" = None.
Proof.
  eexists. split; [vm_compute; reflexivity|].
  apply (proj2 (dispose_unregisters_id 3 0 false nested_state) _ _
           ltac:(vm_compute; reflexivity) eq_refl eq_refl).
Defined.

(** ** Clearing a workspace *)

Lemma clear_loop_top (fuel : nat) (st st' : State) :
  clear_loop fuel st = Ret tt st' → top_blocks st' = [].
Proof.
  revert st. induction fuel as [|fuel IH]; intros st; [done|].
  cbn [clear_loop]. rewrite bind_gets.
  destruct (Workspace.topBlocks_ (ws st)) as [|block top] eqn:Htop.
  - by intros [= <-].
  - intros H. apply bind_Ret_inv in H as (? & s1 & _ & H). by eapply IH.
Qed.

Lemma events_at_clear_loop (g : Events.t) (d fuel : nat) :
  preserves (events_at g d) (clear_loop fuel).
Proof.
  induction fuel as [|fuel IH]; [by intros s Hs|]. cbn [clear_loop].
  apply preserves_bind; [apply preserves_gets|intros top].
  destruct top as [|block top]; [apply preserves_ret|].
  apply preserves_bind; [apply events_at_dispose|by intros _].
Qed.

Lemma registry_clear_loop (m : gmap string BlockRef) (l : list Listener)
    (fuel : nat) :
  preserves (registry_within m l) (clear_loop fuel).
Proof.
  induction fuel as [|fuel IH]; [by intros s Hs|]. cbn [clear_loop].
  apply preserves_bind; [apply preserves_gets|intros top].
  destruct top as [|block top]; [apply preserves_ret|].
  apply preserves_bind; [apply registry_dispose|by intros _].
Qed.

Lemma clear_loop_dead (fuel : nat) (st : State) (r : BlockRef)
    (rest : list BlockRef) :
  top_blocks st = r :: rest → dead r st → clear_loop fuel st = OutOfFuel.
Proof.
  intros Htop Hdead. unfold dead in Hdead.
  apply fmap_Some in Hdead as (b & Hb & Hw).
  induction fuel as [|fuel IH]; [done|].
  cbn [clear_loop]. rewrite bind_gets. unfold top_blocks in Htop.
  rewrite Htop. destruct fuel as [|fuel]; [done|].
  cbn [Block_dispose]. rewrite bind_assoc. mstep. rewrite <- Hw. cbn [negb].
  by rewrite bind_ret.
Qed.

(** X20.  When [clear] returns, the workspace has no top blocks, its
    registry holds nothing that it did not hold before, and the event
    globals are as they were: the group that [clear] opens when none is
    open is closed again, and events are as deep disabled as before.
    [clear] does not return while the first top block is a block that
    was disposed of before: the loop then disposes of it over and
    over. *)
Theorem clear_ends (env : Env) (st : State) :
  (∀ fuel st', Workspace_clear env fuel st = Ret tt st' →
     top_blocks st' = [] ∧
     Workspace.blockDB_ (ws st') ⊆ Workspace.blockDB_ (ws st) ∧
     ev st' = ev st) ∧
  (∀ r rest, top_blocks st = r :: rest → dead r st →
     ∀ fuel, Workspace_clear env fuel st = OutOfFuel).
Proof.
  split.
  - intros fuel st'. unfold Workspace_clear, Events_getGroup. rewrite bind_gets.
    destruct (truthy (Events.group_ (ev st))) eqn:Hg; cbn [negb when].
    + rewrite bind_ret. intros H.
      apply bind_Ret_inv in H as ([] & s1 & Hloop & H). injection H as <-.
      split_and!.
      * by eapply clear_loop_top.
      * pose proof (registry_clear_loop _ _ fuel st (registry_within_same st))
          as Hreg. rewrite Hloop in Hreg. apply Hreg.
      * apply events_at_eq.
        pose proof (events_at_clear_loop (ev st) (Events.disabled_ (ev st))
                      fuel st (events_at_same st)) as Hev.
        by rewrite Hloop in Hev.
    + assert (Events.group_ (ev st) = "") as Hempty.
      { unfold truthy in Hg. by apply negb_false_iff, String.eqb_eq in Hg. }
      unfold Events_setGroup, utils_genUid. repeat mstep. unfold modify.
      intros H. apply bind_Ret_inv in H as ([] & s1 & Hloop & H).
      injection H as <-.
      match type of Hloop with clear_loop _ ?s0 = _ =>
        pose proof (registry_clear_loop _ _ fuel s0 (registry_within_same s0))
          as Hreg;
        pose proof (events_at_clear_loop (ev s0) (Events.disabled_ (ev s0))
                      fuel s0 (events_at_same s0)) as Hev
      end.
      rewrite Hloop in Hreg, Hev. apply events_at_eq in Hev.
      split_and!.
      * change (top_blocks s1 = []). by eapply clear_loop_top.
      * apply Hreg.
      * proj. rewrite Hev. proj. destruct (ev st). cbn in *. by subst.
  - intros r rest Htop Hdead fuel.
    unfold Workspace_clear, Events_getGroup. rewrite bind_gets.
    destruct (truthy (Events.group_ (ev st))); cbn [negb when].
    + rewrite bind_ret. by rewrite (bind_OutOfFuel _ _ _
                                     (clear_loop_dead fuel st r rest Htop Hdead)).
    + unfold Events_setGroup, utils_genUid. repeat mstep. unfold modify.
      by erewrite bind_OutOfFuel by (by eapply clear_loop_dead).
Qed.

Lemma clear_ends_witness :
  ∃ st', Workspace_clear example_env 4 (stack3_state None None) = Ret tt st' ∧
    top_blocks st' = [] ∧
    Workspace.blockDB_ (ws st') ⊆ Workspace.blockDB_ (ws (stack3_state None None)) ∧
    ev st' = ev (stack3_state None None).
Proof.
  eexists. split; [vm_compute; reflexivity|].
  apply (proj1 (clear_ends example_env (stack3_state None None)) 4).
  vm_compute. reflexivity.
Defined.

(** ** Unplugging without healing *)

(** X17.  In a stack of three blocks P, Q, R, [Q.unplug(false)] (and
    [unplug()] without an argument) detaches Q from P only: Q becomes a
    top block without a parent and is taken off the children of P, whose
    next connection is left free, while R stays attached below Q and
    stays its child. *)
Theorem unplug_keeps_next_stack (st : State) (P Q R : BlockRef)
    (pn qp qn rp : ConnRef) :
  statement_stack st P Q R pn qp qn rp →
  ∃ st', Block_unplug Q false st = Ret tt st' ∧
    target_of st' pn = Some None ∧
    target_of st' qp = Some None ∧
    target_of st' qn = Some (Some rp) ∧
    target_of st' rp = Some (Some qn) ∧
    parent_of st' Q = Some None ∧
    parent_of st' R = Some (Some Q) ∧
    children_of st' Q = children_of st Q ∧
    children_of st' P = array_without Q <$> children_of st P ∧
    top_blocks st' = top_blocks st ++ [Q].
Proof.
  intros (HPQ & HQR & HPR & [bP HbP] & (bQ & HbQ & HQo & HQp & HQn & HQpar & HQw)
          & (bR & HbR & HRo & HRp & HRpar & HRw)
          & (cpn & Hpn & Hpn_o & Hpn_k & Hpn_t)
          & (cqp & Hqp & Hqp_o & Hqp_k & Hqp_t)
          & (cqn & Hqn & Hqn_o & Hqn_k & Hqn_t)
          & (crp & Hrp & Hrp_o & Hrp_k & Hrp_t)).
  assert (pn ≠ qp ∧ pn ≠ qn ∧ pn ≠ rp ∧ qp ≠ qn ∧ qp ≠ rp ∧ qn ≠ rp)
    as (? & ? & ? & ? & ? & ?) by (split_and!; congruence).
  unfold Block_unplug. run_fields. unfold modify.
  eexists. split; [reflexivity|].
  unfold target_of, parent_of, children_of, top_blocks. look.
  rewrite HbP, HbQ, HbR, Hpn, Hqp, Hqn, Hrp. cbn. fields.
  rewrite ?Hpn_t, ?Hqp_t, ?Hqn_t, ?Hrp_t, ?HRpar. by split_and!.
Qed.

Lemma unplug_keeps_next_stack_witness :
  ∃ st', Block_unplug 1 false (stack3_state None None) = Ret tt st' ∧
    target_of st' 1 = Some None ∧
    target_of st' 2 = Some None ∧
    target_of st' 3 = Some (Some 4) ∧
    target_of st' 4 = Some (Some 3) ∧
    parent_of st' 1 = Some None ∧
    parent_of st' 2 = Some (Some 1) ∧
    children_of st' 1 = Some [2] ∧
    children_of st' 0 = Some [] ∧
    top_blocks st' = [0; 1].
Proof.
  apply (unplug_keeps_next_stack (stack3_state None None) 0 1 2 1 2 3 4).
  unfold statement_stack, joined.
  split_and!; try done; eexists; by split_and!.
Defined.

(** ** Removing a connection of a block *)

Ltac remove_slot Hb :=
  intros c Hslot;
  split;
  [ intros (c' & x & Hc & Hx & Ht); injection Hc as <-;
    destruct Ht as [t Ht];
    unfold Connection_isConnected; run_fields; eauto
  | intros Hun; destruct (Hun c eq_refl) as (x & Hx & Ht);
    unfold Connection_isConnected, Connection_dispose; run_fields;
    unfold modify; eexists; split; [reflexivity|]; proj;
    by split_and! ].

(** X18.  [setOutput(false)], [setPreviousStatement(false)] and
    [setNextStatement(false)] return without a change when the block has
    no such connection; fail an assertion, changing nothing, while the
    connection is attached; and otherwise dispose of the connection and
    set the slot of the block to null, leaving everything else as it
    is. *)
Theorem remove_connection_cases (this : BlockRef) (b : Block.t)
    (opt_check : option (list string)) (st : State) :
  blocks st !! this = Some b →
  ((Block.outputConnection b = None →
    Block_setOutput this false opt_check st = Ret tt st) ∧
   (∀ c, Block.outputConnection b = Some c →
      (connected st (Some c) →
       ∃ msg, Block_setOutput this false opt_check st
              = Raise (AssertionError msg) st) ∧
      (unattached st (Some c) →
       ∃ st', Block_setOutput this false opt_check st = Ret tt st' ∧
         blocks st' = alter (Block.set_outputConnection None) this (blocks st) ∧
         conns st' = alter (Connection.set_disposed true) c (conns st) ∧
         ws st' = ws st ∧ ev st' = ev st))) ∧
  ((Block.previousConnection b = None →
    Block_setPreviousStatement this false opt_check st = Ret tt st) ∧
   (∀ c, Block.previousConnection b = Some c →
      (connected st (Some c) →
       ∃ msg, Block_setPreviousStatement this false opt_check st
              = Raise (AssertionError msg) st) ∧
      (unattached st (Some c) →
       ∃ st', Block_setPreviousStatement this false opt_check st = Ret tt st' ∧
         blocks st' = alter (Block.set_previousConnection None) this (blocks st) ∧
         conns st' = alter (Connection.set_disposed true) c (conns st) ∧
         ws st' = ws st ∧ ev st' = ev st))) ∧
  ((Block.nextConnection b = None →
    Block_setNextStatement this false opt_check st = Ret tt st) ∧
   (∀ c, Block.nextConnection b = Some c →
      (connected st (Some c) →
       ∃ msg, Block_setNextStatement this false opt_check st
              = Raise (AssertionError msg) st) ∧
      (unattached st (Some c) →
       ∃ st', Block_setNextStatement this false opt_check st = Ret tt st' ∧
         blocks st' = alter (Block.set_nextConnection None) this (blocks st) ∧
         conns st' = alter (Connection.set_disposed true) c (conns st) ∧
         ws st' = ws st ∧ ev st' = ev st))).
Proof.
  intros Hb. split_and!.
  - intros Hslot. unfold Block_setOutput. mstep. by rewrite Hslot.
  - unfold Block_setOutput. remove_slot Hb.
  - intros Hslot. unfold Block_setPreviousStatement. mstep. by rewrite Hslot.
  - unfold Block_setPreviousStatement. remove_slot Hb.
  - intros Hslot. unfold Block_setNextStatement. mstep. by rewrite Hslot.
  - unfold Block_setNextStatement. remove_slot Hb.
Qed.

Lemma remove_connection_cases_witness :
  (∃ msg, Block_setNextStatement 0 false None (stack3_state None None)
          = Raise (AssertionError msg) (stack3_state None None)) ∧
  (∃ st', Block_setNextStatement 2 false None (stack3_state None None)
          = Ret tt st' ∧
     Block.nextConnection <$> blocks st' !! 2 = Some None ∧
     Connection.disposed <$> conns st' !! 5 = Some true).
Proof.
  split.
  - apply (proj2 (proj2 (proj2
             (remove_connection_cases 0 _ None (stack3_state None None) eq_refl)))
             1 eq_refl).
    eexists _, _. split_and!; [done|done|by eexists].
  - destruct (proj2 (proj2 (proj2 (proj2
                (remove_connection_cases 2 _ None (stack3_state None None)
                   eq_refl))) 5 eq_refl))
      as (st' & Hrun & Hb & Hc & _).
    { intros c [= <-]. by eexists. }
    exists st'. split; [done|]. by rewrite Hb, Hc.
Defined.

(** ** The change handler of a block *)

(** X23.  [setOnChange] of a live block takes the block's previous
    change handler, if it has one, off the listeners of the workspace and
    registers the new one, bound to the block, behind all the others; the
    block remembers the new handler.  On a block that has been disposed
    of it throws a [TypeError]. *)
Theorem setOnChange_replaces (this : BlockRef) (b : Block.t)
    (onchangeFn : nat) (st : State) :
  blocks st !! this = Some b →
  (Block.workspace b = true →
   ∃ st', Block_setOnChange this onchangeFn st = Ret tt st' ∧
     Workspace.listeners_ (ws st')
     = without_handler b (Workspace.listeners_ (ws st))
       ++ [Bound onchangeFn this] ∧
     blocks st'
     = alter (Block.set_onchangeWrapper_ (Some (Bound onchangeFn this)))
             this (blocks st) ∧
     top_blocks st' = top_blocks st ∧
     Workspace.blockDB_ (ws st') = Workspace.blockDB_ (ws st) ∧
     Workspace.undoStack_ (ws st') = Workspace.undoStack_ (ws st) ∧
     conns st' = conns st ∧ trace st' = trace st) ∧
  (Block.workspace b = false →
   ∃ st', Block_setOnChange this onchangeFn st = Raise TypeError st').
Proof.
  intros Hb. split; intros Hw.
  - unfold Block_setOnChange, Block_workspace, Workspace_removeChangeListener,
      Workspace_addChangeListener, without_handler.
    destruct (Block.onchangeWrapper_ b) as [f|] eqn:Hf;
      repeat first [ progress run_fields
                   | progress cbn [Block.set_onchangeWrapper_ Block.workspace]
                   | rewrite Hw ];
      unfold modify; (eexists; split; [reflexivity|]); by split_and!.
  - unfold Block_setOnChange, Block_workspace.
    destruct (Block.onchangeWrapper_ b) as [f|] eqn:Hf;
      repeat first [ progress run_fields
                   | progress cbn [Block.set_onchangeWrapper_ Block.workspace]
                   | rewrite Hw ];
      eauto.
Qed.

Lemma setOnChange_replaces_witness :
  ∃ st', Block_setOnChange 0 7 nested_state = Ret tt st' ∧
    Workspace.listeners_ (ws st') = [HostFn 3; Bound 7 0] ∧
    Block.onchangeWrapper_ <$> blocks st' !! 0 = Some (Some (Bound 7 0)).
Proof.
  destruct (proj1 (setOnChange_replaces 0 _ 7 nested_state eq_refl) eq_refl)
    as (st' & Hrun & Hl & Hb & _).
  exists st'. split; [done|]. split; [done|]. by rewrite Hb.
Defined.

(** ** All blocks of a workspace *)

Lemma forest_blocks_cons (r : BlockRef) (kids rest : list tree) :
  forest_blocks (Node r kids :: rest)
  = r :: forest_blocks kids ++ forest_blocks rest.
Proof. done. Qed.

Lemma forest_blocks_app (f1 f2 : list tree) :
  forest_blocks (f1 ++ f2) = forest_blocks f1 ++ forest_blocks f2.
Proof. unfold forest_blocks. by rewrite map_app, concat_app. Qed.

Lemma height_le_size (t : tree) : height t ≤ length (preorder t).
Proof.
  induction t as [r kids IH] using tree_rect'. cbn [height preorder length].
  apply le_n_S. induction kids as [|k kids IHk]; [done|].
  apply Forall_cons in IH as [Hk IH]. cbn. rewrite length_app.
  specialize (IHk IH). lia.
Qed.

Lemma forest_blocks_elem (t : tree) (forest : list tree) :
  t ∈ forest → length (preorder t) ≤ length (forest_blocks forest).
Proof.
  induction forest as [|t' forest IH]; intros Hin;
    [by apply not_elem_of_nil in Hin|].
  unfold forest_blocks in *. cbn. rewrite length_app.
  apply elem_of_cons in Hin as [->|Hin]; [lia|].
  specialize (IH Hin). lia.
Qed.

(** The loop of [getAllBlocks] on a queue of trees. *)
Lemma getAllBlocks_loop_forest (st : State) (n : nat) :
  ∀ (queue : list tree) (done : list BlockRef) (fuel : nat),
    length (forest_blocks queue) ≤ n → n < fuel →
    Forall (unfolds_to st) queue →
    ∃ l, getAllBlocks_loop fuel (length done) (done ++ map root queue) st
         = Ret l st ∧
         (done ++ map root queue) `prefix_of` l ∧
         l ≡ₚ done ++ forest_blocks queue.
Proof.
  induction n as [|n IH]; intros queue done fuel Hsize Hfuel Hall;
    (destruct fuel as [|fuel]; [lia|]); cbn [getAllBlocks_loop].
  - destruct queue as [|[r kids] rest]; [|cbn in Hsize; lia].
    cbn [map]. rewrite app_nil_r, lookup_ge_None_2 by done.
    exists done. by rewrite app_nil_r.
  - destruct queue as [|[r kids] rest].
    { cbn [map]. rewrite app_nil_r, lookup_ge_None_2 by done.
      exists done. by rewrite app_nil_r. }
    cbn [map root]. rewrite list_lookup_middle by done.
    apply Forall_cons in Hall as [(b & Hb & Hkids & Hk) Hrest].
    apply unfolds_to_kids in Hk.
    unfold Block_getChildren. repeat mstep. rewrite Hkids.
    rewrite forest_blocks_cons in Hsize. cbn [length] in Hsize.
    destruct (IH (rest ++ kids) (done ++ [r]) fuel) as (l & Hrun & Hpre & Hperm).
    { rewrite forest_blocks_app, length_app in *. lia. }
    { lia. }
    { by apply Forall_app. }
    rewrite length_app, Nat.add_1_r in Hrun.
    rewrite map_app in Hrun, Hpre.
    replace ((done ++ r :: map root rest) ++ map root kids)
      with ((done ++ [r]) ++ map root rest ++ map root kids)
      by (by rewrite <- !app_assoc).
    exists l. split_and!; [done| |].
    + etrans; [|exact Hpre]. rewrite <- !app_assoc. cbn.
      apply prefix_app, prefix_cons, prefix_app_r. done.
    + rewrite Hperm, forest_blocks_cons, forest_blocks_app, <- app_assoc. cbn.
      apply Permutation_app_head. constructor. apply Permutation_app_comm.
Qed.

(** X19.  In a workspace whose top blocks are the roots of a forest of
    the children relation, [getAllBlocks] returns, with fuel beyond the
    number of blocks, and leaves the state as it is.  The list starts
    with the top blocks in their order, and lists the blocks of the
    forest, each as often as it occurs there: it is a rearrangement of
    the lists that [getDescendants] gives for the top blocks, one after
    the other. *)
Theorem getAllBlocks_forest (st : State) (forest : list tree) (fuel : nat) :
  top_blocks st = map root forest →
  Forall (unfolds_to st) forest →
  length (forest_blocks forest) < fuel →
  ∃ l, Workspace_getAllBlocks fuel st = Ret l st ∧
    top_blocks st `prefix_of` l ∧
    l ≡ₚ forest_blocks forest ∧
    Forall (λ t, Block_getDescendants fuel (root t) st = Ret (preorder t) st)
           forest.
Proof.
  intros Htop Hall Hfuel. unfold top_blocks in *.
  destruct (getAllBlocks_loop_forest st (length (forest_blocks forest))
              forest [] fuel) as (l & Hrun & Hpre & Hperm); [done..|].
  exists l. unfold Workspace_getAllBlocks, Workspace_getTopBlocks_unordered.
  mstep. rewrite Htop.
  split_and!; [done..|].
  apply Forall_forall. intros t Ht.
  apply getDescendants_preorder; [by eapply Forall_forall in Hall|].
  pose proof (height_le_size t). pose proof (forest_blocks_elem t forest Ht).
  lia.
Qed.

Lemma family_workspace_forest :
  Forall (unfolds_to family_workspace) [family_tree].
Proof.
  constructor; [|done]. cbn.
  eexists. split; [reflexivity|]. split; [done|]. split_and!; try done.
  - eexists. split; [reflexivity|]. split; [done|]. split_and!; try done.
    eexists. by split; [reflexivity|].
  - eexists. by split; [reflexivity|].
Qed.

Lemma getAllBlocks_forest_witness :
  ∃ l, Workspace_getAllBlocks 5 family_workspace = Ret l family_workspace ∧
    [0] `prefix_of` l ∧
    l ≡ₚ [0; 1; 3; 2] ∧
    Forall (λ t, Block_getDescendants 5 (root t) family_workspace
                 = Ret (preorder t) family_workspace) [family_tree].
Proof.
  apply (getAllBlocks_forest family_workspace [family_tree] 5 eq_refl
           family_workspace_forest).
  cbn. lia.
Defined.

(** ** Events as JSON *)

(** X21.  Decoding the JSON of an event gives its group back when the
    group is a non-empty string; an event without a group (the group
    [''] or [undefined]) is encoded without a ['group'] property and
    decodes to the group [undefined].  The ['type'] property is always
    there. *)
Theorem toJson_fromJson (type group : JsValue) :
  Abstract_toJson type group !! "type"%string = Some type ∧
  Abstract_fromJson (Abstract_toJson type group)
  = (if JsValue_truthy group then group else JsUndefined) ∧
  (JsValue_truthy group = false →
   Abstract_toJson type group !! "group"%string = None) ∧
  JsValue_truthy (Abstract_fromJson (Abstract_toJson type group))
  = JsValue_truthy group.
Proof.
  unfold Abstract_toJson, Abstract_fromJson.
  destruct (JsValue_truthy group) eqn:Hg.
  - rewrite lookup_insert_ne by done.
    rewrite lookup_singleton_eq, lookup_insert_eq. by split_and!.
  - rewrite lookup_singleton_eq, lookup_singleton_ne by done. by split_and!.
Qed.

(** ** The Create event of a new block *)

(** [try ... finally] with a [finally] block that always returns. *)
Lemma bind_try_finally {A B} (m : M A) (fin : M unit) (k : A → M B)
    (f : State → State) (s : State) :
  (∀ s1, fin s1 = Ret tt (f s1)) →
  bind (try_finally m fin) k s
  = match m s with
    | Ret a s1 => k a (f s1)
    | Raise x s1 => Raise x (f s1)
    | OutOfFuel => OutOfFuel
    end.
Proof.
  intros Hfin. unfold bind, try_finally.
  destruct (m s) as [a s1|x s1|]; [| |done]; by rewrite Hfin.
Qed.

(** X22.  [newBlock] without a type hands no event to
    [Blockly.Events.fire] while events are disabled, and returns.  While
    they are enabled it hands over one Create event for the new block,
    which is registered and a top block by then; the event is in the
    group that is open, or else in a group of its own under a newly
    generated id.  Whether [fire] returns or throws, the constructor's
    [finally] closes the group that the constructor opened, and a throw
    of [fire] is the throw of [newBlock]; so the event globals end as they
    began when [fire] leaves them alone. *)
Theorem newBlock_fires_create (env : Env) (fire : Event.t → M unit)
    (opt_id : option string) (st : State) :
  (Events.disabled_ (ev st) ≠ 0 →
   ∃ st',
     Workspace_newBlock_firing env fire None opt_id st
     = Ret (length (blocks st)) st' ∧
     trace st' = trace st ∧ ev st' = ev st ∧
     Workspace.undoStack_ (ws st') = Workspace.undoStack_ (ws st) ∧
     Workspace.redoStack_ (ws st') = Workspace.redoStack_ (ws st)) ∧
  (Events.disabled_ (ev st) = 0 →
   ∃ id s0,
     blocks s0 = blocks st ++ [new_block id None] ∧
     Workspace.blockDB_ (ws s0)
     = <[id := length (blocks st)]> (Workspace.blockDB_ (ws st)) ∧
     top_blocks s0 = top_blocks st ++ [length (blocks st)] ∧
     Workspace.undoStack_ (ws s0) = Workspace.undoStack_ (ws st) ∧
     Workspace.redoStack_ (ws s0) = Workspace.redoStack_ (ws st) ∧
     Workspace.listeners_ (ws s0) = Workspace.listeners_ (ws st) ∧
     trace s0 = trace st ∧
     ev s0 = (if truthy (Events.group_ (ev st)) then ev st
              else Events.set_group_ (genUid env (pred (uids s0))) (ev st)) ∧
     Workspace_newBlock_firing env fire None opt_id st
     = match fire (Event.mk Event.Create id (Events.group_ (ev s0))
                     (Events.recordUndo (ev st))) s0 with
       | Ret _ s1 => Ret (length (blocks st)) (group_closed st s1)
       | Raise x s1 => Raise x (group_closed st s1)
       | OutOfFuel => OutOfFuel
       end) ∧
  ((∀ e, keeps_events (fire e)) →
   ∀ st', final (Workspace_newBlock_firing env fire None opt_id st) = Some st' →
     ev st' = ev st) ∧
  (∀ prototypeName,
     Workspace_newBlock_firing env Events_fire prototypeName opt_id
     = Workspace_newBlock env prototypeName opt_id).
Proof.
  assert (∀ P : Prop,
    (∀ id s1, (s1 = st ∨ s1 = set_uids S st) →
       Workspace_newBlock_firing env fire None opt_id st
       = (enabled <- Events_isEnabled;;
          when enabled (
            existingGroup <- Events_getGroup;;
            when (negb (truthy existingGroup)) (Events_setGroup env true);;;
            try_finally
              (b <- getBlock (length (blocks st));;
               e <- Events_BlockCreate_new b;;
               fire e)
              (when (negb (truthy existingGroup)) (Events_setGroup env false)));;;
          ret (length (blocks st)))
           (set_ws (λ w, Workspace.set_topBlocks_
                           (Workspace.topBlocks_ w ++ [length (blocks st)]) w)
              (set_ws (λ w, Workspace.set_blockDB_
                              (<[id:=length (blocks st)]> (Workspace.blockDB_ w)) w)
                 (set_blocks (λ l, l ++ [new_block id None]) s1))) → P) → P)
    as Hstart.
  { intros P HP.
    destruct (Block_new_id_state env opt_id st) as (id & s1 & Hid & Hs1 & _).
    apply (HP id s1 Hs1).
    unfold Workspace_newBlock_firing, Block_new_firing. rewrite bind_gets.
    rewrite (bind_Ret _ _ _ _ _ Hid).
    assert (blocks s1 = blocks st) as Hb1 by (by destruct Hs1 as [->| ->]).
    unfold Block_mixin, Workspace_addTopBlock. repeat mstep. rewrite Hb1.
    reflexivity. }
  assert (Henabled :
    Events.disabled_ (ev st) = 0 →
    ∃ id s0,
      blocks s0 = blocks st ++ [new_block id None] ∧
      Workspace.blockDB_ (ws s0)
      = <[id := length (blocks st)]> (Workspace.blockDB_ (ws st)) ∧
      top_blocks s0 = top_blocks st ++ [length (blocks st)] ∧
      Workspace.undoStack_ (ws s0) = Workspace.undoStack_ (ws st) ∧
      Workspace.redoStack_ (ws s0) = Workspace.redoStack_ (ws st) ∧
      Workspace.listeners_ (ws s0) = Workspace.listeners_ (ws st) ∧
      trace s0 = trace st ∧
      ev s0 = (if truthy (Events.group_ (ev st)) then ev st
               else Events.set_group_ (genUid env (pred (uids s0))) (ev st)) ∧
      Workspace_newBlock_firing env fire None opt_id st
      = match fire (Event.mk Event.Create id (Events.group_ (ev s0))
                      (Events.recordUndo (ev st))) s0 with
        | Ret _ s1 => Ret (length (blocks st)) (group_closed st s1)
        | Raise x s1 => Raise x (group_closed st s1)
        | OutOfFuel => OutOfFuel
        end).
  { intros Hen. apply Hstart. intros id s1 Hs1 ->.
    unfold Events_isEnabled, Events_getGroup. repeat mstep.
    assert (ev s1 = ev st ∧ blocks s1 = blocks st ∧ ws s1 = ws st
            ∧ trace s1 = trace st) as (He1 & Hb1 & Hw1 & Ht1)
      by (by destruct Hs1 as [->| ->]).
    rewrite He1, Hen. rewrite bool_decide_eq_true_2 by done. cbn [when].
    repeat mstep. rewrite He1.
    unfold group_closed.
    destruct (truthy (Events.group_ (ev st))) eqn:Hg; cbn [negb when].
    + repeat mstep.
      match goal with |- context [bind (try_finally ?m ?fin) ?k ?s] =>
        exists id, s;
        assert (m s = fire (Event.mk Event.Create id (Events.group_ (ev st))
                              (Events.recordUndo (ev st))) s) as Hinner
      end.
      { unfold Events_BlockCreate_new, Events_Abstract_new.
        erewrite bind_getBlock by (proj; rewrite Hb1; by apply list_lookup_middle).
        repeat mstep. by rewrite He1. }
      unfold top_blocks. proj. rewrite ?Hb1, ?Hw1, ?Ht1, ?He1.
      split_and!; try done.
      rewrite (bind_try_finally _ _ _ (λ s, s)) by done. rewrite Hinner.
      match goal with |- context [fire ?e ?s] => by destruct (fire e s) end.
    + unfold Events_setGroup at 1, utils_genUid. repeat mstep. unfold modify.
      repeat mstep.
      match goal with |- context [bind (try_finally ?m ?fin) ?k ?s] =>
        exists id, s;
        assert (m s = fire (Event.mk Event.Create id (genUid env (uids s1))
                              (Events.recordUndo (ev st))) s) as Hinner
      end.
      { unfold Events_BlockCreate_new, Events_Abstract_new.
        erewrite bind_getBlock by (proj; rewrite Hb1; by apply list_lookup_middle).
        repeat mstep. by rewrite He1. }
      unfold top_blocks. proj. rewrite ?Hb1, ?Hw1, ?Ht1, ?He1.
      cbn [Events.group_ Events.set_group_ Nat.pred].
      split_and!; try done.
      rewrite (bind_try_finally _ _ _ (set_ev (Events.set_group_ ""))) by done.
      rewrite Hinner.
      match goal with |- context [fire ?e ?s] => by destruct (fire e s) end. }
  split_and!.
  - intros Hdis. apply Hstart. intros id s1 Hs1 ->.
    unfold Events_isEnabled. repeat mstep.
    assert (ev s1 = ev st) as -> by (by destruct Hs1 as [->| ->]).
    rewrite bool_decide_eq_false_2 by done. cbn [when]. repeat mstep.
    eexists. split; [reflexivity|]. proj.
    by destruct Hs1 as [->| ->].
  - exact Henabled.
  - intros Hfire st' Hfin.
    destruct (decide (Events.disabled_ (ev st) = 0)) as [Hen|Hdis].
    + destruct (Henabled Hen) as (id & s0 & _ & _ & _ & _ & _ & _ & _ & He0 & Hrun).
      rewrite Hrun in Hfin.
      match type of Hfin with context [fire ?e s0] =>
        pose proof (Hfire e s0) as Hk; destruct (fire e s0) as [[] s1|x s1|]
      end.
      * injection Hfin as <-.
        unfold group_closed. rewrite He0 in Hk.
        destruct (truthy (Events.group_ (ev st))) eqn:Hg; [done|].
        proj. rewrite Hk. unfold truthy in Hg.
        apply negb_false_iff, String.eqb_eq in Hg.
        destruct (ev st); cbn in *. by rewrite Hg.
      * injection Hfin as <-.
        unfold group_closed. rewrite He0 in Hk.
        destruct (truthy (Events.group_ (ev st))) eqn:Hg; [done|].
        proj. rewrite Hk. unfold truthy in Hg.
        apply negb_false_iff, String.eqb_eq in Hg.
        destruct (ev st); cbn in *. by rewrite Hg.
      * done.
    + apply Hstart. intros id s1 Hs1 Heq. rewrite Heq in Hfin. revert Hfin.
      unfold Events_isEnabled. repeat mstep.
      assert (ev s1 = ev st) as He1 by (by destruct Hs1 as [->| ->]).
      rewrite He1, bool_decide_eq_false_2 by done. cbn [when]. repeat mstep.
      cbn. by intros [= <-].
  - done.
Qed.

(** Listeners that leave the event globals alone: so does the firing of
    an event. *)
Lemma call_listeners_from_keeps_events (call : Listener → Event.t → M unit)
    (e : Event.t) (fuel i : nat) :
  (∀ f, keeps_events (call f e)) →
  keeps_events (call_listeners_from call fuel i e).
Proof.
  intros Hcall. revert i. induction fuel as [|fuel IH]; intros i s; [done|].
  cbn [call_listeners_from]. mstep.
  destruct (_ !! i) as [f|]; [|done]. repeat mstep.
  set (s0 := set_trace _ s).
  pose proof (Hcall f s0) as Hf. unfold bind.
  destruct (call f e s0) as [[] s1|x s1|]; [|done..].
  pose proof (IH (S i) s1) as Hrest.
  destruct (call_listeners_from call fuel (S i) e s1); [| |done];
    by rewrite Hrest, Hf.
Qed.

Lemma Events_fire_host_keeps_events (call : Listener → Event.t → M unit)
    (fuel : nat) (e : Event.t) :
  (∀ f, keeps_events (call f e)) →
  keeps_events (Events_fire_host call fuel e).
Proof.
  intros Hcall s. unfold Events_fire_host, Events_isEnabled. mstep.
  destruct (bool_decide _); cbn [when]; [|done]. repeat mstep.
  rewrite fireChangeListener_host_recorded.
  match goal with |- context [call_listeners_from call fuel 0 e ?s0] =>
    pose proof (call_listeners_from_keeps_events call e fuel 0 Hcall s0) as H;
    destruct (call_listeners_from call fuel 0 e s0)
  end; [| |done]; rewrite H; unfold recorded; by destruct (Event.recordUndo e).
Qed.

Lemma example_call_keeps_events (f : Listener) (e : Event.t) :
  keeps_events (example_call f e).
Proof. intros s. by destruct f as [[|[|?]]|]. Qed.

Lemma newBlock_fires_create_witness :
  ∃ st',
    Workspace_newBlock_firing example_env (Events_fire_host example_call 2)
      None (Some "b1") thrower_state
    = Raise (Thrown "listener failed") st' ∧
    ev st' = ev thrower_state ∧
    Workspace.undoStack_ (ws st') = [Event.mk Event.Create "b1" "x" true] ∧
    Workspace.blockDB_ (ws st') !! "b1" = Some 0 ∧
    top_blocks st' = [0].
Proof.
  eexists. split; [vm_compute; reflexivity|]. split; [|by split_and!].
  apply (proj1 (proj2 (proj2 (newBlock_fires_create example_env
                                (Events_fire_host example_call 2) (Some "b1")
                                thrower_state)))).
  - intros e. apply Events_fire_host_keeps_events.
    intros f. apply example_call_keeps_events.
  - vm_compute. reflexivity.
Defined.

(** ** Filled inputs *)

Lemma getNextBlock_state (this : BlockRef) (next : option BlockRef)
    (st st' : State) :
  Block_getNextBlock this st = Ret next st' → st' = st.
Proof.
  unfold Block_getNextBlock, bind at 1, getBlock.
  destruct (blocks st !! this) as [b|]; [|done].
  destruct (Block.nextConnection b); [apply targetBlock_state|].
  by intros [= _ ->].
Qed.

(** Counting shadow blocks as filled only helps, block by block. *)
Lemma allInputsFilled_from_shadows (fuel : nat) :
  ∀ this st st',
    allInputsFilled_from fuel this false st = Ret true st' →
    st' = st ∧ allInputsFilled_from fuel this true st = Ret true st.
Proof.
  induction fuel as [|fuel IH]; intros this st st'; [done|].
  assert (∀ inputs s',
            allInputsFilled_inputs
              (λ target, allInputsFilled_from fuel target false) inputs st
            = Ret true s' →
            s' = st ∧
            allInputsFilled_inputs
              (λ target, allInputsFilled_from fuel target true) inputs st
            = Ret true st) as Hinputs.
  { induction inputs as [|input inputs IHi]; intros s'.
    { by intros [= <-]. }
    cbn [allInputsFilled_inputs].
    destruct (Input.connection input) as [c|]; [|apply IHi].
    intros H. apply bind_Ret_inv in H as (t & s1 & Ht & H).
    pose proof (targetBlock_state _ _ _ _ Ht) as ->.
    rewrite (bind_Ret _ _ _ _ _ Ht).
    destruct t as [t|]; [|done].
    apply bind_Ret_inv in H as (f & s1 & Hf & H).
    destruct f; [|done].
    apply IH in Hf as [-> Hf]. rewrite (bind_Ret _ _ _ _ _ Hf).
    by apply IHi. }
  cbn [allInputsFilled_from]. intros H.
  apply bind_Ret_inv in H as (b & s0 & Hb & H).
  apply getBlock_Ret_inv in Hb as [-> Hb]. cbn [negb andb] in H.
  destruct (Block.isShadow_ b); [done|].
  apply bind_Ret_inv in H as (f & s1 & Hin & H).
  destruct f; [|done].
  apply Hinputs in Hin as [-> Hin].
  apply bind_Ret_inv in H as (next & s1 & Hn & H).
  pose proof (getNextBlock_state _ _ _ _ Hn) as ->.
  mstep. cbn [negb andb].
  rewrite (bind_Ret _ _ _ _ _ Hin), (bind_Ret _ _ _ _ _ Hn).
  destruct next as [next|].
  - by apply IH.
  - by injection H as <-.
Qed.

Lemma allInputsFilled_blocks_shadows (fuel : nat) (blocks : list BlockRef) :
  ∀ st st',
    allInputsFilled_blocks fuel blocks (Some false) st = Ret true st' →
    st' = st ∧
    allInputsFilled_blocks fuel blocks (Some true) st = Ret true st ∧
    allInputsFilled_blocks fuel blocks None st = Ret true st.
Proof.
  induction blocks as [|block blocks IH]; intros st st'.
  { by intros [= <-]. }
  cbn [allInputsFilled_blocks]. unfold Block_allInputsFilled. cbn [default].
  intros H. apply bind_Ret_inv in H as (f & s1 & Hf & H).
  destruct f; [|done].
  apply allInputsFilled_from_shadows in Hf as [-> Hf].
  rewrite !(bind_Ret _ _ _ _ _ Hf).
  by apply IH in H.
Qed.

(** X24.  [allInputsFilled] of a block and of a workspace only read the
    state, and counting shadow blocks as filled only helps: whatever is
    filled when shadow blocks do not count is filled when they do, which
    is also what the call without an argument says.  When shadow blocks
    do not count a shadow block is not filled, whatever is attached to
    it. *)
Theorem allInputsFilled_shadows (fuel : nat) (st : State) :
  (∀ this st',
     Block_allInputsFilled fuel this (Some false) st = Ret true st' →
     st' = st ∧
     Block_allInputsFilled fuel this (Some true) st = Ret true st ∧
     Block_allInputsFilled fuel this None st = Ret true st) ∧
  (∀ st',
     Workspace_allInputsFilled fuel (Some false) st = Ret true st' →
     st' = st ∧
     Workspace_allInputsFilled fuel (Some true) st = Ret true st ∧
     Workspace_allInputsFilled fuel None st = Ret true st) ∧
  (∀ this b, blocks st !! this = Some b → Block.isShadow_ b = true →
     Block_allInputsFilled (S fuel) this (Some false) st = Ret false st).
Proof.
  split_and!.
  - intros this st' H. unfold Block_allInputsFilled in *. cbn [default] in *.
    apply allInputsFilled_from_shadows in H as [-> H]. by split_and!.
  - intros st'. unfold Workspace_allInputsFilled,
      Workspace_getTopBlocks_unordered. rewrite !bind_gets.
    apply allInputsFilled_blocks_shadows.
  - intros this b Hb Hs. unfold Block_allInputsFilled.
    cbn [default allInputsFilled_from]. mstep. by rewrite Hs.
Qed.

Lemma allInputsFilled_shadows_witness :
  Block_allInputsFilled 3 0 (Some true) plugged_state = Ret true plugged_state ∧
  Block_allInputsFilled 3 0 None plugged_state = Ret true plugged_state.
Proof.
  apply (proj1 (allInputsFilled_shadows 3 plugged_state) 0 plugged_state).
  vm_compute. reflexivity.
Defined.
